(** * ReflectionDetector: a shallow embedding of
    [Scene2/src/scripts/ReflectionDetector.ts]

    JavaScript numbers are IEEE 754 binary64 values; they are modelled by
    Rocq's primitive floats, whose operations are the same correctly
    rounded binary64 operations ([Math.sqrt] is taken to be the correctly
    rounded square root).  Array indices and image dimensions are natural
    numbers: they are exact in binary64 up to 2^53, far beyond any canvas
    size.  The gradient table [number[][]] is a JavaScript array written
    by index; it is modelled as a finite map from indices to values, so
    that a missing entry reads as [undefined].  The pixel buffer
    (Uint8ClampedArray) is a list of bytes, and the particle buffer
    (Float32Array) is a list of numbers of fixed length. *)

From Stdlib Require Import ZArith List Lia Bool Floats.
From Stdlib Require Uint63.
From stdpp Require Import base option list gmap sorting.

(* Decimal literals such as 0.299 denote the nearest binary64 value, as in
   JavaScript. *)
#[local] Set Warnings "-inexact-float".

Local Open Scope nat_scope.

(** * The program *)

(** ** JavaScript values and errors *)

Abbreviation number := float.

(** The outcome of running a piece of the script: a value, or the
    [TypeError] raised by reading a property of [undefined]. *)
Inductive result (A : Type) : Type :=
  | Ok (a : A)
  | TypeError.
Arguments Ok {A} a.
Arguments TypeError {A}.

#[global] Instance result_bind : MBind result := fun A B k r =>
  match r with
  | Ok a => k a
  | TypeError => TypeError
  end.

(** A [for] loop over a known list of indices whose body may throw. *)
Fixpoint for_each {I S : Type} (body : S -> I -> result S) (s : S) (l : list I)
  : result S :=
  match l with
  | [] => Ok s
  | i :: l' => s' ← body s i; for_each body s' l'
  end.

(** Integers as numbers. *)
Definition of_nat (n : nat) : number := of_uint63 (Uint63.of_Z (Z.of_nat n)).
Definition of_byte (b : Byte.byte) : number :=
  of_uint63 (Uint63.of_Z (Z.of_N (Byte.to_N b))).

(** [a > b] on numbers. *)
Definition gt (a b : number) : bool := (b <? a)%float.

(** ** Configuration (class fields, lines 18-21) *)

Definition brightnessThreshold : number := 200%float.
Definition edgeThreshold : number := 0.2%float.
Definition projectionDistance : number := 0.1%float.
Definition maxBrightPoints : nat := 5.

(** ** Frames *)

(** [pixels[i]] used as a number: an index past the end of a typed array
    reads [undefined], which arithmetic turns into NaN. *)
Definition pixel (pixels : list Byte.byte) (i : nat) : number :=
  match pixels !! i with
  | Some b => of_byte b
  | None => nan
  end.

(** [0.299 * pixels[i] + 0.587 * pixels[i + 1] + 0.114 * pixels[i + 2]] *)
Definition luma (pixels : list Byte.byte) (i : nat) : number :=
  (0.299 * pixel pixels i + 0.587 * pixel pixels (i + 1)
   + 0.114 * pixel pixels (i + 2))%float.

(** ** applySobelFilter (lines 124-163) *)

Abbreviation row := (gmap nat number).
Abbreviation grid := (gmap nat row).

Definition gx : list (list number) :=
  [ [(-1)%float; 0%float; 1%float];
    [(-2)%float; 0%float; 2%float];
    [(-1)%float; 0%float; 1%float] ].

Definition gy : list (list number) :=
  [ [(-1)%float; (-2)%float; (-1)%float];
    [0%float; 0%float; 0%float];
    [1%float; 2%float; 1%float] ].

(** [k[i][j]] for a kernel literal. *)
Definition kernel_at (k : list (list number)) (i j : nat) : number :=
  match k !! i with
  | Some r => match r !! j with Some v => v | None => nan end
  | None => nan
  end.

(** [gradients[y][x] = v]: throws when [gradients[y]] is undefined. *)
Definition set_cell (g : grid) (y x : nat) (v : number) : result grid :=
  match g !! y with
  | Some r => Ok (<[y := <[x := v]> r]> g)
  | None => TypeError
  end.

(** Lines 137-142: [gradients[y] = []], then [gradients[y][x] = 0] for
    every column. *)
Definition init_gradients (width height : nat) : result grid :=
  for_each
    (fun g y => for_each (fun g x => set_cell g y x 0%float)
                         (<[y := (∅ : row)]> g) (seq 0 width))
    (∅ : grid) (seq 0 height).

(** Lines 146-156: the two kernel loops at pixel (x, y), with [1 <= x] and
    [1 <= y].  The loop variables [i], [j] run over -1, 0, 1; here they are
    shifted by one, so that [i1 = i + 1] and [j1 = j + 1] are the kernel
    indices and [y + i1 - 1], [x + j1 - 1] the pixel coordinates. *)
Definition sobel_step (pixels : list Byte.byte) (width x y : nat)
    (i1 : nat) (acc : number * number) (j1 : nat) : number * number :=
  let pixelIndex := ((y + i1 - 1) * width + (x + j1 - 1)) * 4 in
  let brightness := luma pixels pixelIndex in
  ((fst acc + brightness * kernel_at gx i1 j1)%float,
   (snd acc + brightness * kernel_at gy i1 j1)%float).

Definition sobel_sums (pixels : list Byte.byte) (width x y : nat)
  : number * number :=
  foldl (fun acc i1 => foldl (sobel_step pixels width x y i1) acc (seq 0 3))
        (0%float, 0%float) (seq 0 3).

(** Line 158: [Math.sqrt(sumX * sumX + sumY * sumY)]. *)
Definition magnitude (s : number * number) : number :=
  PrimFloat.sqrt (fst s * fst s + snd s * snd s)%float.

Definition applySobelFilter (pixels : list Byte.byte) (width height : nat)
  : result grid :=
  g0 ← init_gradients width height;
  for_each
    (fun g y =>
       for_each
         (fun g x => set_cell g y x (magnitude (sobel_sums pixels width x y)))
         g (seq 1 (width - 2)))
    g0 (seq 1 (height - 2)).

(** ** findBrightPoints (lines 91-106) *)

(** THREE.Color as constructed by [new THREE.Color(r, g, b)]. *)
Record Color := mkColor { col_r : number; col_g : number; col_b : number }.

Record BrightPoint := mkBrightPoint {
  bp_x : nat;
  bp_y : nat;
  brightness : number;
  color : Color
}.

(** [x = (i / 4) % width] and [y = Math.floor((i / 4) / width)] for
    [i = 4 * k].  With [width = 0] the remainder is NaN, which is not an
    index of any array. *)
Definition pixel_coords (k width : nat) : option (nat * nat) :=
  if width =? 0 then None else Some (k mod width, k / width).

(** [edges[x][y]] used as a number (line 100): [edges[x]] must be an
    object, and a missing [edges[x][y]] is [undefined], which compares as
    NaN. *)
Definition read_edge (edges : grid) (x y : nat) : result number :=
  match edges !! x with
  | Some r => Ok (match r !! y with Some v => v | None => nan end)
  | None => TypeError
  end.

(** The body of the loop of line 95 for [i = 4 * k]. *)
Definition scan_pixel (pixels : list Byte.byte) (width : nat) (edges : grid)
    (brightPoints : list BrightPoint) (k : nat) : result (list BrightPoint) :=
  let i := 4 * k in
  let brightness := luma pixels i in
  if gt brightness brightnessThreshold then
    match pixel_coords k width with
    | Some (x, y) =>
        edge ← read_edge edges x y;
        if gt edge edgeThreshold then
          Ok (brightPoints ++
              [ mkBrightPoint x y brightness
                  (mkColor (pixel pixels i / 255)%float
                           (pixel pixels (i + 1) / 255)%float
                           (pixel pixels (i + 2) / 255)%float) ])
        else Ok brightPoints
    | None => TypeError
    end
  else Ok brightPoints.

(** The loop runs for [i = 0, 4, 8, ...] while [i < pixels.length]. *)
Definition scan_indices (pixels : list Byte.byte) : list nat :=
  seq 0 ((length pixels + 3) / 4).

Definition findBrightPoints (pixels : list Byte.byte) (width height : nat)
  : result (list BrightPoint) :=
  edges ← applySobelFilter pixels width height;
  for_each (scan_pixel pixels width edges) [] (scan_indices pixels).

(** ** convertToWorldPosition (lines 165-169) *)

Record Vector3 := mkVector3 { vx : number; vy : number; vz : number }.

Definition convertToWorldPosition (x y width height : number) : Vector3 :=
  let normalizedX := (x / width * 2 - 1)%float in
  let normalizedY := (- y / height * 2 + 1)%float in
  mkVector3 normalizedX normalizedY 0%float.

(** ** updateParticleSystem (lines 108-122) *)

(** [Array.prototype.sort] with a comparison function.  The sort is
    stable, and an element [a] is moved behind an element [h] only when
    [cmp a h > 0] (a NaN returned by the comparison counts as 0).  For a
    comparison that orders the elements consistently every stable sort
    returns the same array; the stable insertion sort below is one. *)
Fixpoint sort_insert {A : Type} (cmp : A -> A -> number) (a : A) (l : list A)
  : list A :=
  match l with
  | [] => [a]
  | h :: t => if gt (cmp a h) 0%float then h :: sort_insert cmp a t
              else a :: h :: t
  end.

Definition array_sort {A : Type} (cmp : A -> A -> number) (l : list A) : list A :=
  foldr (sort_insert cmp) [] l.

(** [(a, b) => b.brightness - a.brightness] *)
Definition by_brightness (a b : BrightPoint) : number :=
  (brightness b - brightness a)%float.

(** Lines 109-112. *)
Definition rank (brightPoints : list BrightPoint) : list BrightPoint :=
  let sorted := array_sort by_brightness brightPoints in
  if maxBrightPoints <? length sorted then take maxBrightPoints sorted
  else sorted.

(** A store into a Float32Array keeps the nearest binary32 value (ties to
    even); zeros, infinities and NaN are kept as they are. *)
Definition fround (v : number) : number :=
  match Prim2SF v with
  | S754_finite s m e => SF2Prim (binary_round_aux 24 128 s (Zpos m) e loc_Exact)
  | _ => v
  end.

(** [positions.setXYZ(i, x, y, z)] of THREE.BufferAttribute with item size
    3: three stores into the underlying Float32Array; a store past its end
    has no effect. *)
Definition setXYZ (positions : list number) (i : nat) (x y z : number)
  : list number :=
  <[3 * i + 2 := fround z]> (<[3 * i + 1 := fround y]> (<[3 * i := fround x]> positions)).

(** The position handed to [setXYZ] for one ranked point (lines 116-118). *)
Definition projected (width height : nat) (p : BrightPoint) : Vector3 :=
  let worldPos :=
    convertToWorldPosition (of_nat (bp_x p)) (of_nat (bp_y p))
                           (of_nat width) (of_nat height) in
  mkVector3 (vx worldPos) (vy worldPos) (vz worldPos - projectionDistance)%float.

(** The loop of lines 115-120 over the ranked points: its body for
    index [i], and the loop. *)
Definition write_point (width height : nat) (ranked : list BrightPoint)
    (positions : list number) (i : nat) : list number :=
  match ranked !! i with
  | Some p =>
      let v := projected width height p in
      setXYZ positions i (vx v) (vy v) (vz v)
  | None => positions
  end.

Definition write_points (width height : nat) (ranked : list BrightPoint)
    (positions : list number) : list number :=
  foldl (write_point width height ranked) positions (seq 0 (length ranked)).

Definition updateParticleSystem (width height : nat)
    (brightPoints : list BrightPoint) (positions : list number) : list number :=
  write_points width height (rank brightPoints) positions.

(** ** initParticleSystem (lines 57-66) *)

(** [new Float32Array(particleCount * 3)]: all zeros. *)
Definition initParticleSystem : list number :=
  replicate (maxBrightPoints * 3) 0%float.

(** ** The driver: constructor, initWebcam, detectReflections *)

(** The driver is an object whose methods the browser calls: the
    constructor runs once, the getUserMedia promise is settled at most
    once, and an animation frame runs the callback registered by
    [requestAnimationFrame], if any.  The state below records the particle
    buffer, what is pending, and what the driver has done so far. *)

(** What the driver does to its environment, in order of occurrence. *)
Inductive effect :=
  | GetUserMedia   (* navigator.mediaDevices.getUserMedia({ video: true }) *)
  | Play           (* this.webcamVideo.play() *)
  | ConsoleError   (* console.error("Webcam initialization failed: ", err) *)
  | RequestFrame   (* requestAnimationFrame(this.detectReflections.bind(this)) *)
  | Pass.          (* findBrightPoints followed by updateParticleSystem *)

#[global] Instance effect_eq_dec : EqDecision effect.
Proof. solve_decision. Defined.

Record detector := mkDetector {
  positions : list number;  (* the Float32Array of the position attribute *)
  acquiring : bool;         (* the getUserMedia promise is not settled yet *)
  scheduled : bool;         (* a detectReflections callback is registered *)
  trace : list effect
}.

(** The video element and the canvas as [detectReflections] finds them. *)
Record video := mkVideo {
  readyState : nat;
  videoWidth : nat;
  videoHeight : nat;
  context : bool;           (* canvas.getContext('2d') is not null *)
  data : list Byte.byte     (* ctx.getImageData(0, 0, width, height).data *)
}.

Definition HAVE_ENOUGH_DATA : nat := 4.

(** What the browser does to the driver. *)
Inductive event :=
  | Resolved            (* the getUserMedia promise is fulfilled *)
  | Rejected            (* the getUserMedia promise is rejected *)
  | Frame (v : video).  (* the animation frame callbacks are run *)

(** The constructor (lines 23-41) calls [initWebcam], which requests the
    camera, and [initParticleSystem]. *)
Definition construct : detector :=
  mkDetector initParticleSystem true false [GetUserMedia].

(** Lines 68-89.  The dimensions of the video are read at line 70 and
    again at line 117, within one callback.  [getImageData] throws an
    IndexSizeError for a zero width or height.  An exception leaves the
    callback before line 88, as does the [return] of line 77. *)
Definition detectReflections (d : detector) (v : video) : detector :=
  if readyState v =? HAVE_ENOUGH_DATA then
    let width := videoWidth v in
    let height := videoHeight v in
    if context v then
      if (width =? 0) || (height =? 0) then d
      else
        match findBrightPoints (data v) width height with
        | Ok brightPoints =>
            mkDetector
              (updateParticleSystem width height brightPoints (positions d))
              (acquiring d) true (trace d ++ [Pass; RequestFrame])
        | TypeError => d
        end
    else d
  else mkDetector (positions d) (acquiring d) true (trace d ++ [RequestFrame]).

Definition step (d : detector) (e : event) : detector :=
  match e with
  | Resolved =>
      if acquiring d
      then mkDetector (positions d) false true (trace d ++ [Play; RequestFrame])
      else d
  | Rejected =>
      if acquiring d
      then mkDetector (positions d) false (scheduled d) (trace d ++ [ConsoleError])
      else d
  | Frame v =>
      if scheduled d
      then detectReflections
             (mkDetector (positions d) (acquiring d) false (trace d)) v
      else d
  end.

Definition run (d : detector) (es : list event) : detector := foldl step d es.

(** * Notions used in the statements *)

(** ** The edge map as the specification states it *)

(** The luma of the pixel at column [x], row [y], and the two convolutions
    of the 3 by 3 neighbourhood with [gx] and [gy], summed row by row
    starting from 0. *)
Definition luma_at (pixels : list Byte.byte) (width x y : nat) : number :=
  luma pixels ((y * width + x) * 4).

Definition convolve_gx (pixels : list Byte.byte) (width x y : nat) : number :=
  let L := luma_at pixels width in
  let left := x - 1 in let right := x + 1 in
  let above := y - 1 in let below := y + 1 in
  (0 + L left above * (-1) + L x above * 0 + L right above * 1
     + L left y * (-2) + L x y * 0 + L right y * 2
     + L left below * (-1) + L x below * 0 + L right below * 1)%float.

Definition convolve_gy (pixels : list Byte.byte) (width x y : nat) : number :=
  let L := luma_at pixels width in
  let left := x - 1 in let right := x + 1 in
  let above := y - 1 in let below := y + 1 in
  (0 + L left above * (-1) + L x above * (-2) + L right above * (-1)
     + L left y * 0 + L x y * 0 + L right y * 0
     + L left below * 1 + L x below * 2 + L right below * 1)%float.

Definition interior (width height x y : nat) : bool :=
  (1 <=? x) && (x <? width - 1) && (1 <=? y) && (y <? height - 1).

(** The value of the edge map for the pixel at column [x], row [y]:
    [gradients[y][x]] as [applySobelFilter] returns it. *)
Definition edge_map_at (pixels : list Byte.byte) (width height x y : nat)
  : option number :=
  match applySobelFilter pixels width height with
  | Ok edges => r ← edges !! y; r !! x
  | TypeError => None
  end.

(** Writing a run of cells of one row, and a row of [width] zeros. *)
Definition fill (f : nat -> number) (r0 : row) (xs : list nat) : row :=
  foldl (fun r x => <[x := f x]> r) r0 xs.

Definition zero_row (width : nat) : row := fill (fun _ => 0%float) ∅ (seq 0 width).

(** ** The extractor as a function of the scan position *)

(** The position of a point's pixel in the row-major scan. *)
Definition pixel_index (width : nat) (p : BrightPoint) : nat :=
  bp_y p * width + bp_x p.

(** The point pushed for scan position [k], that is for [i = 4 * k]. *)
Definition candidate (pixels : list Byte.byte) (width k : nat) : BrightPoint :=
  mkBrightPoint (k mod width) (k / width) (luma pixels (4 * k))
    (mkColor (pixel pixels (4 * k) / 255)%float
             (pixel pixels (4 * k + 1) / 255)%float
             (pixel pixels (4 * k + 2) / 255)%float).

(** Whether the loop body pushes a point, and whether it throws, at scan
    position [k]. *)
Definition emits (pixels : list Byte.byte) (width : nat) (edges : grid)
    (k : nat) : bool :=
  gt (luma pixels (4 * k)) brightnessThreshold
  && match pixel_coords k width with
     | Some (x, y) =>
         match read_edge edges x y with
         | Ok edge => gt edge edgeThreshold
         | TypeError => false
         end
     | None => false
     end.

Definition throws (pixels : list Byte.byte) (width : nat) (edges : grid)
    (k : nat) : bool :=
  gt (luma pixels (4 * k)) brightnessThreshold
  && match pixel_coords k width with
     | Some (x, y) =>
         match read_edge edges x y with
         | Ok _ => false
         | TypeError => true
         end
     | None => true
     end.

(** ** The ranker *)

(** [p] is at least as bright as [q]. *)
Definition brighter_eq (p q : BrightPoint) : Prop :=
  (brightness q <=? brightness p)%float = true.

(** ** One pass *)

(** Component [c] of a position, as laid out in the buffer. *)
Definition coord (v : Vector3) (c : nat) : number :=
  match c with
  | 0 => vx v
  | 1 => vy v
  | _ => vz v
  end.

(** The ranked points of a frame. *)
Definition ranked_points (pixels : list Byte.byte) (width height : nat)
  : result (list BrightPoint) :=
  brightPoints ← findBrightPoints pixels width height; Ok (rank brightPoints).

(** The positions handed to the particle buffer for a frame. *)
Definition pipeline (pixels : list Byte.byte) (width height : nat)
  : result (list Vector3) :=
  brightPoints ← findBrightPoints pixels width height;
  Ok (map (projected width height) (rank brightPoints)).

(** One pass on a frame from a given state of the particle buffer: the
    positions handed to [setXYZ], in order, and the buffer afterwards. *)
Definition pass (pixels : list Byte.byte) (width height : nat)
    (buffer : list number) : result (list Vector3 * list number) :=
  brightPoints ← findBrightPoints pixels width height;
  Ok (map (projected width height) (rank brightPoints),
      updateParticleSystem width height brightPoints buffer).

(** The states of the driver as the specification names them: the driver
    is running once it has performed a pass. *)
Inductive phase := AwaitingCapture | Running.

Definition phase_of (d : detector) : phase :=
  if decide (Pass ∈ trace d) then Running else AwaitingCapture.

(** ** Sample data *)

Definition gray_px : list Byte.byte := [Byte.x80; Byte.x80; Byte.x80; Byte.xff].
Definition white_px : list Byte.byte := [Byte.xff; Byte.xff; Byte.xff; Byte.xff].
Definition black_px : list Byte.byte := [Byte.x00; Byte.x00; Byte.x00; Byte.xff].

(** A 4 by 4 mid-gray frame with a white pixel at (2, 2). *)
Definition frame_4x4 : list Byte.byte :=
  concat (replicate 10 gray_px) ++ white_px ++ concat (replicate 5 gray_px).

(** A 4 by 4 frame whose column 0 is black and whose other columns are
    white. *)
Definition frame_edge : list Byte.byte :=
  concat (replicate 4 (black_px ++ white_px ++ white_px ++ white_px)).

(** A white frame of width 2 and height 1. *)
Definition frame_2x1 : list Byte.byte := white_px ++ white_px.

(** Seven candidates, some of equal brightness. *)
Definition sample_candidates : list BrightPoint :=
  [ mkBrightPoint 0 0 201%float (mkColor 1%float 1%float 1%float);
    mkBrightPoint 1 0 250.5%float (mkColor 1%float 1%float 1%float);
    mkBrightPoint 2 0 201%float (mkColor 1%float 1%float 1%float);
    mkBrightPoint 3 0 255%float (mkColor 1%float 1%float 1%float);
    mkBrightPoint 0 1 220%float (mkColor 1%float 1%float 1%float);
    mkBrightPoint 1 1 201%float (mkColor 1%float 1%float 1%float);
    mkBrightPoint 2 1 250.5%float (mkColor 1%float 1%float 1%float) ].

(** A particle buffer left by earlier passes. *)
Definition sample_buffer : list number := replicate 15 7%float.

(** ** Binary64 arithmetic *)

Local Open Scope Z_scope.

(** Upper bound carried by a shift record: the mantissa, plus one when the
    record stands for a value strictly above it. *)
Definition mrs_ub (mrs : shr_record) : Z :=
  shr_m mrs + (if shr_r mrs || shr_s mrs then 1 else 0).

Definition loc_ub (l : location) : Z :=
  match l with loc_Exact => 0 | loc_Inexact _ => 1 end.

(** A float is zero or a finite number of sign [s] and magnitude at most
    [2 ^ k]. *)
Definition bounded_by (s : bool) (k : Z) (f : spec_float) : Prop :=
  match f with
  | S754_zero s' => s' = s
  | S754_finite s' m e => s' = s /\ Zpos m <= 2 ^ (k - e)
  | _ => False
  end.

(** A float is a finite non-zero number or an infinity, of sign [s]. *)
Definition nonzero_of_sign (s : bool) (f : spec_float) : Prop :=
  match f with
  | S754_finite s' _ _ | S754_infinity s' => s' = s
  | _ => False
  end.

(** The value of a zero or finite float in units of [2 ^ emin]. *)
Definition SFval (prec emax : Z) (f : spec_float) : Z :=
  match f with
  | S754_finite s m e => cond_Zopp s (Zpos m * 2 ^ (e - SpecFloat.emin prec emax))
  | _ => 0
  end.

Definition SFfinite (f : spec_float) : bool :=
  match f with
  | S754_zero _ | S754_finite _ _ _ => true
  | _ => false
  end.

Local Close Scope Z_scope.

(** * Notions used in the further properties *)

(** [frame_edge] with a transparent alpha channel. *)
Definition black_clear_px : list Byte.byte := [Byte.x00; Byte.x00; Byte.x00; Byte.x00].
Definition white_clear_px : list Byte.byte := [Byte.xff; Byte.xff; Byte.xff; Byte.x00].

Definition frame_edge_clear : list Byte.byte :=
  concat (replicate 4 (black_clear_px ++ white_clear_px ++ white_clear_px
                       ++ white_clear_px)).

(** The candidates of brightness [c]. *)
Definition same_brightness (c : number) (p : BrightPoint) : bool :=
  (brightness p =? c)%float.

(** ** The driver *)

(** What a frame callback adds to the trace when it runs to its end:
    with a pass when the video has enough data, without one otherwise. *)
Definition frame_effects (passed : bool) : list effect :=
  if passed then [Pass; RequestFrame] else [RequestFrame].

(** The frame callback does not reach line 88 for this video: the video
    has enough data, and the canvas has no 2d context (the [return] of
    line 77), or the frame is empty ([getImageData] throws), or
    [findBrightPoints] throws. *)
Definition fails (v : video) : bool :=
  (readyState v =? HAVE_ENOUGH_DATA)
  && (negb (context v)
      || (videoWidth v =? 0) || (videoHeight v =? 0)
      || match findBrightPoints (data v) (videoWidth v) (videoHeight v) with
         | Ok _ => false
         | TypeError => true
         end).

(** The number of frame callbacks among some events. *)
Definition frames (es : list event) : nat :=
  length (List.filter (fun e => match e with Frame _ => true | _ => false end) es).

(** What the driver has done after at most [n] frame callbacks: it has
    requested the camera, and is waiting for it; or it has reported the
    failure; or it has played the video and run some frame callbacks to
    their end. *)
Definition reached (n : nat) (d : detector) : Prop :=
  (acquiring d = true /\ scheduled d = false /\ trace d = [GetUserMedia])
  \/ (acquiring d = false /\ scheduled d = false
      /\ trace d = [GetUserMedia; ConsoleError])
  \/ (acquiring d = false
      /\ exists ws, length ws <= n
                    /\ trace d = [GetUserMedia; Play; RequestFrame]
                                 ++ concat (map frame_effects ws)).

(** The z component stored for every point: 0 - projectionDistance, as a
    binary32 number. *)
Definition depth : number := fround (0 - projectionDistance)%float.

(** The first [m] particles of a buffer have been placed, the other ones
    are as [initParticleSystem] left them. *)
Definition placed (m : nat) (buffer : list number) : Prop :=
  forall i, i < maxBrightPoints ->
    buffer !! (3 * i + 2) = Some (if i <? m then depth else 0%float).

(** The image data of a video has the size of its frame, and the
    dimensions are exact as numbers. *)
Definition well_formed (v : video) : Prop :=
  length (data v) = 4 * (videoWidth v * videoHeight v)
  /\ (Z.of_nat (videoWidth v) < 2 ^ 53)%Z
  /\ (Z.of_nat (videoHeight v) < 2 ^ 53)%Z.

(** A white frame of width 2 and height 1, with enough data. *)
Definition video_2x1 : video := mkVideo HAVE_ENOUGH_DATA 2 1 true frame_2x1.

(** The frame whose column 0 is black, with enough data. *)
Definition video_edge : video := mkVideo HAVE_ENOUGH_DATA 4 4 true frame_edge.

(** Every frame among some events is well formed. *)
Definition frames_well_formed (es : list event) : Prop :=
  Forall (fun e => match e with Frame v => well_formed v | _ => True end) es.

(** A number between -1 and 1. *)
Definition in_unit (c : number) : Prop :=
  ((-1) <=? c)%float = true /\ (c <=? 1)%float = true.

(** ** Rounding errors *)

(** The value of a zero or finite float in units of [2 ^ u]. *)
Definition SFvalu (u : Z) (f : spec_float) : Z :=
  match f with
  | S754_finite s m e => cond_Zopp s (Zpos m * 2 ^ (e - u))
  | _ => 0%Z
  end.

(** The unit of the error analysis of the convolutions: [2 ^ unit_exp], an
    exponent below the exponent of every product of a number with a kernel
    entry; and the exponent of the bound [2 ^ err_exp] on one rounding
    error of the convolutions. *)
Definition unit_exp : Z := (-1200)%Z.
Definition err_exp : Z := (-30)%Z.

(** [f] is a number of magnitude at most [2 ^ k], at most [n] rounding
    errors away from the value [v] (in units of [2 ^ unit_exp]). *)
Definition approx (k n v : Z) (f : number) : Prop :=
  (exists s, bounded_by s k (Prim2SF f))
  /\ (Z.abs (SFvalu unit_exp (Prim2SF f) - v) <= n * 2 ^ (err_exp - unit_exp))%Z.

(** The eight neighbours of the pixel at column [x], row [y] have the same
    luma. *)
Definition flat_around (pixels : list Byte.byte) (width x y : nat) : Prop :=
  exists b : number,
    forall i j, i < 3 -> j < 3 -> (i, j) <> (1, 1) ->
      luma_at pixels width (x + j - 1) (y + i - 1) = b.

(** All the pixels of a buffer have the same luma. *)
Definition uniform_luma (pixels : list Byte.byte) : Prop :=
  forall k k', 4 * k < length pixels -> 4 * k' < length pixels ->
    luma pixels (4 * k) = luma pixels (4 * k').

(** A white frame of width 3 and height 3. *)
Definition frame_white_3x3 : list Byte.byte := concat (replicate 9 white_px).

(** A float is a finite number of sign [s] and magnitude at least
    [2 ^ j], or the infinity of sign [s]. *)
Definition at_least (s : bool) (j : Z) (f : spec_float) : Prop :=
  match f with
  | S754_finite s' m e => s' = s /\ (2 ^ (j - e) <= Zpos m)%Z
  | S754_infinity s' => s' = s
  | _ => False
  end.

(** The luma of the pixel at column [a], row [b] in units of
    [2 ^ unit_exp], and the two Sobel sums of the lumas around (x, y)
    computed on these integers, that is without any rounding. *)
Definition luma_units (pixels : list Byte.byte) (width a b : nat) : Z :=
  SFvalu unit_exp (Prim2SF (luma_at pixels width a b)).

Definition exact_gx (pixels : list Byte.byte) (width x y : nat) : Z :=
  let V := luma_units pixels width in
  let left := x - 1 in let right := x + 1 in
  let above := y - 1 in let below := y + 1 in
  (- V left above + V right above - 2 * V left y + 2 * V right y
   - V left below + V right below)%Z.

Definition exact_gy (pixels : list Byte.byte) (width x y : nat) : Z :=
  let V := luma_units pixels width in
  let left := x - 1 in let right := x + 1 in
  let above := y - 1 in let below := y + 1 in
  (- V left above - 2 * V x above - V right above
   + V left below + 2 * V x below + V right below)%Z.

(** The number 1 in units of [2 ^ unit_exp]. *)
Definition one_unit : Z := (2 ^ (0 - unit_exp))%Z.

(** * Binary floating-point arithmetic

    Facts about rounding, derived from the bit-level specification of the
    operations ([SpecFloat]): how far a rounded result can be from zero,
    when it is not zero, and how the order of floats relates to the order
    of their values. *)

Local Open Scope Z_scope.

(** ** Digits and right shifts *)

Lemma digits2_pos_size (m : positive) : digits2_pos m = Pos.size m.
Proof. induction m; cbn; congruence. Qed.

Lemma digits2_pos_bounds (m : positive) :
  2 ^ (Zpos (digits2_pos m) - 1) <= Zpos m < 2 ^ Zpos (digits2_pos m).
Proof.
  rewrite digits2_pos_size. split.
  - pose proof (Pos.size_le m) as H.
    apply Pos2Z.pos_le_pos in H. rewrite Pos2Z.inj_pow in H.
    change (Zpos m~0) with (2 * Zpos m) in H.
    replace (2 ^ Zpos (Pos.size m)) with (2 * 2 ^ (Zpos (Pos.size m) - 1)) in H.
    + lia.
    + rewrite <- Z.pow_succ_r by lia. f_equal. lia.
  - pose proof (Pos.size_gt m) as H.
    apply Pos2Z.pos_lt_pos in H. by rewrite Pos2Z.inj_pow in H.
Qed.

Lemma iter_pos_nat {A : Type} (f : A -> A) (p : positive) (x : A) :
  SpecFloat.iter_pos f p x = Nat.iter (Pos.to_nat p) f x.
Proof.
  revert x. induction p as [p IH|p IH|]; intros x; cbn [SpecFloat.iter_pos].
  - rewrite !IH, Pos2Nat.inj_xI. cbn [Nat.iter].
    rewrite <- Nat.iter_add. rewrite Nat.iter_succ_r. f_equal. lia.
  - rewrite !IH, Pos2Nat.inj_xO. rewrite <- Nat.iter_add. f_equal. lia.
  - done.
Qed.

Lemma pow2_double (j : Z) : 1 <= j -> 2 ^ j = 2 * 2 ^ (j - 1).
Proof. intros. rewrite <- Z.pow_succ_r by lia. f_equal. lia. Qed.

(** One right shift halves the upper bound and the lower bound of the
    value a shift record stands for. *)
Lemma shr_1_ub (mrs : shr_record) (j : Z) :
  0 <= shr_m mrs -> mrs_ub mrs <= 2 ^ j -> 1 <= j ->
  0 <= shr_m (shr_1 mrs) /\ mrs_ub (shr_1 mrs) <= 2 ^ (j - 1).
Proof.
  intros Hm Hub Hj. rewrite (pow2_double j Hj) in Hub.
  destruct mrs as [m r s]. unfold mrs_ub in *. cbn [shr_m shr_r shr_s] in *.
  destruct m as [|[p|p|]|p]; cbn [shr_1 shr_m shr_r shr_s]; try lia;
    destruct r, s; cbn [orb] in *; lia.
Qed.

Lemma shr_1_lb (mrs : shr_record) (i : Z) :
  2 ^ i <= shr_m mrs -> 1 <= i -> 2 ^ (i - 1) <= shr_m (shr_1 mrs).
Proof.
  intros Hlb Hi. rewrite (pow2_double i Hi) in Hlb.
  destruct mrs as [m r s]. cbn [shr_m] in *.
  assert (0 < 2 ^ (i - 1)) by (apply Z.pow_pos_nonneg; lia).
  destruct m as [|[p|p|]|p]; cbn [shr_1 shr_m]; lia.
Qed.

Lemma shr_iter_ub (n : nat) (mrs : shr_record) (j : Z) :
  0 <= shr_m mrs -> mrs_ub mrs <= 2 ^ j -> Z.of_nat n <= j ->
  0 <= shr_m (Nat.iter n shr_1 mrs)
  /\ mrs_ub (Nat.iter n shr_1 mrs) <= 2 ^ (j - Z.of_nat n).
Proof.
  induction n as [|n IH]; intros Hm Hub Hn; cbn [Nat.iter].
  - by rewrite Z.sub_0_r.
  - destruct IH as [Hm' Hub']; [done..|lia|].
    destruct (shr_1_ub _ (j - Z.of_nat n) Hm' Hub') as [? ?]; [lia|].
    split; [done|]. by replace (j - Z.of_nat (S n)) with (j - Z.of_nat n - 1) by lia.
Qed.

Lemma shr_iter_lb (n : nat) (mrs : shr_record) (i : Z) :
  2 ^ i <= shr_m mrs -> Z.of_nat n <= i ->
  2 ^ (i - Z.of_nat n) <= shr_m (Nat.iter n shr_1 mrs).
Proof.
  induction n as [|n IH]; intros Hlb Hn; cbn [Nat.iter].
  - by rewrite Z.sub_0_r.
  - replace (i - Z.of_nat (S n)) with (i - Z.of_nat n - 1) by lia.
    apply shr_1_lb; [apply IH|]; lia.
Qed.

Lemma Zdigits2_ub (m j : Z) : 0 <= m <= 2 ^ j -> 0 <= j -> Zdigits2 m <= j + 1.
Proof.
  intros [Hm Hub] Hj. destruct m as [|p|p]; cbn [Zdigits2]; [lia| |lia].
  pose proof (digits2_pos_bounds p) as [Hlo _].
  assert (2 ^ (Zpos (digits2_pos p) - 1) <= 2 ^ j) as Hpow by lia.
  apply Z.pow_le_mono_r_iff in Hpow; lia.
Qed.

Lemma Zdigits2_lb (m : Z) : 0 < m -> 2 ^ (Zdigits2 m - 1) <= m /\ 1 <= Zdigits2 m.
Proof.
  intros Hm. destruct m as [|p|p]; cbn [Zdigits2]; [lia| |lia].
  pose proof (digits2_pos_bounds p). lia.
Qed.

Lemma shr_zero (n : nat) (s : bool) :
  Nat.iter n shr_1 (Build_shr_record 0 false s) = Build_shr_record 0 false s.
Proof. induction n as [|n IH]; [done|]. by rewrite Nat.iter_succ, IH. Qed.

Lemma shr_spec (mrs : shr_record) (e n : Z) :
  shr mrs e n = (Nat.iter (Z.to_nat n) shr_1 mrs, e + Z.max n 0).
Proof.
  destruct n as [|p|p]; cbn [shr Z.to_nat Nat.iter].
  - by rewrite Z.add_0_r.
  - rewrite iter_pos_nat. f_equal; lia.
  - by rewrite Z.add_0_r.
Qed.

Lemma mrs_ub_of_loc (m : Z) (l : location) :
  mrs_ub (shr_record_of_loc m l) = m + loc_ub l
  /\ shr_m (shr_record_of_loc m l) = m.
Proof. by destruct l as [|[]]. Qed.

(** ** Rounding *)

Section Format.
Variables prec emax : Z.
Hypothesis Hprec : 1 <= prec.
Hypothesis Hemax : prec < emax.

(** Shifting to the exponent of the format keeps a bound [2 ^ k] on the
    value, and keeps a positive mantissa positive. *)
Lemma shr_fexp_ub (m e : Z) (l : location) (k : Z) :
  0 <= m -> m + loc_ub l <= 2 ^ (k - e) -> SpecFloat.emin prec emax <= k ->
  0 <= shr_m (fst (shr_fexp prec emax m e l))
  /\ mrs_ub (fst (shr_fexp prec emax m e l))
     <= 2 ^ (k - snd (shr_fexp prec emax m e l))
  /\ snd (shr_fexp prec emax m e l)
     <= Z.max e (Z.max (k + 1 - prec) (SpecFloat.emin prec emax)).
Proof.
  intros Hm Hub Hk. unfold shr_fexp. rewrite shr_spec. cbn [fst snd].
  destruct (mrs_ub_of_loc m l) as [Hub0 Hm0].
  set (n := fexp prec emax (Zdigits2 m + e) - e).
  destruct (Z.le_gt_cases 0 (k - e)) as [Hke|Hke].
  - assert (Hd : Zdigits2 m <= k - e + 1)
      by (apply Zdigits2_ub; [destruct l|]; cbn [loc_ub] in *; lia).
    assert (Hn : n <= k - e) by (unfold n, fexp; lia).
    destruct (shr_iter_ub (Z.to_nat n) (shr_record_of_loc m l) (k - e))
      as [Hm1 Hub1]; [lia..|].
    split; [done|]. split; [|unfold n, fexp in *; lia].
    by replace (k - (e + Z.max n 0)) with (k - e - Z.of_nat (Z.to_nat n)) by lia.
  - rewrite Z.pow_neg_r in Hub by lia.
    assert (m = 0) as -> by (destruct l; cbn [loc_ub] in *; lia).
    assert (l = loc_Exact) as -> by (destruct l; [done | cbn [loc_ub] in *; lia]).
    cbn [shr_record_of_loc]. rewrite shr_zero. cbn [shr_m mrs_ub shr_r shr_s orb].
    split; [done|]. split; [apply Z.pow_nonneg; lia|].
    unfold n, fexp. cbn [Zdigits2]. lia.
Qed.

Lemma shr_fexp_pos (m e : Z) (l : location) :
  0 < m -> SpecFloat.emin prec emax <= e ->
  0 < shr_m (fst (shr_fexp prec emax m e l))
  /\ SpecFloat.emin prec emax <= snd (shr_fexp prec emax m e l).
Proof.
  intros Hm He. unfold shr_fexp. rewrite shr_spec. cbn [fst snd].
  destruct (mrs_ub_of_loc m l) as [_ Hm0].
  destruct (Zdigits2_lb m Hm) as [Hlb Hd].
  set (n := fexp prec emax (Zdigits2 m + e) - e).
  assert (Hn : n <= Zdigits2 m - 1) by (clear Hlb; unfold n, fexp; lia).
  split; [|lia].
  destruct (Z.le_gt_cases n 0).
  - replace (Z.to_nat n) with 0%nat by lia.
    change (0 < shr_m (shr_record_of_loc m l)). by rewrite Hm0.
  - eapply Z.lt_le_trans;
      [|apply (shr_iter_lb (Z.to_nat n) _ (Zdigits2 m - 1)); [by rewrite Hm0 | lia]].
    apply Z.pow_pos_nonneg; lia.
Qed.

Lemma round_nearest_even_bounds (mrs : shr_record) :
  shr_m mrs <= round_nearest_even (shr_m mrs) (loc_of_shr_record mrs) <= mrs_ub mrs.
Proof.
  destruct mrs as [m [] []]; unfold mrs_ub;
    cbn [round_nearest_even loc_of_shr_record shr_m shr_r shr_s orb];
    try destruct (Z.even m); lia.
Qed.

(** A value of magnitude at most [2 ^ k] rounds to a float of magnitude
    at most [2 ^ k], and a non-zero value of exponent at least [emin] does
    not round to zero. *)
Lemma binary_round_aux_ub (s : bool) (m e : Z) (l : location) (k : Z) :
  0 <= m -> m + loc_ub l <= 2 ^ (k - e) ->
  SpecFloat.emin prec emax <= k -> k + 1 <= emax -> e <= emax - prec ->
  bounded_by s k (binary_round_aux prec emax s m e l).
Proof.
  intros Hm Hub Hk Hk' He. unfold binary_round_aux.
  destruct (shr_fexp_ub m e l k Hm Hub Hk) as (Hm1 & Hub1 & He1).
  destruct (shr_fexp prec emax m e l) as [mrs1 e1]. cbn [fst snd] in *.
  pose proof (round_nearest_even_bounds mrs1) as Hr.
  set (m2 := round_nearest_even (shr_m mrs1) (loc_of_shr_record mrs1)) in *.
  destruct (shr_fexp_ub m2 e1 loc_Exact k) as (Hm3 & Hub3 & He3);
    [lia | cbn [loc_ub]; lia | done |].
  destruct (shr_fexp prec emax m2 e1 loc_Exact) as [mrs3 e3]. cbn [fst snd] in *.
  assert (shr_m mrs3 <= mrs_ub mrs3) by (unfold mrs_ub; destruct (_ || _); lia).
  unfold SpecFloat.emin in *.
  destruct (shr_m mrs3) as [|p|p]; [done| |lia].
  rewrite (proj2 (Z.leb_le _ _)) by lia. cbn [bounded_by]. split; [done|lia].
Qed.

Lemma binary_round_aux_nonzero (s : bool) (m e : Z) (l : location) :
  0 < m -> SpecFloat.emin prec emax <= e ->
  nonzero_of_sign s (binary_round_aux prec emax s m e l).
Proof.
  intros Hm He. unfold binary_round_aux.
  destruct (shr_fexp_pos m e l Hm He) as [Hm1 He1].
  destruct (shr_fexp prec emax m e l) as [mrs1 e1]. cbn [fst snd] in *.
  pose proof (round_nearest_even_bounds mrs1) as Hr.
  set (m2 := round_nearest_even (shr_m mrs1) (loc_of_shr_record mrs1)) in *.
  destruct (shr_fexp_pos m2 e1 loc_Exact) as [Hm3 He3]; [lia | done |].
  destruct (shr_fexp prec emax m2 e1 loc_Exact) as [mrs3 e3]. cbn [fst snd] in *.
  destruct (shr_m mrs3) as [|p|p]; [lia| |lia].
  by destruct (e3 <=? emax - prec).
Qed.

(** ** Alignment *)

Lemma iter_xO_mul (m d : positive) : Zpos (Pos.iter xO m d) = Zpos m * 2 ^ Zpos d.
Proof.
  induction d as [|d IH] using Pos.peano_ind.
  - cbn [Pos.iter]. lia.
  - rewrite Pos.iter_succ, Pos2Z.inj_succ, Z.pow_succ_r by lia.
    rewrite Pos2Z.inj_xO, IH. lia.
Qed.

Lemma iter_xO_digits (m d : positive) :
  Zpos (digits2_pos (Pos.iter xO m d)) = Zpos (digits2_pos m) + Zpos d.
Proof.
  induction d as [|d IH] using Pos.peano_ind.
  - cbn [Pos.iter digits2_pos]. lia.
  - rewrite Pos.iter_succ. cbn [digits2_pos].
    rewrite Pos2Z.inj_succ, IH. lia.
Qed.

Lemma shl_align_spec (m : positive) (e e' : Z) :
  snd (shl_align m e e') = Z.min e e'
  /\ Zpos (fst (shl_align m e e')) = Zpos m * 2 ^ (e - Z.min e e')
  /\ Zpos (digits2_pos (fst (shl_align m e e'))) + Z.min e e'
     = Zpos (digits2_pos m) + e.
Proof.
  unfold shl_align. destruct (e' - e) as [|d|d] eqn:Hd; cbn [fst snd].
  - replace (Z.min e e') with e by lia. rewrite Z.sub_diag. cbn. lia.
  - replace (Z.min e e') with e by lia. rewrite Z.sub_diag. cbn. lia.
  - replace (Z.min e e') with e' by lia.
    rewrite iter_xO_mul, iter_xO_digits.
    replace (e - e') with (Zpos d) by lia. lia.
Qed.

Lemma binary_round_ub (s : bool) (m : positive) (e k : Z) :
  Zpos m <= 2 ^ (k - e) ->
  SpecFloat.emin prec emax <= k -> k + 1 <= emax -> e <= emax - prec ->
  bounded_by s k (binary_round prec emax s m e).
Proof.
  intros Hub Hk Hk' He. unfold binary_round.
  destruct (shl_align_spec m e (fexp prec emax (Zpos (digits2_pos m) + e)))
    as (Hez & Hmz & _).
  destruct (shl_align m e _) as [mz ez]. cbn [fst snd] in *.
  assert (0 <= k - e).
  { destruct (Z.le_gt_cases 0 (k - e)); [done|].
    rewrite Z.pow_neg_r in Hub by lia. lia. }
  apply binary_round_aux_ub; try lia.
  cbn [loc_ub]. rewrite Z.add_0_r, Hmz, Hez.
  replace (k - Z.min e (fexp prec emax (Zpos (digits2_pos m) + e)))
    with ((k - e) + (e - Z.min e (fexp prec emax (Zpos (digits2_pos m) + e))))
    by lia.
  rewrite Z.pow_add_r by lia.
  apply Z.mul_le_mono_nonneg_r; [apply Z.pow_nonneg; lia | done].
Qed.

Lemma binary_round_nonzero (s : bool) (m : positive) (e : Z) :
  SpecFloat.emin prec emax <= e ->
  nonzero_of_sign s (binary_round prec emax s m e).
Proof.
  intros He. unfold binary_round.
  destruct (shl_align_spec m e (fexp prec emax (Zpos (digits2_pos m) + e)))
    as (Hez & _ & _).
  destruct (shl_align m e _) as [mz ez]. cbn [fst snd] in *.
  apply binary_round_aux_nonzero; [lia|].
  rewrite Hez. unfold fexp. lia.
Qed.

(** A canonical mantissa is not changed by rounding. *)
Lemma binary_round_aux_canonical (s : bool) (m : positive) (e : Z) :
  fexp prec emax (Zpos (digits2_pos m) + e) = e -> e <= emax - prec ->
  binary_round_aux prec emax s (Zpos m) e loc_Exact = S754_finite s m e.
Proof.
  intros Hcan He. unfold binary_round_aux, shr_fexp. cbn [Zdigits2].
  rewrite Hcan, Z.sub_diag. cbn [shr shr_record_of_loc shr_m loc_of_shr_record
                                 round_nearest_even Zdigits2].
  rewrite Hcan, Z.sub_diag. cbn [shr shr_record_of_loc shr_m].
  by rewrite (proj2 (Z.leb_le _ _)) by lia.
Qed.

Lemma binary_round_exact (s : bool) (m : positive) (e : Z) :
  Zpos (digits2_pos m) <= prec -> SpecFloat.emin prec emax <= e ->
  e <= emax - prec ->
  exists mz ez,
    binary_round prec emax s m e = S754_finite s mz ez
    /\ SpecFloat.emin prec emax <= ez <= e
    /\ Zpos mz = Zpos m * 2 ^ (e - ez)
    /\ fexp prec emax (Zpos (digits2_pos mz) + ez) = ez.
Proof.
  intros Hd He He'. unfold binary_round.
  destruct (shl_align_spec m e (fexp prec emax (Zpos (digits2_pos m) + e)))
    as (Hez & Hmz & Hdz).
  destruct (shl_align m e _) as [mz ez]. cbn [fst snd] in *.
  assert (Hf : fexp prec emax (Zpos (digits2_pos m) + e) <= e)
    by (unfold fexp; lia).
  assert (Hez' : ez = fexp prec emax (Zpos (digits2_pos m) + e)) by lia.
  assert (Hcan : fexp prec emax (Zpos (digits2_pos mz) + ez) = ez).
  { rewrite <- Hez in Hdz. by rewrite Hdz. }
  exists mz, ez. split; [apply binary_round_aux_canonical; [done|lia]|].
  split; [unfold fexp in *; lia|]. split; [|done].
  by rewrite Hmz, <- Hez.
Qed.

(** ** Order and values *)

Lemma valid_finite (s : bool) (m : positive) (e : Z) :
  SpecFloat.valid_binary prec emax (S754_finite s m e) = true ->
  Zpos (digits2_pos m) <= prec
  /\ SpecFloat.emin prec emax <= e <= emax - prec
  /\ (SpecFloat.emin prec emax < e -> Zpos (digits2_pos m) = prec).
Proof.
  cbn [SpecFloat.valid_binary]. unfold bounded, canonical_mantissa, fexp.
  intros [Hcan Hle]%andb_true_iff.
  apply Z.eqb_eq in Hcan. apply Z.leb_le in Hle. lia.
Qed.

Lemma canonical_lt (m1 m2 : positive) (e1 e2 : Z) :
  Zpos (digits2_pos m1) <= prec -> Zpos (digits2_pos m2) = prec ->
  SpecFloat.emin prec emax <= e1 -> e1 < e2 ->
  Zpos m1 * 2 ^ (e1 - SpecFloat.emin prec emax)
  < Zpos m2 * 2 ^ (e2 - SpecFloat.emin prec emax).
Proof.
  intros Hd1 Hd2 He1 He.
  pose proof (digits2_pos_bounds m1) as [_ Hm1].
  pose proof (digits2_pos_bounds m2) as [Hm2 _].
  rewrite Hd2 in Hm2.
  assert (Zpos m1 < 2 ^ prec).
  { eapply Z.lt_le_trans; [exact Hm1|]. apply Z.pow_le_mono_r; lia. }
  replace (e2 - SpecFloat.emin prec emax)
    with ((e2 - e1 - 1) + 1 + (e1 - SpecFloat.emin prec emax)) by lia.
  rewrite !Z.pow_add_r by lia.
  rewrite (pow2_double prec) in * by lia.
  assert (0 < 2 ^ (e1 - SpecFloat.emin prec emax)) by (apply Z.pow_pos_nonneg; lia).
  assert (1 <= 2 ^ (e2 - e1 - 1)) by (apply (Z.pow_le_mono_r 2 0); lia).
  change (2 ^ 1) with 2. clear Hm1.
  generalize dependent (2 ^ (e1 - SpecFloat.emin prec emax)).
  generalize dependent (2 ^ (e2 - e1 - 1)).
  generalize dependent (2 ^ (prec - 1)).
  intros A ? ? Q ? P ?.
  assert (Z.pos m1 * P < 2 * A * P) by (apply Z.mul_lt_mono_pos_r; lia).
  assert (A * 1 <= Z.pos m2 * Q) by (apply Z.mul_le_mono_nonneg; lia).
  assert (2 * A * P <= Z.pos m2 * Q * 2 * P).
  { replace (Z.pos m2 * Q * 2 * P) with (2 * (Z.pos m2 * Q) * P) by ring.
    apply Z.mul_le_mono_nonneg_r; lia. }
  replace (Z.pos m2 * (Q * 2 * P)) with (Z.pos m2 * Q * 2 * P) by ring.
  lia.
Qed.

(** The comparison of two zero or finite floats is the comparison of their
    values. *)
Lemma SFcompare_val (x y : spec_float) :
  SpecFloat.valid_binary prec emax x = true ->
  SpecFloat.valid_binary prec emax y = true ->
  SFfinite x = true -> SFfinite y = true ->
  SFcompare x y = Some (SFval prec emax x ?= SFval prec emax y).
Proof.
  intros Hvx Hvy Hfx Hfy.
  destruct x as [sx|sx| |sx mx ex]; try done;
    destruct y as [sy|sy| |sy my ey]; try done; cbn [SFcompare SFval].
  - f_equal. destruct sy; cbn [cond_Zopp]; symmetry.
    + apply Z.compare_gt_iff.
      assert (0 < 2 ^ (ey - SpecFloat.emin prec emax)) by
        (apply Z.pow_pos_nonneg; [lia | apply valid_finite in Hvy; lia]). lia.
    + apply Z.compare_lt_iff.
      assert (0 < 2 ^ (ey - SpecFloat.emin prec emax)) by
        (apply Z.pow_pos_nonneg; [lia | apply valid_finite in Hvy; lia]). lia.
  - f_equal. destruct sx; cbn [cond_Zopp]; symmetry.
    + apply Z.compare_lt_iff.
      assert (0 < 2 ^ (ex - SpecFloat.emin prec emax)) by
        (apply Z.pow_pos_nonneg; [lia | apply valid_finite in Hvx; lia]). lia.
    + apply Z.compare_gt_iff.
      assert (0 < 2 ^ (ex - SpecFloat.emin prec emax)) by
        (apply Z.pow_pos_nonneg; [lia | apply valid_finite in Hvx; lia]). lia.
  - apply valid_finite in Hvx as (Hdx & Hex & Hnx).
    apply valid_finite in Hvy as (Hdy & Hey & Hny).
    assert (Hpx : 0 < 2 ^ (ex - SpecFloat.emin prec emax)) by (apply Z.pow_pos_nonneg; lia).
    assert (Hpy : 0 < 2 ^ (ey - SpecFloat.emin prec emax)) by (apply Z.pow_pos_nonneg; lia).
    assert (Hlt : ex < ey ->
                  Zpos mx * 2 ^ (ex - SpecFloat.emin prec emax)
                  < Zpos my * 2 ^ (ey - SpecFloat.emin prec emax))
      by (intros; apply canonical_lt; lia).
    assert (Hgt : ey < ex ->
                  Zpos my * 2 ^ (ey - SpecFloat.emin prec emax)
                  < Zpos mx * 2 ^ (ex - SpecFloat.emin prec emax))
      by (intros; apply canonical_lt; lia).
    assert (Heq : ex = ey ->
                  (Zpos mx * 2 ^ (ex - SpecFloat.emin prec emax)
                   ?= Zpos my * 2 ^ (ey - SpecFloat.emin prec emax))
                  = (mx ?= my)%positive).
    { intros ->. destruct (Pos.compare_spec mx my) as [->|Hm|Hm].
      - apply Z.compare_refl.
      - apply Z.compare_lt_iff, Z.mul_lt_mono_pos_r; [done | lia].
      - apply Z.compare_gt_iff, Z.mul_lt_mono_pos_r; [done | lia]. }
    f_equal. change (Pos.compare_cont Eq mx my) with (mx ?= my)%positive.
    destruct sx, sy; cbn [cond_Zopp]; symmetry.
    + destruct (Z.compare_spec ex ey) as [He|He|He].
      * rewrite Z.compare_opp, <- Heq by done. by rewrite Z.compare_antisym.
      * apply Z.compare_gt_iff. specialize (Hlt He). lia.
      * apply Z.compare_lt_iff. specialize (Hgt He). lia.
    + apply Z.compare_lt_iff. lia.
    + apply Z.compare_gt_iff. lia.
    + destruct (Z.compare_spec ex ey) as [He|He|He].
      * by apply Heq.
      * apply Z.compare_lt_iff. auto.
      * apply Z.compare_gt_iff. auto.
Qed.

(** ** The sign of a difference *)

Lemma SFval_aligned (s : bool) (m : positive) (e ez : Z) :
  SpecFloat.emin prec emax <= ez -> ez <= e ->
  SFval prec emax (S754_finite s m e)
  = cond_Zopp s (Zpos m * 2 ^ (e - ez)) * 2 ^ (ez - SpecFloat.emin prec emax).
Proof.
  intros Hez He. cbn [SFval].
  replace (e - SpecFloat.emin prec emax)
    with ((e - ez) + (ez - SpecFloat.emin prec emax)) by lia.
  rewrite Z.pow_add_r by lia. destruct s; cbn [cond_Zopp]; ring.
Qed.

(** [y - x] is above zero exactly when the value of [x] is below the value
    of [y]: the difference of two floats does not round to zero. *)
Lemma SFsub_sign (x y : spec_float) :
  SpecFloat.valid_binary prec emax x = true ->
  SpecFloat.valid_binary prec emax y = true ->
  SFfinite x = true -> SFfinite y = true ->
  SFltb (S754_zero false) (SFsub prec emax y x)
  = (SFval prec emax x <? SFval prec emax y).
Proof.
  intros Hvx Hvy Hfx Hfy.
  destruct x as [sx|sx| |sx mx ex]; try done;
    destruct y as [sy|sy| |sy my ey]; try done.
  - by destruct sx, sy.
  - cbn [SFsub]. apply valid_finite in Hvy as (_ & Hey & _).
    assert (0 < 2 ^ (ey - SpecFloat.emin prec emax)) by (apply Z.pow_pos_nonneg; lia).
    unfold SFltb. cbn [SFcompare SFval].
    destruct sy; cbn [cond_Zopp]; symmetry;
      [apply Z.ltb_ge | apply Z.ltb_lt]; lia.
  - cbn [SFsub]. apply valid_finite in Hvx as (_ & Hex & _).
    assert (0 < 2 ^ (ex - SpecFloat.emin prec emax)) by (apply Z.pow_pos_nonneg; lia).
    unfold SFltb. cbn [SFcompare SFval negb].
    destruct sx; cbn [cond_Zopp negb]; symmetry;
      [apply Z.ltb_lt | apply Z.ltb_ge]; lia.
  - apply valid_finite in Hvx as (_ & Hex & _).
    apply valid_finite in Hvy as (_ & Hey & _).
    cbn [SFsub].
    destruct (shl_align_spec my ey (Z.min ey ex)) as (_ & Hy & _).
    destruct (shl_align_spec mx ex (Z.min ey ex)) as (_ & Hx & _).
    rewrite Hy, Hx.
    replace (Z.min ey (Z.min ey ex)) with (Z.min ey ex) by lia.
    replace (Z.min ex (Z.min ey ex)) with (Z.min ey ex) by lia.
    rewrite (SFval_aligned sx mx ex (Z.min ey ex)) by lia.
    rewrite (SFval_aligned sy my ey (Z.min ey ex)) by lia.
    assert (Hp : 0 < 2 ^ (Z.min ey ex - SpecFloat.emin prec emax))
      by (apply Z.pow_pos_nonneg; lia).
    set (vy := cond_Zopp sy (Z.pos my * 2 ^ (ey - Z.min ey ex))).
    set (vx := cond_Zopp sx (Z.pos mx * 2 ^ (ex - Z.min ey ex))).
    assert (Hcmp : (vx * 2 ^ (Z.min ey ex - SpecFloat.emin prec emax)
                    <? vy * 2 ^ (Z.min ey ex - SpecFloat.emin prec emax))
                   = (0 <? vy - vx)).
    { destruct (Z.ltb_spec 0 (vy - vx)).
      - apply Z.ltb_lt, Z.mul_lt_mono_pos_r; lia.
      - apply Z.ltb_ge, Z.mul_le_mono_nonneg_r; lia. }
    rewrite Hcmp. unfold binary_normalize.
    destruct (vy - vx) as [|p|p] eqn:Hm.
    + done.
    + pose proof (binary_round_nonzero false p (Z.min ey ex)) as Hnz.
      destruct (binary_round prec emax false p (Z.min ey ex)) as [| | |s' m' e'];
        cbn [nonzero_of_sign] in Hnz; try (exfalso; apply Hnz; lia).
      * rewrite Hnz by lia. done.
      * rewrite Hnz by lia. done.
    + pose proof (binary_round_nonzero true p (Z.min ey ex)) as Hnz.
      destruct (binary_round prec emax true p (Z.min ey ex)) as [| | |s' m' e'];
        cbn [nonzero_of_sign] in Hnz; try (exfalso; apply Hnz; lia).
      * rewrite Hnz by lia. done.
      * rewrite Hnz by lia. done.
Qed.

(** ** Bounds on quotients, products, sums and differences *)

Lemma bounded_by_exp (s : bool) (k : Z) (m : positive) (e : Z) :
  bounded_by s k (S754_finite s m e) -> e <= k.
Proof.
  intros [_ Hub]. destruct (Z.le_gt_cases e k); [done|].
  rewrite Z.pow_neg_r in Hub by lia. lia.
Qed.

(** The quotient of two floats, the first of smaller magnitude, has
    magnitude at most 1. *)
Lemma SFdiv_ub (sx sy : bool) (mx my : positive) (ex ey : Z) :
  SpecFloat.emin prec emax <= ex -> SpecFloat.emin prec emax <= ey ->
  ey <= emax - prec ->
  Zpos mx * 2 ^ (ex - SpecFloat.emin prec emax)
  < Zpos my * 2 ^ (ey - SpecFloat.emin prec emax) ->
  bounded_by (xorb sx sy) 0
    (SFdiv prec emax (S754_finite sx mx ex) (S754_finite sy my ey)).
Proof.
  intros Hex Hey Hey' Hlt. cbn [SFdiv]. unfold SFdiv_core_binary. cbn [Zdigits2].
  pose proof (digits2_pos_bounds mx) as [Hdx _].
  pose proof (digits2_pos_bounds my) as [_ Hdy].
  set (d1 := Zpos (digits2_pos mx)) in *. set (d2 := Zpos (digits2_pos my)) in *.
  assert (Hd1 : 1 <= d1) by (unfold d1; lia).
  assert (Hd : d1 + ex <= d2 + ey).
  { assert (Hpow : 2 ^ (d1 - 1 + (ex - SpecFloat.emin prec emax))
                   < 2 ^ (d2 + (ey - SpecFloat.emin prec emax))).
    { rewrite !Z.pow_add_r by lia.
      eapply Z.le_lt_trans; [|eapply Z.lt_le_trans; [exact Hlt|]].
      - apply Z.mul_le_mono_nonneg_r; [apply Z.pow_nonneg; lia | done].
      - apply Z.mul_le_mono_nonneg_r; [apply Z.pow_nonneg; lia | lia]. }
    apply Z.pow_lt_mono_r_iff in Hpow; lia. }
  set (e' := Z.min (fexp prec emax (d1 + ex - (d2 + ey))) (ex - ey)).
  assert (He' : e' <= 0 /\ e' <= ex - ey).
  { clear Hdx Hdy Hlt. unfold e', fexp, SpecFloat.emin in *. lia. }
  set (t := - e').
  assert (Hm' : match ex - ey - e' with
                | Z0 => Zpos mx
                | Zpos _ => Z.shiftl (Zpos mx) (ex - ey - e')
                | Zneg _ => 0
                end = Zpos mx * 2 ^ (ex - ey + t)).
  { replace (ex - ey + t) with (ex - ey - e') by (unfold t; lia).
    destruct (ex - ey - e') as [|p|p] eqn:Hs.
    - cbn. lia.
    - by rewrite Z.shiftl_mul_pow2.
    - lia. }
  rewrite Hm'.
  pose proof (Z_div_mod (Zpos mx * 2 ^ (ex - ey + t)) (Zpos my)) as Hdiv.
  destruct (Z.div_eucl (Zpos mx * 2 ^ (ex - ey + t)) (Zpos my)) as [q r].
  destruct Hdiv as [Hq Hr]; [lia|].
  assert (Hpt : 0 < 2 ^ t) by (apply Z.pow_pos_nonneg; unfold t; lia).
  assert (Hps : 0 < 2 ^ (ex - ey + t)) by (apply Z.pow_pos_nonneg; unfold t; lia).
  assert (Hpy : 0 < 2 ^ (ey - SpecFloat.emin prec emax)) by (apply Z.pow_pos_nonneg; lia).
  assert (Hnum : Zpos mx * 2 ^ (ex - ey + t) < Zpos my * 2 ^ t).
  { apply (Z.mul_lt_mono_pos_r (2 ^ (ey - SpecFloat.emin prec emax))); [done|].
    rewrite <- !Z.mul_assoc, <- !Z.pow_add_r by (unfold t; lia).
    replace (ex - ey + t + (ey - SpecFloat.emin prec emax))
      with ((ex - SpecFloat.emin prec emax) + t) by lia.
    replace (t + (ey - SpecFloat.emin prec emax))
      with ((ey - SpecFloat.emin prec emax) + t) by lia.
    rewrite !Z.pow_add_r, !Z.mul_assoc by (unfold t; lia).
    apply Z.mul_lt_mono_pos_r; done. }
  assert (Hq0 : 0 <= q).
  { destruct (Z.le_gt_cases 0 q); [done|]. exfalso.
    assert (Zpos my * q <= Zpos my * (-1)) by (apply Z.mul_le_mono_nonneg_l; lia).
    lia. }
  assert (Hq1 : q < 2 ^ t).
  { apply (Z.mul_lt_mono_pos_l (Zpos my)); [done|]. lia. }
  apply binary_round_aux_ub; try done.
  - assert (loc_ub (new_location (Zpos my) r) <= 1)
      by (destruct (new_location _ _); cbn; lia).
    replace (0 - e') with t by (unfold t; lia). lia.
  - unfold SpecFloat.emin. lia.
  - lia.
  - lia.
Qed.

Lemma binary_normalize_ub (M e k : Z) (sz : bool) :
  Z.abs M <= 2 ^ (k - e) ->
  SpecFloat.emin prec emax <= k -> k + 1 <= emax -> e <= emax - prec ->
  exists s, bounded_by s k (binary_normalize prec emax M e sz).
Proof.
  intros Hub Hk Hk' He. destruct M as [|p|p]; cbn [binary_normalize].
  - by exists sz.
  - exists false. apply binary_round_ub; try done; lia.
  - exists true. apply binary_round_ub; try done; lia.
Qed.

(** Adding or subtracting a unit [2 ^ k]: a number between 0 and
    [2 ^ (k + 1)] minus the unit, or a number between [- 2 ^ (k + 1)] and 0
    plus the unit, has magnitude at most [2 ^ k]. *)
Lemma unit_difference_ub (sx : bool) (mx mo : positive) (ex eo k : Z) :
  Zpos mx <= 2 ^ (k + 1 - ex) -> Zpos mo = 2 ^ (k - eo) -> eo <= k ->
  let ez := Z.min ex eo in
  Z.abs (cond_Zopp sx (Zpos (fst (shl_align mx ex ez)))
         + cond_Zopp (negb sx) (Zpos (fst (shl_align mo eo ez))))
  <= 2 ^ (k - ez).
Proof.
  intros Hmx Hmo Heo ez.
  assert (Hex : ex <= k + 1).
  { destruct (Z.le_gt_cases ex (k + 1)); [done|].
    rewrite Z.pow_neg_r in Hmx by lia. lia. }
  destruct (shl_align_spec mx ex ez) as (_ & -> & _).
  destruct (shl_align_spec mo eo ez) as (_ & -> & _).
  replace (Z.min ex ez) with ez by (unfold ez; lia).
  replace (Z.min eo ez) with ez by (unfold ez; lia).
  assert (Ha : Zpos mx * 2 ^ (ex - ez) <= 2 * 2 ^ (k - ez)).
  { replace (2 * 2 ^ (k - ez)) with (2 ^ (k + 1 - ex) * 2 ^ (ex - ez)).
    - apply Z.mul_le_mono_nonneg_r; [apply Z.pow_nonneg; lia | done].
    - rewrite <- Z.pow_add_r by (unfold ez; lia).
      rewrite <- Z.pow_succ_r by (unfold ez; lia). f_equal. lia. }
  assert (Hb : Zpos mo * 2 ^ (eo - ez) = 2 ^ (k - ez)).
  { rewrite Hmo, <- Z.pow_add_r by (unfold ez; lia). f_equal. lia. }
  assert (0 < Zpos mx * 2 ^ (ex - ez))
    by (apply Z.mul_pos_pos; [lia | apply Z.pow_pos_nonneg; unfold ez; lia]).
  rewrite Hb. destruct sx; cbn [cond_Zopp negb]; lia.
Qed.

Lemma SFsub_unit_ub (x : spec_float) (mo : positive) (eo k : Z) :
  bounded_by false (k + 1) x ->
  Zpos mo = 2 ^ (k - eo) -> eo <= k ->
  SpecFloat.emin prec emax <= k -> k + 1 <= emax -> eo <= emax - prec ->
  exists s, bounded_by s k (SFsub prec emax x (S754_finite false mo eo)).
Proof.
  intros Hx Hmo Heo Hk Hk' Heo'.
  destruct x as [sx|sx| |sx mx ex]; try done; cbn [SFsub].
  - exists true. cbn [bounded_by negb]. split; [done | lia].
  - destruct Hx as [-> Hmx].
    apply binary_normalize_ub; try done; [|lia].
    pose proof (unit_difference_ub false mx mo ex eo k Hmx Hmo Heo) as Hub.
    cbn [cond_Zopp negb] in Hub. cbn [cond_Zopp]. cbn zeta in Hub.
    by rewrite Z.add_opp_r in Hub.
Qed.

Lemma SFadd_unit_ub (x : spec_float) (mo : positive) (eo k : Z) :
  bounded_by true (k + 1) x ->
  Zpos mo = 2 ^ (k - eo) -> eo <= k ->
  SpecFloat.emin prec emax <= k -> k + 1 <= emax -> eo <= emax - prec ->
  exists s, bounded_by s k (SFadd prec emax x (S754_finite false mo eo)).
Proof.
  intros Hx Hmo Heo Hk Hk' Heo'.
  destruct x as [sx|sx| |sx mx ex]; try done; cbn [SFadd].
  - exists false. cbn [bounded_by]. split; [done | lia].
  - destruct Hx as [-> Hmx].
    apply binary_normalize_ub; try done; [|lia].
    apply (unit_difference_ub true mx mo ex eo k Hmx Hmo Heo).
Qed.

Lemma bounded_by_val (s : bool) (k : Z) (f : spec_float) :
  SpecFloat.valid_binary prec emax f = true ->
  bounded_by s k f -> SpecFloat.emin prec emax <= k ->
  Z.abs (SFval prec emax f) <= 2 ^ (k - SpecFloat.emin prec emax).
Proof.
  intros Hv Hb Hk. destruct f as [s'|s'| |s' m e]; try done; cbn [SFval].
  - cbn. apply Z.pow_nonneg. lia.
  - destruct Hb as [-> Hub]. pose proof (bounded_by_exp s k m e (conj eq_refl Hub)).
    apply valid_finite in Hv as (_ & He & _); [|done..].
    replace (k - SpecFloat.emin prec emax)
      with ((k - e) + (e - SpecFloat.emin prec emax)) by lia.
    rewrite Z.pow_add_r by lia.
    assert (0 <= 2 ^ (e - SpecFloat.emin prec emax)) by (apply Z.pow_nonneg; lia).
    assert (Zpos m * 2 ^ (e - SpecFloat.emin prec emax)
            <= 2 ^ (k - e) * 2 ^ (e - SpecFloat.emin prec emax))
      by (apply Z.mul_le_mono_nonneg_r; done).
    destruct s; cbn [cond_Zopp]; lia.
Qed.

(** ** Opposites *)

Lemma binary_round_aux_opp (s : bool) (m e : Z) (l : location) :
  SFopp (binary_round_aux prec emax s m e l)
  = binary_round_aux prec emax (negb s) m e l.
Proof.
  unfold binary_round_aux.
  destruct (shr_fexp prec emax m e l) as [mrs1 e1].
  destruct (shr_fexp prec emax _ e1 loc_Exact) as [mrs2 e2].
  destruct (shr_m mrs2); [done| |done].
  by destruct (e2 <=? emax - prec).
Qed.

Lemma SFdiv_opp_l (x y : spec_float) :
  SFdiv prec emax (SFopp x) y = SFopp (SFdiv prec emax x y).
Proof.
  destruct x as [sx|sx| |sx mx ex], y as [sy|sy| |sy my ey];
    cbn [SFdiv SFopp]; try done; try (by rewrite negb_xorb_l).
  destruct (SFdiv_core_binary prec emax (Zpos mx) ex (Zpos my) ey) as [[mz ez] lz].
  by rewrite binary_round_aux_opp, negb_xorb_l.
Qed.

Lemma bounded_by_mono (s : bool) (k k' : Z) (f : spec_float) :
  bounded_by s k f -> k <= k' -> bounded_by s k' f.
Proof.
  intros Hb Hk. destruct f as [s'|s'| |s' m e]; try done.
  pose proof Hb as [-> Hub]. pose proof (bounded_by_exp _ _ _ _ Hb).
  split; [done|]. etrans; [exact Hub|]. apply Z.pow_le_mono_r; lia.
Qed.

Lemma SFmul_ub (s1 s2 : bool) (k1 k2 : Z) (x y : spec_float) :
  bounded_by s1 k1 x -> bounded_by s2 k2 y ->
  SpecFloat.emin prec emax <= k1 + k2 -> k1 + k2 <= emax - prec ->
  bounded_by (xorb s1 s2) (k1 + k2) (SFmul prec emax x y).
Proof.
  intros Hx Hy Hk Hk'.
  destruct x as [sx|sx| |sx mx ex]; try done;
    destruct y as [sy|sy| |sy my ey]; try done; cbn [SFmul].
  - cbn [bounded_by] in *. by subst.
  - destruct Hy as [-> _]. cbn [bounded_by] in *. by subst.
  - destruct Hx as [-> _]. cbn [bounded_by] in *. by subst.
  - destruct Hx as [-> Hx], Hy as [-> Hy].
    pose proof (bounded_by_exp s1 k1 mx ex (conj eq_refl Hx)).
    pose proof (bounded_by_exp s2 k2 my ey (conj eq_refl Hy)).
    apply binary_round_aux_ub; try done; try lia.
    cbn [loc_ub]. rewrite Z.add_0_r, Pos2Z.inj_mul.
    replace (k1 + k2 - (ex + ey)) with ((k1 - ex) + (k2 - ey)) by lia.
    rewrite Z.pow_add_r by lia.
    apply Z.mul_le_mono_nonneg; lia.
Qed.

Lemma SFadd_nonneg_ub (k : Z) (x y : spec_float) :
  bounded_by false k x -> bounded_by false k y ->
  SpecFloat.emin prec emax <= k + 1 -> k + 2 <= emax -> k <= emax - prec ->
  bounded_by false (k + 1) (SFadd prec emax x y).
Proof.
  intros Hx Hy Hk Hk' Hk''.
  assert (Hx' := bounded_by_mono false k (k + 1) x Hx).
  assert (Hy' := bounded_by_mono false k (k + 1) y Hy).
  destruct x as [sx|sx| |sx mx ex]; try done;
    destruct y as [sy|sy| |sy my ey]; try done; cbn [SFadd];
    try (apply Hx'; lia); try (apply Hy'; lia).
  - cbn [bounded_by] in *. subst. done.
  - destruct Hx as [-> Hx], Hy as [-> Hy]. cbn [cond_Zopp].
    pose proof (bounded_by_exp false k mx ex (conj eq_refl Hx)).
    pose proof (bounded_by_exp false k my ey (conj eq_refl Hy)).
    destruct (shl_align_spec mx ex (Z.min ex ey)) as (_ & Hax & _).
    destruct (shl_align_spec my ey (Z.min ex ey)) as (_ & Hay & _).
    replace (Z.min ex (Z.min ex ey)) with (Z.min ex ey) in Hax by lia.
    replace (Z.min ey (Z.min ex ey)) with (Z.min ex ey) in Hay by lia.
    set (ez := Z.min ex ey) in *.
    assert (Hbx : Zpos (fst (shl_align mx ex ez)) <= 2 ^ (k - ez)).
    { rewrite Hax. replace (k - ez) with ((k - ex) + (ex - ez)) by lia.
      rewrite Z.pow_add_r by (unfold ez; lia).
      apply Z.mul_le_mono_nonneg_r; [apply Z.pow_nonneg; lia | done]. }
    assert (Hby : Zpos (fst (shl_align my ey ez)) <= 2 ^ (k - ez)).
    { rewrite Hay. replace (k - ez) with ((k - ey) + (ey - ez)) by lia.
      rewrite Z.pow_add_r by (unfold ez; lia).
      apply Z.mul_le_mono_nonneg_r; [apply Z.pow_nonneg; lia | done]. }
    cbn [Z.add binary_normalize].
    apply binary_round_ub; try done; try (unfold ez; lia).
    rewrite Pos2Z.inj_add.
    replace (k + 1 - ez) with (Z.succ (k - ez)) by lia.
    rewrite Z.pow_succ_r by (unfold ez; lia). lia.
Qed.

End Format.

(** ** Binary64 *)

(** [is_finite] and the order of finite numbers. *)
Lemma is_finite_spec (x : float) : is_finite x = SFfinite (Prim2SF x).
Proof.
  unfold is_finite, is_nan, is_infinity.
  rewrite !FloatAxioms.eqb_spec, FloatAxioms.abs_spec.
  change (Prim2SF infinity) with (S754_infinity false).
  destruct (Prim2SF x) as [s|s| |s m e];
    [by destruct s | by destruct s | done |].
  unfold SFeqb.
  destruct s; cbn [SFabs SFcompare SFfinite]; rewrite Z.compare_refl;
    change (Pos.compare_cont Eq m m) with (m ?= m)%positive;
    by rewrite Pos.compare_refl.
Qed.

Lemma ltb_val (x y : float) :
  is_finite x = true -> is_finite y = true ->
  (x <? y)%float = (SFval prec emax (Prim2SF x) <? SFval prec emax (Prim2SF y)).
Proof.
  intros Hx Hy. rewrite is_finite_spec in Hx, Hy.
  rewrite FloatAxioms.ltb_spec. unfold SFltb.
  rewrite (SFcompare_val prec emax) by (done || apply Prim2SF_valid).
  unfold Z.ltb. by destruct (_ ?= _).
Qed.

Lemma leb_val (x y : float) :
  is_finite x = true -> is_finite y = true ->
  (x <=? y)%float = (SFval prec emax (Prim2SF x) <=? SFval prec emax (Prim2SF y)).
Proof.
  intros Hx Hy. rewrite is_finite_spec in Hx, Hy.
  rewrite FloatAxioms.leb_spec. unfold SFleb.
  rewrite (SFcompare_val prec emax) by (done || apply Prim2SF_valid).
  unfold Z.leb. by destruct (_ ?= _).
Qed.

(** The sign of the comparison function of the sort. *)
Lemma sub_pos_ltb (x y : float) :
  is_finite x = true -> is_finite y = true ->
  (0 <? y - x)%float = (x <? y)%float.
Proof.
  intros Hx Hy. rewrite (ltb_val x y) by done.
  rewrite is_finite_spec in Hx, Hy.
  rewrite FloatAxioms.ltb_spec, FloatAxioms.sub_spec.
  change (Prim2SF 0) with (S754_zero false).
  apply SFsub_sign; (done || apply Prim2SF_valid).
Qed.

Lemma prec_ge_1 : 1 <= prec.
Proof. done. Qed.

Lemma prec_lt_emax : prec < emax.
Proof. done. Qed.

(** An integer below 2^53 is a number of that value. *)
Lemma of_int_spec (z : Z) :
  0 <= z < 2 ^ 53 ->
  (z = 0 /\ Prim2SF (of_uint63 (Uint63.of_Z z)) = S754_zero false)
  \/ (exists m e,
        Prim2SF (of_uint63 (Uint63.of_Z z)) = S754_finite false m e
        /\ emin <= e <= 0
        /\ Zpos m * 2 ^ (e - emin) = z * 2 ^ (0 - emin)).
Proof.
  intros Hz. rewrite of_uint63_spec, Uint63.of_Z_spec.
  rewrite Z.mod_small
    by (split; [lia | eapply Z.lt_trans; [apply Hz | done]]).
  destruct z as [|p|p]; [by left | right | lia].
  cbn [binary_normalize].
  destruct (binary_round_exact prec emax false p 0)
    as (mz & ez & -> & Hez & Hmz & _); [|done|done|].
  { pose proof (digits2_pos_bounds p) as [Hlo _].
    assert (Hpow : 2 ^ (Zpos (digits2_pos p) - 1) < 2 ^ 53) by lia.
    apply Z.pow_lt_mono_r_iff in Hpow; [|done..]. clear - Hpow. unfold prec. lia. }
  exists mz, ez. split; [done|]. split; [done|].
  rewrite Hmz, <- Z.mul_assoc, <- Z.pow_add_r by lia.
  do 2 f_equal. lia.
Qed.

Lemma of_nat_spec (n : nat) :
  Z.of_nat n < 2 ^ 53 ->
  (n = 0%nat /\ Prim2SF (of_nat n) = S754_zero false)
  \/ (exists m e,
        Prim2SF (of_nat n) = S754_finite false m e
        /\ emin <= e <= 0
        /\ Zpos m * 2 ^ (e - emin) = Z.of_nat n * 2 ^ (0 - emin)).
Proof.
  intros Hn. unfold of_nat.
  destruct (of_int_spec (Z.of_nat n)) as [[Hz ->]|H]; [lia | left | by right].
  split; [lia | done].
Qed.

(** [n / w] and [- n / w] for integers [n < w]. *)
Lemma quotient_ub (s : bool) (n w : nat) :
  (n < w)%nat -> Z.of_nat w < 2 ^ 53 ->
  bounded_by s 0
    (SF64div (if s then SFopp (Prim2SF (of_nat n)) else Prim2SF (of_nat n))
             (Prim2SF (of_nat w))).
Proof.
  intros Hnw Hw.
  destruct (of_nat_spec w Hw) as [[-> _]|(mw & ew & -> & Hew & Hvw)]; [lia|].
  destruct (of_nat_spec n) as [[_ ->]|(mn & en & -> & Hen & Hvn)]; [lia| |].
  - destruct s; cbn [SFopp]; unfold SF64div; cbn [SFdiv bounded_by xorb]; done.
  - replace (if s then SFopp (S754_finite false mn en) else S754_finite false mn en)
      with (S754_finite s mn en) by (by destruct s).
    rewrite <- (xorb_false_r s) at 1.
    apply (SFdiv_ub prec emax prec_ge_1 prec_lt_emax);
      [lia | lia | clear - Hew; unfold emax, prec in *; lia |].
    rewrite Hvn, Hvw. apply Z.mul_lt_mono_pos_r; [by apply Z.pow_pos_nonneg | lia].
Qed.

Lemma twice_ub (s : bool) (q : spec_float) :
  bounded_by s 0 q -> bounded_by s 1 (SF64mul q (Prim2SF 2%float)).
Proof.
  intros Hq. unfold SF64mul. rewrite <- (xorb_false_r s) at 1.
  apply (SFmul_ub prec emax prec_ge_1 prec_lt_emax s false 0 1);
    [done | split; [done | by vm_compute] | done | done].
Qed.

Lemma within_unit (f : float) :
  (exists s, bounded_by s 0 (Prim2SF f)) ->
  ((-1) <=? f)%float = true /\ (f <=? 1)%float = true.
Proof.
  intros [s Hb].
  assert (Hfin : is_finite f = true).
  { rewrite is_finite_spec. by destruct (Prim2SF f). }
  pose proof (bounded_by_val prec emax s 0 (Prim2SF f)
                (Prim2SF_valid f) Hb) as Hval.
  rewrite !leb_val by done.
  assert (H1 : SFval prec emax (Prim2SF 1%float) = 2 ^ (0 - emin))
    by (vm_compute; reflexivity).
  assert (H2 : SFval prec emax (Prim2SF (-1)%float) = - 2 ^ (0 - emin))
    by (vm_compute; reflexivity).
  rewrite H1, H2.
  assert (Hemin : emin <= 0) by done.
  specialize (Hval Hemin). lia.
Qed.

(** For a pixel of a frame both normalized coordinates lie in [-1, 1]. *)
Lemma normalized_within_unit (x y width height : nat) :
  (x < width)%nat -> (y < height)%nat ->
  Z.of_nat width < 2 ^ 53 -> Z.of_nat height < 2 ^ 53 ->
  let v := convertToWorldPosition (of_nat x) (of_nat y) (of_nat width) (of_nat height) in
  (((-1) <=? vx v)%float = true /\ (vx v <=? 1)%float = true)
  /\ (((-1) <=? vy v)%float = true /\ (vy v <=? 1)%float = true).
Proof.
  intros Hx Hy Hw Hh. cbn [convertToWorldPosition vx vy]. split; apply within_unit.
  - rewrite sub_spec, mul_spec, div_spec.
    change (Prim2SF 1%float) with (S754_finite false 4503599627370496 (-52)).
    apply (SFsub_unit_ub prec emax prec_ge_1 prec_lt_emax); try done.
    apply twice_ub. apply (quotient_ub false); done.
  - rewrite add_spec, mul_spec, div_spec, opp_spec.
    change (Prim2SF 1%float) with (S754_finite false 4503599627370496 (-52)).
    apply (SFadd_unit_ub prec emax prec_ge_1 prec_lt_emax); try done.
    apply twice_ub. apply (quotient_ub true); done.
Qed.

(** [- y / h] is [- (y / h)]. *)
Lemma opp_div (y h : float) : (- y / h)%float = (- (y / h))%float.
Proof.
  apply Prim2SF_inj. rewrite div_spec, !opp_spec, div_spec.
  apply SFdiv_opp_l.
Qed.

(** The luma of three bytes. *)
Lemma of_byte_ub (b : Byte.byte) : bounded_by false 8 (Prim2SF (of_byte b)).
Proof.
  unfold of_byte. pose proof (Byte.to_N_bounded b) as Hb.
  set (z := Z.of_N (Byte.to_N b)).
  assert (Hz : 0 <= z <= 255) by (unfold z; lia).
  destruct (of_int_spec z) as [[_ ->]|(m & e & -> & He & Hv)]; [lia|done|].
  split; [done|].
  assert (Hp : 0 < 2 ^ (e - emin)) by (apply Z.pow_pos_nonneg; lia).
  apply (Z.mul_le_mono_pos_r _ _ (2 ^ (e - emin))); [done|].
  rewrite Hv, <- Z.pow_add_r by lia.
  replace (8 - e + (e - emin)) with (8 + (0 - emin)) by lia.
  rewrite Z.pow_add_r by (try done; lia).
  apply Z.mul_le_mono_nonneg_r; [apply Z.pow_nonneg; lia|].
  change (2 ^ 8) with 256. lia.
Qed.

Lemma SFfinite_of_bounded (s : bool) (k : Z) (f : spec_float) :
  bounded_by s k f -> SFfinite f = true.
Proof. by destruct f. Qed.

Lemma weighted_byte_ub (c : float) (b : Byte.byte) :
  bounded_by false 0 (Prim2SF c) ->
  bounded_by false 8 (Prim2SF (c * of_byte b)%float).
Proof.
  intros Hc. rewrite mul_spec.
  apply (SFmul_ub prec emax prec_ge_1 prec_lt_emax false false 0 8);
    [done | apply of_byte_ub | done | done].
Qed.

Lemma luma_finite (pixels : list Byte.byte) (i : nat) (b0 b1 b2 : Byte.byte) :
  pixels !! i = Some b0 -> pixels !! (i + 1)%nat = Some b1 ->
  pixels !! (i + 2)%nat = Some b2 ->
  is_finite (luma pixels i) = true.
Proof.
  intros H0 H1 H2. unfold luma, pixel. rewrite H0, H1, H2.
  rewrite is_finite_spec, !add_spec.
  apply (SFfinite_of_bounded false 10).
  apply (SFadd_nonneg_ub prec emax prec_ge_1 prec_lt_emax 9); try done.
  - apply (SFadd_nonneg_ub prec emax prec_ge_1 prec_lt_emax 8); try done;
      apply weighted_byte_ub; (split; [done | by vm_compute]).
  - apply (bounded_by_mono false 8); [|done].
    apply weighted_byte_ub. split; [done | by vm_compute].
Qed.

Lemma add_nan_l (x : float) : (nan + x)%float = nan.
Proof.
  apply Prim2SF_inj. rewrite add_spec. change (Prim2SF nan) with S754_nan. done.
Qed.

Lemma add_nan_r (x : float) : (x + nan)%float = nan.
Proof.
  apply Prim2SF_inj. rewrite add_spec. change (Prim2SF nan) with S754_nan.
  by destruct (Prim2SF x).
Qed.

Lemma mul_nan_r (x : float) : (x * nan)%float = nan.
Proof.
  apply Prim2SF_inj. rewrite mul_spec. change (Prim2SF nan) with S754_nan.
  by destruct (Prim2SF x).
Qed.

Lemma gt_nan (t : float) : gt nan t = false.
Proof.
  unfold gt. rewrite FloatAxioms.ltb_spec. change (Prim2SF nan) with S754_nan.
  unfold SFltb. by destruct (Prim2SF t).
Qed.

(** A luma above a threshold is a finite number: the three channels were
    read inside the buffer. *)
Lemma bright_finite (pixels : list Byte.byte) (i : nat) (t : float) :
  gt (luma pixels i) t = true -> is_finite (luma pixels i) = true.
Proof.
  intros Hgt.
  destruct (pixels !! i) as [b0|] eqn:H0;
    [destruct (pixels !! (i + 1)%nat) as [b1|] eqn:H1;
     [destruct (pixels !! (i + 2)%nat) as [b2|] eqn:H2|]|].
  - by apply (luma_finite pixels i b0 b1 b2).
  - exfalso. revert Hgt. unfold luma, pixel. rewrite H2.
    by rewrite mul_nan_r, add_nan_r, gt_nan.
  - exfalso. revert Hgt. unfold luma, pixel. rewrite H1.
    by rewrite mul_nan_r, add_nan_r, add_nan_l, gt_nan.
  - exfalso. revert Hgt. unfold luma, pixel. rewrite H0.
    by rewrite mul_nan_r, !add_nan_l, gt_nan.
Qed.

Local Close Scope Z_scope.

(** * The EdgeMap Builder *)

Lemma lookup_fill (f : nat -> number) (xs : list nat) (r0 : row) (x : nat) :
  fill f r0 xs !! x = if decide (x ∈ xs) then Some (f x) else r0 !! x.
Proof.
  unfold fill. revert r0.
  induction xs as [|x0 xs IH] using rev_ind; intros r0.
  - case_decide; [set_solver | done].
  - rewrite foldl_app. cbn [foldl].
    destruct (decide (x = x0)) as [->|Hne].
    + rewrite lookup_insert_eq. clear IH. case_decide; [done | set_solver].
    + rewrite lookup_insert_ne by done. rewrite IH. clear IH.
      do 2 case_decide; rewrite ?elem_of_app, ?list_elem_of_singleton in *;
        (done || (exfalso; tauto)).
Qed.

Lemma set_cell_ok (g : grid) (y x : nat) (v : number) (r0 : row) :
  g !! y = Some r0 -> set_cell g y x v = Ok (<[y := <[x := v]> r0]> g).
Proof. intros Hy. unfold set_cell. by rewrite Hy. Qed.

Lemma for_each_set_cell (f : nat -> number) (y : nat) (xs : list nat)
    (g : grid) (r0 : row) :
  g !! y = Some r0 ->
  for_each (fun g x => set_cell g y x (f x)) g xs = Ok (<[y := fill f r0 xs]> g).
Proof.
  revert g r0. induction xs as [|x xs IH]; intros g r0 Hy; cbn [for_each].
  - by rewrite insert_id.
  - rewrite (set_cell_ok g y x (f x) r0 Hy). cbn [mbind result_bind].
    rewrite (IH _ (<[x := f x]> r0)) by apply lookup_insert_eq.
    by rewrite insert_insert_eq.
Qed.

Lemma init_rows (width : nat) (ys : list nat) (g : grid) :
  exists g',
    for_each (fun g y => for_each (fun g x => set_cell g y x 0%float)
                                  (<[y := (∅ : row)]> g) (seq 0 width)) g ys
    = Ok g'
    /\ forall y, g' !! y = if decide (y ∈ ys) then Some (zero_row width) else g !! y.
Proof.
  revert g. induction ys as [|y0 ys IH]; intros g; cbn [for_each].
  - exists g. split; [done|]. intros y. case_decide; [set_solver | done].
  - rewrite (for_each_set_cell (fun _ => 0%float) y0 _ _ ∅)
      by apply lookup_insert_eq.
    cbn [mbind result_bind]. rewrite insert_insert_eq.
    change (fill (fun _ => 0%float) ∅ (seq 0 width)) with (zero_row width).
    destruct (IH (<[y0 := zero_row width]> g)) as (g' & -> & Hg').
    exists g'. split; [done|]. intros y. rewrite Hg'.
    destruct (decide (y = y0)) as [->|Hne].
    + rewrite lookup_insert_eq. repeat case_decide; set_solver.
    + rewrite lookup_insert_ne by done.
      do 2 case_decide; rewrite ?elem_of_cons in *; (done || (exfalso; tauto)).
Qed.

Lemma init_gradients_ok (width height : nat) :
  exists g0,
    init_gradients width height = Ok g0
    /\ forall y, g0 !! y = if decide (y < height) then Some (zero_row width) else None.
Proof.
  destruct (init_rows width (seq 0 height) ∅) as (g0 & H & Hg0).
  exists g0. split; [exact H|]. intros y. rewrite Hg0.
  repeat case_decide; rewrite ?elem_of_seq in *; try done; lia.
Qed.

Lemma sobel_rows (f : nat -> nat -> number) (xs ys : list nat) (g : grid)
    (rows : nat -> row) :
  NoDup ys ->
  (forall y, y ∈ ys -> g !! y = Some (rows y)) ->
  exists g',
    for_each (fun g y => for_each (fun g x => set_cell g y x (f x y)) g xs) g ys
    = Ok g'
    /\ forall y, g' !! y = if decide (y ∈ ys)
                           then Some (fill (fun x => f x y) (rows y) xs)
                           else g !! y.
Proof.
  revert g. induction ys as [|y0 ys IH]; intros g Hnd Hrows; cbn [for_each].
  - exists g. split; [done|]. intros y. case_decide; [set_solver | done].
  - apply NoDup_cons in Hnd as [Hy0 Hnd].
    rewrite (for_each_set_cell (fun x => f x y0) y0 xs g (rows y0))
      by (apply Hrows; set_solver).
    cbn [mbind result_bind].
    destruct (IH (<[y0 := fill (fun x => f x y0) (rows y0) xs]> g) Hnd)
      as (g' & -> & Hg').
    { intros y Hy. rewrite lookup_insert_ne by set_solver.
      apply Hrows. set_solver. }
    exists g'. split; [done|]. intros y. rewrite Hg'.
    destruct (decide (y = y0)) as [->|Hne].
    + rewrite lookup_insert_eq. repeat case_decide; set_solver.
    + rewrite lookup_insert_ne by done.
      do 2 case_decide; rewrite ?elem_of_cons in *; (done || (exfalso; tauto)).
Qed.

Lemma sobel_sums_spec (pixels : list Byte.byte) (width x y : nat) :
  1 <= x -> 1 <= y ->
  sobel_sums pixels width x y
  = (convolve_gx pixels width x y, convolve_gy pixels width x y).
Proof.
  intros Hx Hy.
  unfold sobel_sums, convolve_gx, convolve_gy, luma_at.
  cbn [seq foldl]. unfold sobel_step. cbn [fst snd].
  replace (y + 0 - 1) with (y - 1) by lia.
  replace (y + 1 - 1) with y by lia.
  replace (y + 2 - 1) with (y + 1) by lia.
  replace (x + 0 - 1) with (x - 1) by lia.
  replace (x + 1 - 1) with x by lia.
  replace (x + 2 - 1) with (x + 1) by lia.
  reflexivity.
Qed.

(** The table has a row for each [y < height] and no other row. *)
Lemma applySobelFilter_rows (pixels : list Byte.byte) (width height : nat) :
  exists edges : grid,
    applySobelFilter pixels width height = Ok edges
    /\ forall y, is_Some (edges !! y) <-> y < height.
Proof.
  unfold applySobelFilter.
  destruct (init_gradients_ok width height) as (g0 & -> & Hg0).
  cbn [mbind result_bind].
  destruct (sobel_rows (fun x y => magnitude (sobel_sums pixels width x y))
              (seq 1 (width - 2)) (seq 1 (height - 2)) g0
              (fun _ => zero_row width)) as (edges & -> & Hedges).
  { apply NoDup_seq. }
  { intros y Hy. apply elem_of_seq in Hy. rewrite Hg0.
    case_decide; [done | lia]. }
  exists edges. split; [done|]. intros y. rewrite Hedges, Hg0.
  repeat case_decide; rewrite ?elem_of_seq in *;
    split; intros H'; try done; try lia; try (by destruct H').
Qed.

(** C4: for every frame the EdgeMap Builder returns a table with exactly
    [height] rows of exactly [width] entries each; the entry of column [x]
    in row [y] is 0 on the border and, for an interior pixel,
    sqrt(sumX * sumX + sumY * sumY) where sumX and sumY are the
    convolutions of the lumas of the 3 by 3 neighbourhood with gx and gy. *)
Theorem applySobelFilter_spec (pixels : list Byte.byte) (width height : nat) :
  exists edges : grid,
    applySobelFilter pixels width height = Ok edges
    /\ (forall y, height <= y -> edges !! y = None)
    /\ (forall y, y < height ->
          exists r : row,
            edges !! y = Some r
            /\ (forall x, width <= x -> r !! x = None)
            /\ (forall x, x < width ->
                  r !! x =
                  Some (if interior width height x y
                        then PrimFloat.sqrt
                               (convolve_gx pixels width x y * convolve_gx pixels width x y
                                + convolve_gy pixels width x y * convolve_gy pixels width x y)
                        else 0%float))).
Proof.
  unfold applySobelFilter.
  destruct (init_gradients_ok width height) as (g0 & -> & Hg0).
  cbn [mbind result_bind].
  destruct (sobel_rows (fun x y => magnitude (sobel_sums pixels width x y))
              (seq 1 (width - 2)) (seq 1 (height - 2)) g0
              (fun _ => zero_row width)) as (edges & -> & Hedges).
  { apply NoDup_seq. }
  { intros y Hy. apply elem_of_seq in Hy. rewrite Hg0.
    case_decide; [done | lia]. }
  exists edges. split; [done|]. split.
  - intros y Hy. rewrite Hedges, Hg0.
    repeat case_decide; rewrite ?elem_of_seq in *; try done; lia.
  - intros y Hy.
    assert (Hzero : forall x, zero_row width !! x
                              = if decide (x < width) then Some 0%float else None).
    { intros x. unfold zero_row. rewrite lookup_fill, lookup_empty.
      repeat case_decide; rewrite ?elem_of_seq in *; try done; lia. }
    destruct (decide (y ∈ seq 1 (height - 2))) as [Hin|Hout].
    + eexists. split; [rewrite Hedges; by rewrite decide_True|].
      apply elem_of_seq in Hin.
      split; intros x Hx; rewrite lookup_fill, Hzero.
      * repeat case_decide; rewrite ?elem_of_seq in *; try done; lia.
      * unfold interior.
        destruct (decide (x ∈ seq 1 (width - 2))) as [Hxin|Hxout];
          rewrite elem_of_seq in *.
        -- rewrite sobel_sums_spec by lia. unfold magnitude. cbn [fst snd].
           replace (1 <=? x) with true by (symmetry; apply Nat.leb_le; lia).
           replace (x <? width - 1) with true by (symmetry; apply Nat.ltb_lt; lia).
           replace (1 <=? y) with true by (symmetry; apply Nat.leb_le; lia).
           replace (y <? height - 1) with true by (symmetry; apply Nat.ltb_lt; lia).
           done.
        -- rewrite decide_True by done.
           destruct (1 <=? x) eqn:E1; [|done].
           destruct (x <? width - 1) eqn:E2; [|done].
           apply Nat.leb_le in E1. apply Nat.ltb_lt in E2. lia.
    + exists (zero_row width). split.
      { rewrite Hedges, decide_False by done. rewrite Hg0. by rewrite decide_True. }
      rewrite elem_of_seq in Hout.
      split; intros x Hx; rewrite Hzero.
      * rewrite decide_False; [done | lia].
      * rewrite decide_True by done. unfold interior.
        destruct (1 <=? y) eqn:E1; [|by rewrite andb_false_r].
        destruct (y <? height - 1) eqn:E2; [|by rewrite andb_false_r].
        apply Nat.leb_le in E1. apply Nat.ltb_lt in E2. lia.
Qed.

(** * The Bright-Point Extractor *)

Lemma scan_pixel_cases (pixels : list Byte.byte) (width : nat) (edges : grid)
    (acc : list BrightPoint) (k : nat) :
  scan_pixel pixels width edges acc k
  = if throws pixels width edges k then TypeError
    else Ok (if emits pixels width edges k
             then acc ++ [candidate pixels width k] else acc).
Proof.
  unfold scan_pixel, throws, emits, candidate, pixel_coords.
  destruct (gt (luma pixels (4 * k)) brightnessThreshold); [|done].
  cbn [andb]. destruct (width =? 0); [done|].
  destruct (read_edge edges (k mod width) (k / width)) as [edge|]; [|done].
  cbn [mbind result_bind]. by destruct (gt edge edgeThreshold).
Qed.

Lemma scan_spec (pixels : list Byte.byte) (width : nat) (edges : grid)
    (ks : list nat) (acc : list BrightPoint) :
  for_each (scan_pixel pixels width edges) acc ks
  = if existsb (throws pixels width edges) ks then TypeError
    else Ok (acc ++ map (candidate pixels width)
                        (List.filter (emits pixels width edges) ks)).
Proof.
  revert acc.
  induction ks as [|k ks IH]; intros acc; cbn [for_each existsb List.filter map].
  - by rewrite app_nil_r.
  - rewrite scan_pixel_cases.
    destruct (throws pixels width edges k); [done|]. cbn [orb mbind result_bind].
    rewrite IH. destruct (existsb _ ks); [done|].
    destruct (emits pixels width edges k); [|done].
    cbn [map]. by rewrite <- app_assoc.
Qed.

(** What [findBrightPoints] computes: it throws when some scanned pixel is
    bright and [edges[x]] is missing for its column [x]; otherwise the
    result is the list of the candidates of the emitting scan positions,
    in scan order. *)
Lemma findBrightPoints_eq (pixels : list Byte.byte) (width height : nat) :
  exists edges : grid,
    applySobelFilter pixels width height = Ok edges
    /\ findBrightPoints pixels width height
       = if existsb (throws pixels width edges) (scan_indices pixels)
         then TypeError
         else Ok (map (candidate pixels width)
                      (List.filter (emits pixels width edges)
                                   (scan_indices pixels))).
Proof.
  destruct (applySobelFilter_rows pixels width height) as (edges & Hedges & _).
  exists edges. split; [done|].
  unfold findBrightPoints. rewrite Hedges. cbn [mbind result_bind].
  by rewrite scan_spec.
Qed.

(** The edge value that decides for the pixel at column [x = k mod width],
    row [y = k / width] is the one stored for the pixel at column [y],
    row [x]. *)
Lemma emits_transposed (pixels : list Byte.byte) (width height : nat)
    (edges : grid) (k : nat) :
  applySobelFilter pixels width height = Ok edges ->
  emits pixels width edges k
  = gt (luma pixels (4 * k)) brightnessThreshold
    && negb (width =? 0)
    && match edge_map_at pixels width height (k / width) (k mod width) with
       | Some v => gt v edgeThreshold
       | None => false
       end.
Proof.
  intros Hedges. unfold emits, edge_map_at, pixel_coords, read_edge.
  rewrite Hedges.
  destruct (gt (luma pixels (4 * k)) brightnessThreshold); [|done]. cbn [andb].
  destruct (width =? 0); [done|]. cbn [negb andb].
  destruct (edges !! (k mod width)) as [r|]; [|done]. cbn [mbind option_bind].
  destruct (r !! (k / width)); [done|]. apply gt_nan.
Qed.

Lemma emits_pixel_index (pixels : list Byte.byte) (width : nat) (edges : grid)
    (k : nat) :
  emits pixels width edges k = true ->
  pixel_index width (candidate pixels width k) = k.
Proof.
  unfold emits, pixel_coords, pixel_index, candidate. cbn [bp_x bp_y].
  intros [_ Hk]%andb_true_iff.
  destruct (Nat.eqb_spec width 0) as [|Hw]; [done|].
  pose proof (Nat.div_mod_eq k width). lia.
Qed.

Lemma filter_seq_sorted (f : nat -> bool) (n a : nat) :
  StronglySorted lt (List.filter f (seq a n))
  /\ Forall (fun k => a <= k) (List.filter f (seq a n)).
Proof.
  revert a. induction n as [|n IH]; intros a; cbn [seq List.filter].
  - split; constructor.
  - destruct (IH (S a)) as [Hs Hge].
    assert (Hge' : Forall (fun k => a <= k) (List.filter f (seq (S a) n)))
      by (eapply Forall_impl; [exact Hge | cbn beta; lia]).
    destruct (f a); [|done]. split.
    + constructor; [done|]. eapply Forall_impl; [exact Hge | cbn beta; lia].
    + by constructor.
Qed.

Lemma StronglySorted_lookup_lt {A : Type} (R : relation A) (l : list A)
    (i j : nat) (x y : A) :
  StronglySorted R l -> l !! i = Some x -> l !! j = Some y -> i < j -> R x y.
Proof.
  intros Hs Hx Hy Hij.
  rewrite <- (take_drop j l) in Hs.
  eapply StronglySorted_app_1_elem_of; [exact Hs| |].
  - apply list_elem_of_lookup. exists i. by rewrite lookup_take_lt.
  - apply list_elem_of_lookup. exists 0. by rewrite lookup_drop, Nat.add_0_r.
Qed.

(** C10: the candidate list is in row-major scan order: of two emitted
    points, the earlier one has the strictly smaller pixel index
    y * width + x. *)
Theorem findBrightPoints_scan_order (pixels : list Byte.byte)
    (width height : nat) (l : list BrightPoint) (i j : nat) (p q : BrightPoint) :
  findBrightPoints pixels width height = Ok l ->
  l !! i = Some p -> l !! j = Some q -> i < j ->
  bp_y p * width + bp_x p < bp_y q * width + bp_x q.
Proof.
  destruct (findBrightPoints_eq pixels width height) as (edges & _ & ->).
  destruct (existsb _ _); [done|]. intros [= <-] Hp Hq Hij.
  set (ks := List.filter (emits pixels width edges) (scan_indices pixels)) in *.
  assert (Hidx : map (pixel_index width) (map (candidate pixels width) ks) = ks).
  { rewrite map_map. rewrite <- (map_id ks) at 2. apply map_ext_in.
    intros k Hk. apply filter_In in Hk as [_ Hk].
    by apply (emits_pixel_index pixels width edges). }
  destruct (filter_seq_sorted (emits pixels width edges)
              ((length pixels + 3) / 4) 0) as [Hsorted _].
  fold (scan_indices pixels) in Hsorted. fold ks in Hsorted.
  rewrite <- Hidx in Hsorted.
  apply (StronglySorted_lookup_lt lt _ i j (pixel_index width p)
           (pixel_index width q) Hsorted); [| |done].
  - by rewrite list_lookup_fmap, Hp.
  - by rewrite list_lookup_fmap, Hq.
Qed.

Lemma findBrightPoints_scan_order_witness :
  findBrightPoints frame_edge 4 4
  = Ok [ mkBrightPoint 1 1 255%float (mkColor 1%float 1%float 1%float);
         mkBrightPoint 2 1 255%float (mkColor 1%float 1%float 1%float) ]
  /\ 1 * 4 + 1 < 1 * 4 + 2.
Proof.
  split; [vm_compute; reflexivity|].
  apply (findBrightPoints_scan_order frame_edge 4 4
           [ mkBrightPoint 1 1 255%float (mkColor 1%float 1%float 1%float);
             mkBrightPoint 2 1 255%float (mkColor 1%float 1%float 1%float) ]
           0 1
           (mkBrightPoint 1 1 255%float (mkColor 1%float 1%float 1%float))
           (mkBrightPoint 2 1 255%float (mkColor 1%float 1%float 1%float)));
    [vm_compute; reflexivity | reflexivity | reflexivity | lia].
Defined.

(** Every emitted candidate has a finite brightness. *)
Lemma findBrightPoints_finite (pixels : list Byte.byte) (width height : nat)
    (l : list BrightPoint) :
  findBrightPoints pixels width height = Ok l ->
  Forall (fun p => is_finite (brightness p) = true) l.
Proof.
  destruct (findBrightPoints_eq pixels width height) as (edges & _ & ->).
  destruct (existsb _ _); [done|]. intros [= <-].
  rewrite Forall_map, Forall_forall. intros k Hk.
  apply list_elem_of_In, filter_In in Hk as [_ Hk].
  unfold emits in Hk. apply andb_true_iff in Hk as [Hk _].
  cbn [candidate brightness]. by apply bright_finite in Hk.
Qed.

(** When the frame is at least as high as it is wide, the extractor does
    not throw. *)
Lemma findBrightPoints_ok_of_tall (pixels : list Byte.byte) (width height : nat) :
  0 < width <= height ->
  exists l, findBrightPoints pixels width height = Ok l.
Proof.
  intros Hw.
  destruct (applySobelFilter_rows pixels width height) as (edges & Hedges & Hrows).
  destruct (findBrightPoints_eq pixels width height) as (edges' & Hedges' & ->).
  rewrite Hedges in Hedges'. injection Hedges' as <-.
  assert (Hno : existsb (throws pixels width edges) (scan_indices pixels) = false).
  { apply not_true_is_false. intros (k & _ & Hk)%existsb_exists.
    unfold throws, pixel_coords, read_edge in Hk.
    apply andb_true_iff in Hk as [_ Hk].
    destruct (Nat.eqb_spec width 0) as [|_]; [lia|].
    destruct (Hrows (k mod width)) as [_ [r Hr]].
    { pose proof (Nat.mod_upper_bound k width). lia. }
    by rewrite Hr in Hk. }
  rewrite Hno. by eexists.
Qed.

(** C1 fails on the code: line 100 reads [edges[x][y]], but line 158 stored
    the value for pixel (x, y) in [gradients[y][x]].  In the frame whose
    column 0 is black and whose other columns are white, pixels (1, 2) and
    (2, 1) both have luma 255; the edge value is 1020 at (1, 2) and 0 at
    (2, 1).  The extractor emits (2, 1) and does not emit (1, 2). *)
Theorem findBrightPoints_reads_transposed_entry :
  luma_at frame_edge 4 1 2 = 255%float
  /\ luma_at frame_edge 4 2 1 = 255%float
  /\ edge_map_at frame_edge 4 4 1 2 = Some 1020%float
  /\ edge_map_at frame_edge 4 4 2 1 = Some 0%float
  /\ findBrightPoints frame_edge 4 4
     = Ok [ mkBrightPoint 1 1 255%float (mkColor 1%float 1%float 1%float);
            mkBrightPoint 2 1 255%float (mkColor 1%float 1%float 1%float) ].
Proof. repeat split; vm_compute; reflexivity. Qed.

(** C3 fails on the code: the white frame of width 2 and height 1 satisfies
    the frame invariant, and for its pixel (1, 0) line 100 reads
    [edges[1]], which is undefined because the table has one row only;
    reading [edges[1][0]] raises a TypeError. *)
Theorem findBrightPoints_throws_on_wide_frame :
  length frame_2x1 = 2 * 1 * 4
  /\ findBrightPoints frame_2x1 2 1 = TypeError.
Proof. split; vm_compute; reflexivity. Qed.

(** * The Point Ranker/Limiter *)

Section Sort.
Context {A : Type} (cmp : A -> A -> number).

Lemma sort_insert_perm (a : A) (l : list A) : sort_insert cmp a l ≡ₚ a :: l.
Proof.
  induction l as [|h t IH]; cbn [sort_insert]; [done|].
  destruct (gt (cmp a h) 0); [|done].
  rewrite IH. apply Permutation_swap.
Qed.

Lemma array_sort_perm (l : list A) : array_sort cmp l ≡ₚ l.
Proof.
  induction l as [|a l IH]; cbn [array_sort foldr]; [done|].
  rewrite sort_insert_perm. by f_equiv.
Qed.

Lemma length_array_sort (l : list A) : length (array_sort cmp l) = length l.
Proof. apply Permutation_length, array_sort_perm. Qed.
End Sort.

Lemma rank_take (brightPoints : list BrightPoint) :
  rank brightPoints = take maxBrightPoints (array_sort by_brightness brightPoints).
Proof.
  unfold rank. destruct (Nat.ltb_spec maxBrightPoints
                           (length (array_sort by_brightness brightPoints)));
    [done|]. by rewrite take_ge.
Qed.

Lemma length_rank (brightPoints : list BrightPoint) :
  length (rank brightPoints) = Nat.min maxBrightPoints (length brightPoints).
Proof. by rewrite rank_take, length_take, length_array_sort. Qed.

Lemma by_brightness_gt (a h : BrightPoint) :
  is_finite (brightness a) = true -> is_finite (brightness h) = true ->
  gt (by_brightness a h) 0%float = (brightness a <? brightness h)%float.
Proof. intros Ha Hh. unfold gt, by_brightness. by apply sub_pos_ltb. Qed.

Lemma brighter_eq_of_ltb (a h : BrightPoint) :
  is_finite (brightness a) = true -> is_finite (brightness h) = true ->
  (brightness a <? brightness h)%float = true -> brighter_eq h a.
Proof.
  intros Ha Hh. unfold brighter_eq. rewrite ltb_val, leb_val by done. lia.
Qed.

Lemma brighter_eq_of_not_ltb (a h : BrightPoint) :
  is_finite (brightness a) = true -> is_finite (brightness h) = true ->
  (brightness a <? brightness h)%float = false -> brighter_eq a h.
Proof.
  intros Ha Hh. unfold brighter_eq. rewrite ltb_val, leb_val by done. lia.
Qed.

Lemma brighter_eq_trans (p q u : BrightPoint) :
  is_finite (brightness p) = true -> is_finite (brightness q) = true ->
  is_finite (brightness u) = true ->
  brighter_eq p q -> brighter_eq q u -> brighter_eq p u.
Proof.
  intros Hp Hq Hu. unfold brighter_eq. rewrite !leb_val by done. lia.
Qed.

Lemma sort_insert_sorted (a : BrightPoint) (l : list BrightPoint) :
  is_finite (brightness a) = true ->
  Forall (fun p => is_finite (brightness p) = true) l ->
  StronglySorted brighter_eq l ->
  StronglySorted brighter_eq (sort_insert by_brightness a l).
Proof.
  intros Ha Hfin Hsorted.
  induction l as [|h t IH]; cbn [sort_insert]; [repeat constructor|].
  apply Forall_cons in Hfin as [Hh Ht].
  apply StronglySorted_cons in Hsorted as [Hhead Htail].
  rewrite by_brightness_gt by done.
  destruct (brightness a <? brightness h)%float eqn:Hlt.
  - constructor; [by apply IH|].
    rewrite (sort_insert_perm by_brightness a t).
    constructor; [by apply brighter_eq_of_ltb | done].
  - assert (Hah : brighter_eq a h) by (by apply brighter_eq_of_not_ltb).
    constructor; [by constructor|].
    constructor; [done|].
    rewrite Forall_forall in Hhead, Ht |- *. intros x Hx.
    apply (brighter_eq_trans a h x); auto.
Qed.

Lemma array_sort_sorted (l : list BrightPoint) :
  Forall (fun p => is_finite (brightness p) = true) l ->
  StronglySorted brighter_eq (array_sort by_brightness l).
Proof.
  induction l as [|a l IH]; intros Hfin; cbn [array_sort foldr]; [constructor|].
  apply Forall_cons in Hfin as [Ha Hl].
  apply sort_insert_sorted; [done| |by apply IH].
  by rewrite (array_sort_perm by_brightness l).
Qed.

(** C5: for candidates with finite brightness the Ranker returns at most
    maxBrightPoints entries, in descending order of brightness; the
    candidates are the returned entries together with the dropped ones, and
    every returned entry is at least as bright as every dropped one; a list
    of at most maxBrightPoints candidates is returned whole. *)
Theorem rank_spec (brightPoints : list BrightPoint) :
  Forall (fun p => is_finite (brightness p) = true) brightPoints ->
  length (rank brightPoints) <= maxBrightPoints
  /\ StronglySorted brighter_eq (rank brightPoints)
  /\ (exists dropped,
        brightPoints ≡ₚ rank brightPoints ++ dropped
        /\ forall p d, p ∈ rank brightPoints -> d ∈ dropped -> brighter_eq p d)
  /\ (length brightPoints <= maxBrightPoints -> rank brightPoints ≡ₚ brightPoints).
Proof.
  intros Hfin.
  pose proof (array_sort_sorted brightPoints Hfin) as Hsorted.
  rewrite <- (take_drop maxBrightPoints) in Hsorted.
  apply StronglySorted_app in Hsorted as (Hcross & Htake & _).
  rewrite rank_take.
  split; [rewrite length_take; lia|]. split; [done|]. split.
  - exists (drop maxBrightPoints (array_sort by_brightness brightPoints)).
    split; [|done].
    by rewrite take_drop, (array_sort_perm by_brightness brightPoints).
  - intros Hlen. rewrite take_ge by (rewrite length_array_sort; lia).
    apply array_sort_perm.
Qed.

Lemma rank_spec_witness :
  Forall (fun p => is_finite (brightness p) = true) sample_candidates
  /\ length (rank sample_candidates) <= maxBrightPoints
  /\ StronglySorted brighter_eq (rank sample_candidates).
Proof.
  assert (Hfin : Forall (fun p => is_finite (brightness p) = true)
                        sample_candidates)
    by (repeat constructor).
  split; [exact Hfin|].
  destruct (rank_spec sample_candidates Hfin) as (Hlen & Hsorted & _).
  split; [exact Hlen | exact Hsorted].
Defined.

(** * The particle buffer and the Projector *)

Lemma length_setXYZ (positions : list number) (i : nat) (x y z : number) :
  length (setXYZ positions i x y z) = length positions.
Proof. unfold setXYZ. by rewrite !length_insert. Qed.

Lemma lookup_setXYZ (positions : list number) (i : nat) (x y z : number) (j : nat) :
  setXYZ positions i x y z !! j
  = if decide (j / 3 = i /\ j < length positions)
    then Some (fround (coord (mkVector3 x y z) (j mod 3)))
    else positions !! j.
Proof.
  unfold setXYZ. rewrite !list_lookup_insert, !length_insert.
  pose proof (Nat.div_mod_eq j 3) as Hdm.
  pose proof (Nat.mod_upper_bound j 3) as Hlt.
  destruct (j mod 3) as [|[|[|c]]] eqn:Hc; try lia; cbn [coord vx vy vz];
    repeat case_decide; try done; lia.
Qed.

Lemma write_points_prefix (width height : nat) (ranked : list BrightPoint)
    (positions : list number) (k : nat) :
  k <= length ranked ->
  length (foldl (write_point width height ranked) positions (seq 0 k))
  = length positions
  /\ forall j,
       foldl (write_point width height ranked) positions (seq 0 k) !! j
       = if decide (j / 3 < k /\ j < length positions)
         then p ← ranked !! (j / 3);
              Some (fround (coord (projected width height p) (j mod 3)))
         else positions !! j.
Proof.
  induction k as [|k IH]; intros Hk.
  - split; [done|]. intros j. case_decide; [lia | done].
  - rewrite seq_S, foldl_app. cbn [foldl Nat.add].
    destruct IH as (Hlen & Hlook); [lia|].
    destruct (lookup_lt_is_Some_2 ranked k) as [p Hp]; [lia|].
    unfold write_point at 1 3. rewrite Hp. cbn zeta. split.
    + by rewrite length_setXYZ.
    + intros j. rewrite lookup_setXYZ, Hlen, Hlook.
      repeat case_decide; try done; try lia.
      destruct_and!. subst k. rewrite Hp. cbn [mbind option_bind].
      by destruct (projected width height p).
Qed.

Lemma length_write_points (width height : nat) (ranked : list BrightPoint)
    (positions : list number) :
  length (write_points width height ranked positions) = length positions.
Proof. by apply (write_points_prefix width height ranked positions). Qed.

Lemma lookup_write_points (width height : nat) (ranked : list BrightPoint)
    (positions : list number) (j : nat) :
  write_points width height ranked positions !! j
  = if decide (j / 3 < length ranked /\ j < length positions)
    then p ← ranked !! (j / 3);
         Some (fround (coord (projected width height p) (j mod 3)))
    else positions !! j.
Proof. by apply (write_points_prefix width height ranked positions). Qed.

Lemma length_updateParticleSystem (width height : nat)
    (brightPoints : list BrightPoint) (positions : list number) :
  length (updateParticleSystem width height brightPoints positions)
  = length positions.
Proof. apply length_write_points. Qed.

Lemma length_positions_step (d : detector) (e : event) :
  length (positions (step d e)) = length (positions d).
Proof.
  destruct e as [| |v]; cbn [step].
  - by destruct (acquiring d).
  - by destruct (acquiring d).
  - destruct (scheduled d); [|done]. unfold detectReflections.
    destruct (readyState v =? HAVE_ENOUGH_DATA); [|done].
    destruct (context v); [|done].
    destruct ((videoWidth v =? 0) || (videoHeight v =? 0)); [done|].
    destruct (findBrightPoints _ _ _); [|done].
    cbn [positions]. apply length_updateParticleSystem.
Qed.

Lemma length_positions_run (es : list event) (d : detector) :
  length (positions (run d es)) = length (positions d).
Proof.
  revert d. induction es as [|e es IH]; intros d; cbn [run foldl]; [done|].
  unfold run in IH. by rewrite IH, length_positions_step.
Qed.

Lemma updateParticleSystem_written (width height : nat)
    (brightPoints : list BrightPoint) (buffer : list number)
    (i c : nat) (p : BrightPoint) :
  rank brightPoints !! i = Some p -> c < 3 -> 3 * i + c < length buffer ->
  updateParticleSystem width height brightPoints buffer !! (3 * i + c)
  = Some (fround (coord (projected width height p) c)).
Proof.
  intros Hp Hc Hlen. unfold updateParticleSystem. rewrite lookup_write_points.
  pose proof (lookup_lt_Some _ _ _ Hp) as Hi.
  replace ((3 * i + c) / 3) with i by (apply Nat.div_unique with c; lia).
  replace ((3 * i + c) mod 3) with c by (apply Nat.mod_unique with i; lia).
  rewrite decide_True by lia. by rewrite Hp.
Qed.

Lemma updateParticleSystem_kept (width height : nat)
    (brightPoints : list BrightPoint) (buffer : list number) (j : nat) :
  3 * length (rank brightPoints) <= j ->
  updateParticleSystem width height brightPoints buffer !! j = buffer !! j.
Proof.
  intros Hj. unfold updateParticleSystem. rewrite lookup_write_points.
  rewrite decide_False; [done|].
  pose proof (Nat.div_mod_eq j 3). pose proof (Nat.mod_upper_bound j 3). lia.
Qed.

(** C6: the Projector returns exactly (x / width * 2 - 1,
    -(y / height) * 2 + 1, 0); the driver stores that position for the i-th
    ranked point in the particle buffer, with projectionDistance subtracted
    from z; and for a pixel (x, y) of a frame, 0 <= x < width and
    0 <= y < height, both normalized coordinates lie in [-1, 1].  The
    dimensions are below 2^53, so that they are exact as numbers. *)
Theorem convertToWorldPosition_spec (x y width height : nat) :
  x < width -> y < height ->
  (Z.of_nat width < 2 ^ 53)%Z -> (Z.of_nat height < 2 ^ 53)%Z ->
  (forall a b w h : number,
      convertToWorldPosition a b w h
      = mkVector3 (a / w * 2 - 1)%float (- (b / h) * 2 + 1)%float 0%float)
  /\ (forall (brightPoints : list BrightPoint) (buffer : list number)
             (i : nat) (p : BrightPoint),
        length buffer = maxBrightPoints * 3 ->
        rank brightPoints !! i = Some p ->
        let v := convertToWorldPosition (of_nat (bp_x p)) (of_nat (bp_y p))
                                        (of_nat width) (of_nat height) in
        let buffer' := updateParticleSystem width height brightPoints buffer in
        buffer' !! (3 * i) = Some (fround (vx v))
        /\ buffer' !! (3 * i + 1) = Some (fround (vy v))
        /\ buffer' !! (3 * i + 2) = Some (fround (vz v - projectionDistance)%float))
  /\ (let v := convertToWorldPosition (of_nat x) (of_nat y)
                                      (of_nat width) (of_nat height) in
      ((-1) <=? vx v)%float = true /\ (vx v <=? 1)%float = true
      /\ ((-1) <=? vy v)%float = true /\ (vy v <=? 1)%float = true).
Proof.
  intros Hx Hy Hw Hh. split; [|split].
  - intros a b w h. unfold convertToWorldPosition. by rewrite opp_div.
  - intros brightPoints buffer i p Hcap Hp v buffer'.
    pose proof (lookup_lt_Some _ _ _ Hp) as Hi.
    pose proof (length_rank brightPoints) as Hlen.
    assert (Hcoord : forall c, c < 3 ->
              buffer' !! (3 * i + c)
              = Some (fround (coord (projected width height p) c))).
    { intros c Hc. apply updateParticleSystem_written; [done..|].
      unfold maxBrightPoints in *. lia. }
    pose proof (Hcoord 0) as H0. pose proof (Hcoord 1) as H1.
    pose proof (Hcoord 2) as H2. rewrite Nat.add_0_r in H0.
    split; [by apply H0; lia|]. split; [by apply H1; lia | by apply H2; lia].
  - destruct (normalized_within_unit x y width height Hx Hy Hw Hh) as [[? ?] [? ?]].
    done.
Qed.

Lemma convertToWorldPosition_spec_witness :
  2 < 4 /\ (Z.of_nat 4 < 2 ^ 53)%Z
  /\ (let v := convertToWorldPosition (of_nat 2) (of_nat 2) (of_nat 4) (of_nat 4) in
      ((-1) <=? vx v)%float = true /\ (vx v <=? 1)%float = true
      /\ ((-1) <=? vy v)%float = true /\ (vy v <=? 1)%float = true).
Proof.
  split; [lia|]. split; [done|].
  apply (convertToWorldPosition_spec 2 2 4 4); [lia | lia | done | done].
Defined.

(** C7: a pass that hands n positions to the particle buffer (n <=
    maxBrightPoints) writes the first n position entries of the buffer,
    every component at index 3 * n or beyond keeps the value it had, and
    the length of the buffer is the one [initParticleSystem] gave it, after
    the pass and after any sequence of events. *)
Theorem pass_writes_first_n (pixels : list Byte.byte) (width height : nat)
    (buffer buffer' : list number) (points : list Vector3) :
  length buffer = maxBrightPoints * 3 ->
  pass pixels width height buffer = Ok (points, buffer') ->
  length points <= maxBrightPoints
  /\ length buffer' = length buffer
  /\ (forall i v c, points !! i = Some v -> c < 3 ->
        buffer' !! (3 * i + c) = Some (fround (coord v c)))
  /\ (forall j, 3 * length points <= j -> buffer' !! j = buffer !! j)
  /\ (forall es, length (positions (run construct es)) = maxBrightPoints * 3).
Proof.
  intros Hcap. unfold pass.
  destruct (findBrightPoints pixels width height) as [brightPoints|]; [|done].
  cbn [mbind result_bind]. intros [= <- <-].
  pose proof (length_rank brightPoints) as Hn.
  rewrite length_map.
  split; [lia|]. split; [apply length_updateParticleSystem|].
  split; [|split].
  - intros i v c Hv Hc.
    apply list_lookup_fmap_Some in Hv as (p & -> & Hp).
    pose proof (lookup_lt_Some _ _ _ Hp) as Hi.
    apply updateParticleSystem_written; [done..|].
    unfold maxBrightPoints in *. lia.
  - intros j Hj. by apply updateParticleSystem_kept.
  - intros es. by rewrite length_positions_run.
Qed.

Lemma pass_writes_first_n_witness :
  length sample_buffer = maxBrightPoints * 3
  /\ exists points buffer',
       pass frame_edge 4 4 sample_buffer = Ok (points, buffer')
       /\ length points = 2
       /\ buffer' !! 5 = Some (fround (0 - projectionDistance)%float)
       /\ buffer' !! 6 = Some 7%float.
Proof.
  split; [reflexivity|].
  destruct (pass frame_edge 4 4 sample_buffer) as [[points buffer']|] eqn:Hpass;
    [|vm_compute in Hpass; discriminate].
  destruct (pass_writes_first_n frame_edge 4 4 sample_buffer buffer' points)
    as (_ & _ & Hwritten & Hkept & _); [reflexivity | exact Hpass |].
  assert (Hpoints : points = map (projected 4 4)
                      [ mkBrightPoint 1 1 255%float (mkColor 1%float 1%float 1%float);
                        mkBrightPoint 2 1 255%float (mkColor 1%float 1%float 1%float) ]).
  { vm_compute in Hpass. injection Hpass as <- _. vm_compute. reflexivity. }
  exists points, buffer'. split; [reflexivity|]. split; [by rewrite Hpoints|].
  split.
  - apply (Hwritten 1 (projected 4 4 (mkBrightPoint 2 1 255%float
                         (mkColor 1%float 1%float 1%float))) 2);
      [by rewrite Hpoints | lia].
  - rewrite Hkept; [reflexivity | rewrite Hpoints; cbn; lia].
Defined.

(** * Two runs on one frame *)

Lemma write_points_idem (width height : nat) (ranked : list BrightPoint)
    (buffer : list number) :
  write_points width height ranked (write_points width height ranked buffer)
  = write_points width height ranked buffer.
Proof.
  apply list_eq. intros j.
  rewrite (lookup_write_points _ _ _ (write_points _ _ _ _)).
  rewrite length_write_points.
  case_decide as Hj; [|done].
  rewrite lookup_write_points. by rewrite decide_True.
Qed.

(** C8: two runs of the pipeline on one frame give the same list of
    projected points, in the same order, whatever the particle buffer holds
    before either run; a second run right after the first one gives the
    same list again and leaves the buffer as the first run left it; and so
    do two consecutive frame callbacks of the driver on the same frame. *)
Theorem pass_deterministic (pixels : list Byte.byte) (width height : nat)
    (buffer1 buffer2 : list number) :
  match pass pixels width height buffer1, pass pixels width height buffer2 with
  | Ok (points1, buffer1'), Ok (points2, _) =>
      points1 = points2
      /\ pipeline pixels width height = Ok points1
      /\ pass pixels width height buffer1' = Ok (points1, buffer1')
  | TypeError, TypeError => pipeline pixels width height = TypeError
  | _, _ => False
  end
  /\ forall (d : detector) (v : video),
       positions (step (step d (Frame v)) (Frame v))
       = positions (step d (Frame v)).
Proof.
  split.
  - unfold pass, pipeline.
    destruct (findBrightPoints pixels width height) as [brightPoints|];
      cbn [mbind result_bind]; [|done].
    repeat split. unfold updateParticleSystem. by rewrite write_points_idem.
  - intros d v. destruct (scheduled d) eqn:Hs; cycle 1.
    { assert (step d (Frame v) = d) as -> by (cbn [step]; by rewrite Hs).
      cbn [step]. by rewrite Hs. }
    assert (step d (Frame v)
            = detectReflections
                (mkDetector (positions d) (acquiring d) false (trace d)) v)
      as -> by (cbn [step]; by rewrite Hs).
    unfold detectReflections at 1 2.
    destruct (Nat.eqb (readyState v) HAVE_ENOUGH_DATA) eqn:Hready.
    + destruct (context v) eqn:Hctx; [|done].
      destruct (Nat.eqb (videoWidth v) 0 || Nat.eqb (videoHeight v) 0)
        eqn:Hzero; [done|].
      destruct (findBrightPoints (data v) (videoWidth v) (videoHeight v))
        as [brightPoints|] eqn:Hfind; [|done].
      cbn [step scheduled positions acquiring trace].
      unfold detectReflections.
      rewrite Hready, Hctx, Hzero, Hfind. cbn [positions].
      unfold updateParticleSystem. by rewrite write_points_idem.
    + cbn [step scheduled positions acquiring trace].
      unfold detectReflections. by rewrite Hready.
Qed.

(** * Failure to acquire the capture source *)

Lemma run_frames_unscheduled (d : detector) (vs : list video) :
  scheduled d = false -> run d (map Frame vs) = d.
Proof.
  intros Hd. induction vs as [|v vs IH]; cbn [map run foldl]; [done|].
  cbn [step]. rewrite Hd. exact IH.
Qed.

Lemma run_idle (d : detector) (es : list event) :
  acquiring d = false -> scheduled d = false -> run d es = d.
Proof.
  intros Ha Hs. induction es as [|e es IH]; cbn [run foldl]; [done|].
  replace (step d e) with d; [exact IH|].
  destruct e; cbn [step]; by rewrite ?Ha, ?Hs.
Qed.

(** C9: when the acquisition of the capture source fails, whatever frame
    callbacks the browser ran before and whatever events follow, the
    failure was reported once, the camera was requested once and never
    again, no frame callback is registered, no pass was performed, the
    driver is still awaiting capture and the particle buffer is as
    [initParticleSystem] left it. *)
Theorem capture_failure_is_final (before : list video) (after : list event) :
  let d := run construct (map Frame before ++ Rejected :: after) in
  trace d = [GetUserMedia; ConsoleError]
  /\ length (filter (fun e => e = ConsoleError) (trace d)) = 1
  /\ length (filter (fun e => e = GetUserMedia) (trace d)) = 1
  /\ (Pass ∉ trace d)
  /\ phase_of d = AwaitingCapture
  /\ scheduled d = false
  /\ positions d = initParticleSystem.
Proof.
  intros d.
  assert (Hd : d = mkDetector initParticleSystem false false
                     [GetUserMedia; ConsoleError]).
  { unfold d, run. rewrite foldl_app. fold (run construct (map Frame before)).
    rewrite run_frames_unscheduled by done.
    cbn [foldl step construct acquiring positions scheduled trace app].
    by apply run_idle. }
  rewrite Hd. cbn [trace scheduled positions].
  assert (Hpass : Pass ∉ [GetUserMedia; ConsoleError])
    by (rewrite !not_elem_of_cons; repeat split; (done || apply not_elem_of_nil)).
  unfold phase_of. cbn [trace]. rewrite decide_False by done.
  repeat split; done.
Qed.

(** * The end-to-end scenario *)

(** C2 (amended): on the 4 by 4 mid-gray frame with a white pixel at (2, 2)
    the pipeline produces no BrightPoint: the luma of pixel (2, 2) is 255,
    above the brightness threshold, but the gradient there is about 1.4e-14,
    not above the edge threshold, because both kernels weigh the centre with
    0 and the eight neighbours are equal.  A pass leaves the particle buffer
    as it was.  Projecting pixel (2, 2) of a 4 by 4 frame gives x = 0, y = 0. *)
Theorem scenario_4x4_no_point :
  ranked_points frame_4x4 4 4 = Ok []
  /\ luma frame_4x4 (4 * (2 * 4 + 2)) = 255%float
  /\ gt (luma frame_4x4 (4 * (2 * 4 + 2))) brightnessThreshold = true
  /\ (exists edges r,
        applySobelFilter frame_4x4 4 4 = Ok edges /\ edges !! 2 = Some r
        /\ r !! 2 = Some 1.4210854715202004e-14%float)
  /\ gt 1.4210854715202004e-14%float edgeThreshold = false
  /\ convertToWorldPosition (of_nat 2) (of_nat 2) (of_nat 4) (of_nat 4)
     = mkVector3 0%float 0%float 0%float
  /\ run construct [Resolved; Frame (mkVideo HAVE_ENOUGH_DATA 4 4 true frame_4x4)]
     = mkDetector initParticleSystem false true
         [GetUserMedia; Play; RequestFrame; Pass; RequestFrame].
Proof.
  repeat split; try (vm_compute; reflexivity).
  eexists _, _.
  split; [vm_compute; reflexivity|].
  split; vm_compute; reflexivity.
Qed.

(** C2, as stated, fails: the pipeline does not produce exactly one
    BrightPoint at pixel (2, 2) for this frame. *)
Lemma scenario_4x4_not_one_point :
  ~ (exists p, ranked_points frame_4x4 4 4 = Ok [p] /\ bp_x p = 2 /\ bp_y p = 2).
Proof.
  intros (p & H & _). vm_compute in H. discriminate.
Qed.
(** * Further properties of the Bright-Point Extractor *)

(** The entry of the gradient table for column [x] of row [y]. *)
Lemma applySobelFilter_lookup (pixels : list Byte.byte) (width height : nat) :
  exists edges : grid,
    applySobelFilter pixels width height = Ok edges
    /\ forall y x,
         (r ← edges !! y; r !! x)
         = if decide (y < height /\ x < width)
           then Some (if interior width height x y
                      then magnitude (sobel_sums pixels width x y)
                      else 0%float)
           else None.
Proof.
  unfold applySobelFilter.
  destruct (init_gradients_ok width height) as (g0 & -> & Hg0).
  cbn [mbind result_bind].
  destruct (sobel_rows (fun x y => magnitude (sobel_sums pixels width x y))
              (seq 1 (width - 2)) (seq 1 (height - 2)) g0
              (fun _ => zero_row width)) as (edges & -> & Hedges).
  { apply NoDup_seq. }
  { intros y Hy. apply elem_of_seq in Hy. rewrite Hg0.
    case_decide; [done | lia]. }
  exists edges. split; [done|]. intros y x.
  assert (Hzero : zero_row width !! x
                  = if decide (x < width) then Some 0%float else None).
  { unfold zero_row. rewrite lookup_fill, lookup_empty.
    repeat case_decide; rewrite ?elem_of_seq in *; try done; lia. }
  rewrite Hedges, Hg0. unfold interior.
  destruct (decide (y ∈ seq 1 (height - 2))) as [Hy|Hy];
    rewrite elem_of_seq in Hy.
  - cbn [mbind option_bind]. rewrite lookup_fill, Hzero.
    destruct (decide (x ∈ seq 1 (width - 2))) as [Hx|Hx];
      rewrite elem_of_seq in Hx.
    + rewrite decide_True by lia.
      replace (1 <=? x) with true by (symmetry; apply Nat.leb_le; lia).
      replace (x <? width - 1) with true by (symmetry; apply Nat.ltb_lt; lia).
      replace (1 <=? y) with true by (symmetry; apply Nat.leb_le; lia).
      replace (y <? height - 1) with true by (symmetry; apply Nat.ltb_lt; lia).
      done.
    + destruct (decide (x < width)) as [Hxw|Hxw].
      * rewrite decide_True by lia.
        destruct (1 <=? x) eqn:E1; [|done].
        destruct (x <? width - 1) eqn:E2; [|done].
        apply Nat.leb_le in E1. apply Nat.ltb_lt in E2. lia.
      * rewrite decide_False; [done | lia].
  - destruct (decide (y < height)) as [Hyh|Hyh]; cbn [mbind option_bind].
    + rewrite Hzero. destruct (decide (x < width)) as [Hxw|Hxw].
      * rewrite decide_True by lia.
        destruct (1 <=? y) eqn:E1; [|by rewrite andb_false_r].
        destruct (y <? height - 1) eqn:E2; [|by rewrite andb_false_r].
        apply Nat.leb_le in E1. apply Nat.ltb_lt in E2. lia.
      * rewrite decide_False; [done | lia].
    + rewrite decide_False; [done | lia].
Qed.

(** A luma above a threshold was computed from three bytes of the buffer. *)
Lemma bright_in_range (pixels : list Byte.byte) (i : nat) (t : number) :
  gt (luma pixels i) t = true ->
  exists b0 b1 b2,
    pixels !! i = Some b0 /\ pixels !! (i + 1) = Some b1
    /\ pixels !! (i + 2) = Some b2.
Proof.
  intros Hgt.
  destruct (pixels !! i) as [b0|] eqn:H0;
    [destruct (pixels !! (i + 1)) as [b1|] eqn:H1;
     [destruct (pixels !! (i + 2)) as [b2|] eqn:H2|]|].
  - by exists b0, b1, b2.
  - exfalso. revert Hgt. unfold luma, pixel. rewrite H2.
    by rewrite mul_nan_r, add_nan_r, gt_nan.
  - exfalso. revert Hgt. unfold luma, pixel. rewrite H1.
    by rewrite mul_nan_r, add_nan_r, add_nan_l, gt_nan.
  - exfalso. revert Hgt. unfold luma, pixel. rewrite H0.
    by rewrite mul_nan_r, !add_nan_l, gt_nan.
Qed.

Lemma elem_of_scan_indices (pixels : list Byte.byte) (k : nat) :
  k ∈ scan_indices pixels <-> 4 * k < length pixels.
Proof.
  unfold scan_indices. rewrite elem_of_seq.
  pose proof (Nat.div_mod_eq (length pixels + 3) 4).
  pose proof (Nat.mod_upper_bound (length pixels + 3) 4). lia.
Qed.

(** What decides at scan position [k]: the pixel is bright, and the
    gradient stored for column [k / width] of row [k mod width], an
    interior position of the table, is above the edge threshold. *)
Lemma emits_iff (pixels : list Byte.byte) (width height : nat) (edges : grid)
    (k : nat) :
  applySobelFilter pixels width height = Ok edges ->
  emits pixels width edges k = true
  <-> gt (luma pixels (4 * k)) brightnessThreshold = true
      /\ 0 < width
      /\ interior width height (k / width) (k mod width) = true
      /\ gt (magnitude (sobel_sums pixels width (k / width) (k mod width)))
            edgeThreshold = true.
Proof.
  intros Hedges.
  destruct (applySobelFilter_lookup pixels width height) as (edges' & He & Hlook).
  rewrite Hedges in He. injection He as <-.
  unfold emits, pixel_coords, read_edge.
  rewrite andb_true_iff.
  destruct (Nat.eqb_spec width 0) as [->|Hw].
  { split; [by intros [_ ?] | intros (_ & ? & _); lia]. }
  specialize (Hlook (k mod width) (k / width)).
  destruct (edges !! (k mod width)) as [r|]; cbn [mbind option_bind] in Hlook.
  - rewrite Hlook. case_decide as Hin.
    + destruct (interior width height (k / width) (k mod width)).
      * split; [intros [? ?]; repeat split; (done || lia) | by intros (? & _ & _ & ?)].
      * split; [by intros [_ ?] | by intros (_ & _ & ? & _)].
    + rewrite gt_nan. split; [by intros [_ ?] | intros (_ & _ & Hint & _)].
      exfalso. apply Hin. unfold interior in Hint.
      apply andb_true_iff in Hint as [[[_ H1]%andb_true_iff _]%andb_true_iff H2].
      apply Nat.ltb_lt in H1, H2. lia.
  - case_decide as Hin; [done|].
    split; [by intros [_ ?] | intros (_ & _ & Hint & _)].
    exfalso. apply Hin. unfold interior in Hint.
    apply andb_true_iff in Hint as [[[_ H1]%andb_true_iff _]%andb_true_iff H2].
    apply Nat.ltb_lt in H1, H2. lia.
Qed.

Lemma throws_iff (pixels : list Byte.byte) (width height : nat) (edges : grid)
    (k : nat) :
  applySobelFilter pixels width height = Ok edges ->
  throws pixels width edges k = true
  <-> gt (luma pixels (4 * k)) brightnessThreshold = true
      /\ (width = 0 \/ height <= k mod width).
Proof.
  intros Hedges.
  destruct (applySobelFilter_rows pixels width height) as (edges' & He & Hrows).
  rewrite Hedges in He. injection He as <-.
  unfold throws, pixel_coords, read_edge. rewrite andb_true_iff.
  destruct (Nat.eqb_spec width 0) as [->|Hw].
  { split; [intros [? _]; split; [done | by left] | by intros [? _]]. }
  specialize (Hrows (k mod width)).
  destruct (edges !! (k mod width)) as [r|] eqn:Hr.
  - assert (k mod width < height) by (apply Hrows; by eexists).
    split; [by intros [_ ?] | intros [_ [?|?]]; lia].
  - assert (~ k mod width < height)
      by (intros H; apply Hrows in H; by destruct H).
    split; [intros [? _]; split; [done | right; lia] | by intros [? _]].
Qed.

(** X1: [findBrightPoints] raises a TypeError exactly when the buffer holds
    a pixel brighter than the brightness threshold whose column [x] has no
    row [edges[x]] in the gradient table: the width is 0, or
    [x >= height]. *)
Theorem findBrightPoints_throws_iff (pixels : list Byte.byte)
    (width height : nat) :
  findBrightPoints pixels width height = TypeError
  <-> exists k,
        4 * k < length pixels
        /\ gt (luma pixels (4 * k)) brightnessThreshold = true
        /\ (width = 0 \/ height <= k mod width).
Proof.
  destruct (findBrightPoints_eq pixels width height) as (edges & Hedges & ->).
  destruct (existsb _ _) eqn:Hex.
  - split; [intros _ | done].
    apply existsb_exists in Hex as (k & Hk & Hthrows).
    apply list_elem_of_In, elem_of_scan_indices in Hk.
    apply (throws_iff pixels width height edges k Hedges) in Hthrows.
    exists k. by split.
  - split; [done | intros (k & Hk & Hthrows)]. exfalso.
    apply elem_of_scan_indices, list_elem_of_In in Hk.
    apply (throws_iff pixels width height edges k Hedges) in Hthrows.
    apply not_true_iff_false in Hex. apply Hex.
    apply existsb_exists. by exists k.
Qed.

(** The emitted points, by scan position. *)
Lemma findBrightPoints_elem_of (pixels : list Byte.byte) (width height : nat)
    (edges : grid) (l : list BrightPoint) (p : BrightPoint) :
  applySobelFilter pixels width height = Ok edges ->
  findBrightPoints pixels width height = Ok l ->
  p ∈ l <-> exists k, 4 * k < length pixels
                      /\ emits pixels width edges k = true
                      /\ p = candidate pixels width k.
Proof.
  intros Hedges.
  destruct (findBrightPoints_eq pixels width height) as (edges' & He & ->).
  rewrite Hedges in He. injection He as <-.
  destruct (existsb _ _); [done|]. intros [= <-].
  rewrite list_elem_of_fmap. split.
  - intros (k & -> & Hk). apply list_elem_of_In, filter_In in Hk as [Hk Hemits].
    apply list_elem_of_In, elem_of_scan_indices in Hk. by exists k.
  - intros (k & Hk & Hemits & ->). exists k. split; [done|].
    apply list_elem_of_In, filter_In. split; [|done].
    by apply list_elem_of_In, elem_of_scan_indices.
Qed.

(** X2: every point [findBrightPoints] returns lies strictly inside the
    transposed frame: [1 <= x < height - 1] and [1 <= y < width - 1], with
    [x < width]; its three colour bytes are inside the buffer, and [y <
    height] when the buffer holds at most [width * height] pixels.  Hence a
    frame less than 3 pixels wide or high yields no point. *)
Theorem findBrightPoints_points_interior (pixels : list Byte.byte)
    (width height : nat) (l : list BrightPoint) (p : BrightPoint) :
  findBrightPoints pixels width height = Ok l -> p ∈ l ->
  (1 <= bp_x p /\ bp_x p < width /\ bp_x p + 1 < height)
  /\ (1 <= bp_y p /\ bp_y p + 1 < width)
  /\ 4 * (bp_y p * width + bp_x p) + 2 < length pixels
  /\ (length pixels <= 4 * (width * height) -> bp_y p < height)
  /\ 3 <= width /\ 3 <= height.
Proof.
  intros Hl Hp.
  destruct (applySobelFilter_rows pixels width height) as (edges & Hedges & _).
  destruct (proj1 (findBrightPoints_elem_of pixels width height edges l p
                     Hedges Hl) Hp) as (k & Hk & Hemits & ->).
  destruct (proj1 (emits_iff pixels width height edges k Hedges) Hemits)
    as (Hbright & Hw & Hint & _).
  cbn [candidate bp_x bp_y].
  unfold interior in Hint.
  apply andb_true_iff in Hint as [[[H1 H2]%andb_true_iff H3]%andb_true_iff H4].
  apply Nat.leb_le in H1, H3. apply Nat.ltb_lt in H2, H4.
  pose proof (Nat.mod_upper_bound k width) as Hmod.
  pose proof (Nat.div_mod_eq k width) as Hdm.
  apply bright_in_range in Hbright as (b0 & b1 & b2 & _ & _ & Hb2).
  apply lookup_lt_Some in Hb2.
  replace (k / width * width + k mod width) with k by lia.
  repeat split; try lia.
  intros Hlen.
  apply Nat.Div0.div_lt_upper_bound. lia.
Qed.

Lemma findBrightPoints_points_interior_witness :
  exists l p,
    findBrightPoints frame_edge 4 4 = Ok l /\ p ∈ l
    /\ bp_x p = 1 /\ bp_y p = 1 /\ 3 <= 4.
Proof.
  exists [ mkBrightPoint 1 1 255%float (mkColor 1%float 1%float 1%float);
           mkBrightPoint 2 1 255%float (mkColor 1%float 1%float 1%float) ],
         (mkBrightPoint 1 1 255%float (mkColor 1%float 1%float 1%float)).
  split; [vm_compute; reflexivity|]. split; [apply list_elem_of_here|].
  split; [reflexivity|]. split; [reflexivity|].
  apply (findBrightPoints_points_interior frame_edge 4 4
           [ mkBrightPoint 1 1 255%float (mkColor 1%float 1%float 1%float);
             mkBrightPoint 2 1 255%float (mkColor 1%float 1%float 1%float) ]
           (mkBrightPoint 1 1 255%float (mkColor 1%float 1%float 1%float)));
    [vm_compute; reflexivity | apply list_elem_of_here].
Defined.

Lemma filter_none {A : Type} (f : A -> bool) (l : list A) :
  (forall x, x ∈ l -> f x = false) -> List.filter f l = [].
Proof.
  induction l as [|a l IH]; intros Hl; cbn [List.filter]; [done|].
  rewrite (Hl a) by apply list_elem_of_here.
  apply IH. intros x Hx. apply Hl. by apply list_elem_of_further.
Qed.

(** X3: a frame none of whose pixels is brighter than the brightness
    threshold yields the empty list, whatever its dimensions: the
    gradient table is not read at all, so not even a frame with a wrong
    width or height makes the extractor throw. *)
Theorem findBrightPoints_dark (pixels : list Byte.byte) (width height : nat) :
  (forall k, 4 * k < length pixels ->
             gt (luma pixels (4 * k)) brightnessThreshold = false) ->
  findBrightPoints pixels width height = Ok [].
Proof.
  intros Hdark.
  destruct (findBrightPoints_eq pixels width height) as (edges & _ & ->).
  assert (Hno : existsb (throws pixels width edges) (scan_indices pixels) = false).
  { apply not_true_iff_false. intros (k & Hk & Hthrows)%existsb_exists.
    apply list_elem_of_In, elem_of_scan_indices in Hk.
    unfold throws in Hthrows. by rewrite (Hdark k Hk) in Hthrows. }
  rewrite Hno. f_equal.
  rewrite filter_none; [done|]. intros k Hk.
  apply elem_of_scan_indices in Hk.
  unfold emits. by rewrite (Hdark k Hk).
Qed.

Lemma findBrightPoints_dark_witness :
  findBrightPoints (black_px ++ black_px) 2 1 = Ok [].
Proof.
  apply (findBrightPoints_dark (black_px ++ black_px) 2 1).
  intros [|[|k]] Hk; [vm_compute; reflexivity.. |].
  cbn [length app black_px] in Hk. lia.
Defined.

(** X4: what the extractor computes.  A point is returned exactly for the
    scan positions [k] (pixel [x = k mod width], [y = k / width]) inside
    the buffer whose luma is above the brightness threshold and for which
    the gradient table holds, in row [x] at column [y], a value above the
    edge threshold: the edge value of the pixel at column [y], row [x].
    The point carries the pixel's coordinates, its luma and its three
    colour bytes divided by 255. *)
Theorem findBrightPoints_emits_iff (pixels : list Byte.byte)
    (width height : nat) (l : list BrightPoint) (p : BrightPoint) :
  findBrightPoints pixels width height = Ok l ->
  p ∈ l
  <-> exists k,
        4 * k < length pixels
        /\ 0 < width
        /\ p = mkBrightPoint (k mod width) (k / width) (luma pixels (4 * k))
                 (mkColor (pixel pixels (4 * k) / 255)%float
                          (pixel pixels (4 * k + 1) / 255)%float
                          (pixel pixels (4 * k + 2) / 255)%float)
        /\ gt (luma pixels (4 * k)) brightnessThreshold = true
        /\ exists v,
             edge_map_at pixels width height (k / width) (k mod width) = Some v
             /\ gt v edgeThreshold = true.
Proof.
  intros Hl.
  destruct (applySobelFilter_rows pixels width height) as (edges & Hedges & _).
  rewrite (findBrightPoints_elem_of pixels width height edges l p Hedges Hl).
  split; intros (k & Hk & H & H'); exists k; (split; [done|]).
  - subst p. rewrite (emits_transposed pixels width height edges k Hedges) in H.
    apply andb_true_iff in H as [[Hbright Hw]%andb_true_iff Hedge].
    apply negb_true_iff, Nat.eqb_neq in Hw.
    split; [lia|]. split; [done|]. split; [done|].
    destruct (edge_map_at _ _ _ _ _) as [v|]; [by exists v | done].
  - destruct H' as (-> & Hbright & v & Hv & Hgt). split; [|done].
    rewrite (emits_transposed pixels width height edges k Hedges).
    rewrite Hbright, Hv, Hgt.
    destruct (Nat.eqb_spec width 0); [lia | done].
Qed.

Lemma findBrightPoints_emits_iff_witness :
  findBrightPoints frame_edge 4 4
  = Ok [ mkBrightPoint 1 1 255%float (mkColor 1%float 1%float 1%float);
         mkBrightPoint 2 1 255%float (mkColor 1%float 1%float 1%float) ]
  /\ exists k,
       4 * k < length frame_edge /\ 0 < 4
       /\ mkBrightPoint 2 1 255%float (mkColor 1%float 1%float 1%float)
          = mkBrightPoint (k mod 4) (k / 4) (luma frame_edge (4 * k))
              (mkColor (pixel frame_edge (4 * k) / 255)%float
                       (pixel frame_edge (4 * k + 1) / 255)%float
                       (pixel frame_edge (4 * k + 2) / 255)%float)
       /\ gt (luma frame_edge (4 * k)) brightnessThreshold = true
       /\ exists v,
            edge_map_at frame_edge 4 4 (k / 4) (k mod 4) = Some v
            /\ gt v edgeThreshold = true.
Proof.
  split; [vm_compute; reflexivity|].
  apply (findBrightPoints_emits_iff frame_edge 4 4
           [ mkBrightPoint 1 1 255%float (mkColor 1%float 1%float 1%float);
             mkBrightPoint 2 1 255%float (mkColor 1%float 1%float 1%float) ]
           (mkBrightPoint 2 1 255%float (mkColor 1%float 1%float 1%float)));
    [vm_compute; reflexivity|].
  apply list_elem_of_further, list_elem_of_here.
Defined.

(** A byte divided by 255 is a number between 0 and 1. *)
Lemma byte_color_unit (b : Byte.byte) :
  (0 <=? of_byte b / 255)%float = true /\ (of_byte b / 255 <=? 1)%float = true.
Proof. destruct b; split; vm_compute; reflexivity. Qed.

(** X5: every point [findBrightPoints] returns has a finite brightness
    above the brightness threshold, equal to the luma of its pixel, and
    three colour components between 0 and 1. *)
Theorem findBrightPoints_point_values (pixels : list Byte.byte)
    (width height : nat) (l : list BrightPoint) (p : BrightPoint) :
  findBrightPoints pixels width height = Ok l -> p ∈ l ->
  brightness p = luma pixels (4 * (bp_y p * width + bp_x p))
  /\ gt (brightness p) brightnessThreshold = true
  /\ is_finite (brightness p) = true
  /\ Forall (fun c => (0 <=? c)%float = true /\ (c <=? 1)%float = true)
            [col_r (color p); col_g (color p); col_b (color p)].
Proof.
  intros Hl Hp.
  destruct (applySobelFilter_rows pixels width height) as (edges & Hedges & _).
  destruct (proj1 (findBrightPoints_elem_of pixels width height edges l p
                     Hedges Hl) Hp) as (k & Hk & Hemits & ->).
  destruct (proj1 (emits_iff pixels width height edges k Hedges) Hemits)
    as (Hbright & Hw & _).
  cbn [candidate bp_x bp_y brightness color col_r col_g col_b].
  pose proof (Nat.div_mod_eq k width) as Hdm.
  replace (k / width * width + k mod width) with k by lia.
  split; [done|]. split; [done|]. split; [by apply bright_finite in Hbright|].
  apply bright_in_range in Hbright as (b0 & b1 & b2 & H0 & H1 & H2).
  unfold pixel. rewrite H0, H1, H2.
  repeat constructor; apply byte_color_unit.
Qed.

Lemma findBrightPoints_point_values_witness :
  findBrightPoints frame_edge 4 4
  = Ok [ mkBrightPoint 1 1 255%float (mkColor 1%float 1%float 1%float);
         mkBrightPoint 2 1 255%float (mkColor 1%float 1%float 1%float) ]
  /\ gt 255%float brightnessThreshold = true.
Proof.
  split; [vm_compute; reflexivity|].
  apply (findBrightPoints_point_values frame_edge 4 4
           [ mkBrightPoint 1 1 255%float (mkColor 1%float 1%float 1%float);
             mkBrightPoint 2 1 255%float (mkColor 1%float 1%float 1%float) ]
           (mkBrightPoint 1 1 255%float (mkColor 1%float 1%float 1%float)));
    [vm_compute; reflexivity | apply list_elem_of_here].
Defined.

(** ** The alpha channel *)

Lemma for_each_ext {I S : Type} (f g : S -> I -> result S) (l : list I) (s : S) :
  (forall s i, i ∈ l -> f s i = g s i) -> for_each f s l = for_each g s l.
Proof.
  revert s. induction l as [|i l IH]; intros s Hfg; cbn [for_each]; [done|].
  rewrite (Hfg s i) by apply list_elem_of_here.
  destruct (g s i) as [s'|]; cbn [mbind result_bind]; [|done].
  apply IH. intros s0 i0 Hi0. apply Hfg. by apply list_elem_of_further.
Qed.

Section Alpha.
Variables pixels pixels' : list Byte.byte.
Hypothesis Hlen : length pixels = length pixels'.
Hypothesis Hrgb : forall i, i mod 4 <> 3 -> pixels !! i = pixels' !! i.

Lemma luma_rgb (i : nat) : i mod 4 = 0 -> luma pixels i = luma pixels' i.
Proof.
  intros Hi. unfold luma, pixel.
  assert (H1 : (i + 1) mod 4 = 1).
  { rewrite <- Nat.Div0.add_mod_idemp_l, Hi. done. }
  assert (H2 : (i + 2) mod 4 = 2).
  { rewrite <- Nat.Div0.add_mod_idemp_l, Hi. done. }
  rewrite !Hrgb by lia. done.
Qed.

Lemma sobel_sums_rgb (width x y : nat) :
  sobel_sums pixels width x y = sobel_sums pixels' width x y.
Proof.
  unfold sobel_sums. cbn [seq foldl]. unfold sobel_step.
  rewrite !luma_rgb by apply Nat.Div0.mod_mul. done.
Qed.

Lemma applySobelFilter_rgb (width height : nat) :
  applySobelFilter pixels width height = applySobelFilter pixels' width height.
Proof.
  unfold applySobelFilter.
  destruct (init_gradients width height) as [g0|]; cbn [mbind result_bind]; [|done].
  apply for_each_ext. intros g y _. apply for_each_ext. intros g' x _.
  by rewrite sobel_sums_rgb.
Qed.

Lemma scan_pixel_rgb (width : nat) (edges : grid) (acc : list BrightPoint)
    (k : nat) :
  scan_pixel pixels width edges acc k = scan_pixel pixels' width edges acc k.
Proof.
  unfold scan_pixel.
  assert (H0 : (4 * k) mod 4 = 0) by (rewrite Nat.mul_comm; apply Nat.Div0.mod_mul).
  assert (H1 : (4 * k + 1) mod 4 = 1).
  { rewrite <- Nat.Div0.add_mod_idemp_l, H0. done. }
  assert (H2 : (4 * k + 2) mod 4 = 2).
  { rewrite <- Nat.Div0.add_mod_idemp_l, H0. done. }
  rewrite (luma_rgb (4 * k) H0). unfold pixel. rewrite !Hrgb by lia. done.
Qed.

Lemma findBrightPoints_rgb (width height : nat) :
  findBrightPoints pixels width height = findBrightPoints pixels' width height.
Proof.
  unfold findBrightPoints. rewrite applySobelFilter_rgb.
  destruct (applySobelFilter pixels' width height) as [edges|];
    cbn [mbind result_bind]; [|done].
  unfold scan_indices. rewrite Hlen.
  apply for_each_ext. intros acc k _. apply scan_pixel_rgb.
Qed.
End Alpha.

(** X6: the alpha channel is not read: two buffers of the same length that
    agree on every red, green and blue byte give the same gradient table
    and the same result of [findBrightPoints]. *)
Theorem findBrightPoints_ignores_alpha (pixels pixels' : list Byte.byte)
    (width height : nat) :
  length pixels = length pixels' ->
  (forall i, i mod 4 <> 3 -> pixels !! i = pixels' !! i) ->
  applySobelFilter pixels width height = applySobelFilter pixels' width height
  /\ findBrightPoints pixels width height = findBrightPoints pixels' width height.
Proof.
  intros Hlen Hrgb. split.
  - by apply applySobelFilter_rgb.
  - by apply findBrightPoints_rgb.
Qed.

Lemma findBrightPoints_ignores_alpha_witness :
  frame_edge_clear <> frame_edge
  /\ findBrightPoints frame_edge_clear 4 4 = findBrightPoints frame_edge 4 4.
Proof.
  split; [intros H; vm_compute in H; discriminate|].
  apply (findBrightPoints_ignores_alpha frame_edge_clear frame_edge 4 4);
    [reflexivity|].
  intros i Hi.
  do 64 (destruct i as [|i];
         [first [reflexivity | exfalso; apply Hi; reflexivity]|]).
  reflexivity.
Defined.

(** X16: no pixel is reported twice: the points [findBrightPoints]
    returns have pairwise different coordinates, and there are at most as
    many of them as the buffer holds pixels. *)
Theorem findBrightPoints_NoDup (pixels : list Byte.byte) (width height : nat)
    (l : list BrightPoint) :
  findBrightPoints pixels width height = Ok l ->
  NoDup (map (fun p => (bp_x p, bp_y p)) l)
  /\ 4 * length l <= length pixels + 3.
Proof.
  destruct (findBrightPoints_eq pixels width height) as (edges & _ & ->).
  destruct (existsb _ _); [done|]. intros [= <-].
  set (ks := List.filter (emits pixels width edges) (scan_indices pixels)).
  assert (Hidx : map (pixel_index width) (map (candidate pixels width) ks) = ks).
  { rewrite map_map. rewrite <- (map_id ks) at 2. apply map_ext_in.
    intros k Hk. apply filter_In in Hk as [_ Hk].
    by apply (emits_pixel_index pixels width edges). }
  assert (Hnd : NoDup ks)
    by (apply NoDup_ListNoDup, List.NoDup_filter, NoDup_ListNoDup, NoDup_seq).
  split.
  - apply (NoDup_fmap_1 (fun c : nat * nat => snd c * width + fst c)).
    rewrite <- Hidx in Hnd.
    by rewrite <- list_fmap_compose.
  - rewrite length_map.
    pose proof (List.filter_length_le (emits pixels width edges)
                  (scan_indices pixels)) as Hle.
    fold ks in Hle. unfold scan_indices in Hle. rewrite length_seq in Hle.
    pose proof (Nat.div_mod_eq (length pixels + 3) 4). lia.
Qed.

Lemma findBrightPoints_NoDup_witness :
  NoDup [(1, 1); (2, 1)] /\ 4 * 2 <= length frame_edge + 3.
Proof.
  apply (findBrightPoints_NoDup frame_edge 4 4
           [ mkBrightPoint 1 1 255%float (mkColor 1%float 1%float 1%float);
             mkBrightPoint 2 1 255%float (mkColor 1%float 1%float 1%float) ]).
  vm_compute. reflexivity.
Defined.

(** * Further properties of the Point Ranker/Limiter *)

Local Open Scope Z_scope.

Lemma eqb_val (x y : float) :
  is_finite x = true -> is_finite y = true ->
  (x =? y)%float = (SFval prec emax (Prim2SF x) =? SFval prec emax (Prim2SF y)).
Proof.
  intros Hx Hy. rewrite is_finite_spec in Hx, Hy.
  rewrite FloatAxioms.eqb_spec. unfold SFeqb.
  rewrite (SFcompare_val prec emax) by (done || apply Prim2SF_valid).
  destruct (Z.compare_spec (SFval prec emax (Prim2SF x))
                           (SFval prec emax (Prim2SF y)));
    symmetry; [by apply Z.eqb_eq | apply Z.eqb_neq; lia..].
Qed.

Lemma eqb_is_finite (x c : float) :
  is_finite x = true -> (x =? c)%float = true -> is_finite c = true.
Proof.
  rewrite !is_finite_spec, FloatAxioms.eqb_spec. unfold SFeqb.
  destruct (Prim2SF x) as [sx|sx| |sx mx ex]; try done;
    destruct (Prim2SF c) as [sc|sc| |sc mc ec]; try done;
    destruct sx, sc; done.
Qed.

Local Close Scope Z_scope.

(** Two candidates that the sort exchanges do not have the same
    brightness. *)
Lemma same_brightness_not_lt (c : number) (a h : BrightPoint) :
  is_finite (brightness a) = true -> is_finite (brightness h) = true ->
  same_brightness c a = true -> same_brightness c h = true ->
  (brightness a <? brightness h)%float = false.
Proof.
  unfold same_brightness. intros Ha Hh Hac Hhc.
  pose proof (eqb_is_finite _ _ Ha Hac) as Hc.
  rewrite eqb_val in Hac, Hhc by done. rewrite ltb_val by done. lia.
Qed.

Lemma sort_insert_stable (c : number) (a : BrightPoint) (l : list BrightPoint) :
  is_finite (brightness a) = true ->
  Forall (fun p => is_finite (brightness p) = true) l ->
  List.filter (same_brightness c) (sort_insert by_brightness a l)
  = List.filter (same_brightness c) (a :: l).
Proof.
  intros Ha Hl. induction l as [|h t IH]; cbn [sort_insert]; [done|].
  apply Forall_cons in Hl as [Hh Ht].
  rewrite by_brightness_gt by done.
  destruct (brightness a <? brightness h)%float eqn:Hlt; [|done].
  cbn [List.filter] in *. rewrite (IH Ht).
  destruct (same_brightness c h) eqn:Hhc; [|done].
  destruct (same_brightness c a) eqn:Hac; [|done].
  by rewrite (same_brightness_not_lt c a h) in Hlt.
Qed.

Lemma array_sort_stable (c : number) (l : list BrightPoint) :
  Forall (fun p => is_finite (brightness p) = true) l ->
  List.filter (same_brightness c) (array_sort by_brightness l)
  = List.filter (same_brightness c) l.
Proof.
  induction l as [|a l IH]; intros Hfin; cbn [array_sort foldr]; [done|].
  apply Forall_cons in Hfin as [Ha Hl].
  fold (array_sort by_brightness l).
  rewrite sort_insert_stable;
    [|done | by rewrite (array_sort_perm by_brightness l)].
  cbn [List.filter]. by rewrite (IH Hl).
Qed.

(** X7: the ranking is stable.  Among the candidates of any one
    brightness, the ranked list holds the first ones in scan order, in scan
    order: what it keeps of them is a prefix of the list of all of them. *)
Theorem rank_stable (brightPoints : list BrightPoint) (c : number) :
  Forall (fun p => is_finite (brightness p) = true) brightPoints ->
  List.filter (same_brightness c) (rank brightPoints)
  `prefix_of` List.filter (same_brightness c) brightPoints.
Proof.
  intros Hfin. rewrite rank_take.
  rewrite <- (array_sort_stable c brightPoints Hfin).
  exists (List.filter (same_brightness c)
            (drop maxBrightPoints (array_sort by_brightness brightPoints))).
  rewrite <- List.filter_app. by rewrite take_drop.
Qed.

Lemma rank_stable_witness :
  List.filter (same_brightness 201%float) (rank sample_candidates)
  = [ mkBrightPoint 0 0 201%float (mkColor 1%float 1%float 1%float) ]
  /\ List.filter (same_brightness 201%float) (rank sample_candidates)
     `prefix_of` List.filter (same_brightness 201%float) sample_candidates.
Proof.
  split; [vm_compute; reflexivity|].
  apply (rank_stable sample_candidates 201%float). repeat constructor.
Defined.

(** A list in descending order of brightness is left as it is by the
    sort. *)
Lemma array_sort_sorted_id (l : list BrightPoint) :
  Forall (fun p => is_finite (brightness p) = true) l ->
  StronglySorted brighter_eq l -> array_sort by_brightness l = l.
Proof.
  induction l as [|a l IH]; intros Hfin Hsorted; cbn [array_sort foldr]; [done|].
  apply Forall_cons in Hfin as [Ha Hl].
  apply StronglySorted_cons in Hsorted as [Hhead Htail].
  fold (array_sort by_brightness l). rewrite (IH Hl Htail).
  destruct l as [|h t]; cbn [sort_insert]; [done|].
  apply Forall_cons in Hl as [Hh _]. apply Forall_cons in Hhead as [Hah _].
  rewrite by_brightness_gt by done.
  unfold brighter_eq in Hah. rewrite leb_val in Hah by done.
  rewrite ltb_val by done.
  by replace (_ <? _)%Z with false by lia.
Qed.

(** X8: ranking a ranked list changes nothing: the list handed to the
    particle buffer is a fixed point of the sort and the truncation. *)
Theorem rank_idempotent (brightPoints : list BrightPoint) :
  Forall (fun p => is_finite (brightness p) = true) brightPoints ->
  rank (rank brightPoints) = rank brightPoints.
Proof.
  intros Hfin.
  pose proof (array_sort_sorted brightPoints Hfin) as Hsorted.
  rewrite <- (take_drop maxBrightPoints) in Hsorted.
  apply StronglySorted_app in Hsorted as (_ & Htake & _).
  rewrite (rank_take brightPoints).
  rewrite (rank_take (take _ _)).
  rewrite array_sort_sorted_id; [by rewrite take_take, Nat.min_id | | done].
  apply Forall_take.
  by rewrite (array_sort_perm by_brightness brightPoints).
Qed.

Lemma rank_idempotent_witness :
  length (rank sample_candidates) = 5
  /\ rank (rank sample_candidates) = rank sample_candidates.
Proof.
  split; [vm_compute; reflexivity|].
  apply (rank_idempotent sample_candidates). repeat constructor.
Defined.

(** * Further properties of the Projector *)

Local Open Scope Z_scope.

(** A positive integer below 2^53 is a positive finite number. *)
Lemma of_nat_pos (n : nat) :
  (0 < n)%nat -> Z.of_nat n < 2 ^ 53 ->
  exists m e, Prim2SF (of_nat n) = S754_finite false m e.
Proof.
  intros Hn Hlt.
  destruct (of_nat_spec n Hlt) as [[-> _]|(m & e & H & _)]; [lia|].
  by exists m, e.
Qed.

Lemma div_zero_pos (s : bool) (z w : float) :
  Prim2SF z = S754_zero s ->
  (exists m e, Prim2SF w = S754_finite false m e) ->
  (z / w)%float = z.
Proof.
  intros Hz (m & e & Hw). apply Prim2SF_inj.
  rewrite div_spec, Hz, Hw. unfold SF64div. cbn [SFdiv]. by destruct s.
Qed.

Lemma div_pos_zero (s : bool) (x : float) :
  (exists m e, Prim2SF x = S754_finite s m e) ->
  (x / 0)%float = if s then neg_infinity else infinity.
Proof.
  intros (m & e & Hx). apply Prim2SF_inj.
  rewrite div_spec, Hx. change (Prim2SF 0) with (S754_zero false).
  unfold SF64div. cbn [SFdiv]. by destruct s.
Qed.

Local Close Scope Z_scope.

(** X9: the first column of a frame maps to x = -1 and its first row to
    y = 1, exactly, whatever the dimensions (positive, below 2^53): pixel
    (0, 0) is projected to the corner (-1, 1, 0). *)
Theorem convertToWorldPosition_first_column_row (width height : nat) :
  0 < width -> 0 < height ->
  (Z.of_nat width < 2 ^ 53)%Z -> (Z.of_nat height < 2 ^ 53)%Z ->
  (forall y h : number,
      vx (convertToWorldPosition (of_nat 0) y (of_nat width) h) = (-1)%float)
  /\ (forall x w : number,
        vy (convertToWorldPosition x (of_nat 0) w (of_nat height)) = 1%float)
  /\ convertToWorldPosition (of_nat 0) (of_nat 0) (of_nat width) (of_nat height)
     = mkVector3 (-1)%float 1%float 0%float.
Proof.
  intros Hw Hh Hw' Hh'.
  assert (Hx : (of_nat 0 / of_nat width)%float = 0%float).
  { apply (div_zero_pos false); [done | by apply of_nat_pos]. }
  assert (Hy : (- of_nat 0 / of_nat height)%float = (-0)%float).
  { apply (div_zero_pos true); [done | by apply of_nat_pos]. }
  unfold convertToWorldPosition. cbn [vx vy]. rewrite Hx, Hy.
  repeat split.
Qed.

Lemma convertToWorldPosition_first_column_row_witness :
  convertToWorldPosition (of_nat 0) (of_nat 0) (of_nat 640) (of_nat 480)
  = mkVector3 (-1)%float 1%float 0%float.
Proof.
  apply (convertToWorldPosition_first_column_row 640 480); [lia | lia | done | done].
Defined.

(** X10: the Projector does not fail on a frame of width 0 or height 0:
    the division by zero gives NaN for coordinate 0 and an infinity for
    any other coordinate, so the normalized coordinate is not a finite
    number. *)
Theorem convertToWorldPosition_zero_dimension (x y : nat) (w h : number) :
  (Z.of_nat x < 2 ^ 53)%Z -> (Z.of_nat y < 2 ^ 53)%Z ->
  vx (convertToWorldPosition (of_nat x) (of_nat y) (of_nat 0) h)
  = (if x =? 0 then nan else infinity)
  /\ vy (convertToWorldPosition (of_nat x) (of_nat y) w (of_nat 0))
     = (if y =? 0 then nan else neg_infinity).
Proof.
  intros Hx Hy. unfold convertToWorldPosition. cbn [vx vy].
  change (of_nat 0) with 0%float. split.
  - destruct (Nat.eqb_spec x 0) as [->|Hx0]; [done|].
    rewrite (div_pos_zero false); [done|]. apply of_nat_pos; [lia | done].
  - destruct (Nat.eqb_spec y 0) as [->|Hy0]; [done|].
    rewrite (div_pos_zero true); [done|].
    destruct (of_nat_pos y) as (m & e & He); [lia | done |].
    exists m, e. by rewrite opp_spec, He.
Qed.

Lemma convertToWorldPosition_zero_dimension_witness :
  vx (convertToWorldPosition (of_nat 3) (of_nat 0) (of_nat 0) (of_nat 0)) = infinity
  /\ vy (convertToWorldPosition (of_nat 3) (of_nat 0) (of_nat 0) (of_nat 0)) = nan.
Proof.
  apply (convertToWorldPosition_zero_dimension 3 0 (of_nat 0) (of_nat 0)); done.
Defined.

(** ** The centre of a frame *)

Local Open Scope Z_scope.

(** A positive integer below 2^53 is a normal number: its mantissa has 53
    digits. *)
Lemma of_nat_normal (n : nat) :
  (0 < n)%nat -> Z.of_nat n < 2 ^ 53 ->
  exists m e,
    Prim2SF (of_nat n) = S754_finite false m e
    /\ Zpos (digits2_pos m) = 53 /\ emin < e <= 0
    /\ Zpos m * 2 ^ (e - emin) = Z.of_nat n * 2 ^ (0 - emin).
Proof.
  intros Hn Hlt.
  destruct (of_nat_spec n Hlt) as [[-> _]|(m & e & Hp & He & Hv)]; [lia|].
  exists m, e. split; [done|].
  pose proof (Prim2SF_valid (of_nat n)) as Hvalid. rewrite Hp in Hvalid.
  apply valid_finite in Hvalid as (Hd & _ & Hnorm).
  assert (Hgt : emin < e).
  { destruct (Z.le_gt_cases e emin) as [Hle|]; [|done]. exfalso.
    assert (e = emin) as -> by lia.
    rewrite Z.sub_diag, Z.mul_1_r in Hv.
    pose proof (digits2_pos_bounds m) as [_ Hub].
    assert (2 ^ Zpos (digits2_pos m) <= 2 ^ 53)
      by (apply Z.pow_le_mono_r; [done | exact Hd]).
    assert (2 ^ 53 <= Z.of_nat n * 2 ^ (0 - emin)).
    { etrans; [|apply (Z.mul_le_mono_nonneg_r 1); [done | lia]].
      by vm_compute. }
    lia. }
  split; [by apply Hnorm|]. split; [lia | done].
Qed.

(** Half of an integer: [n / (2 * n)] is 0.5. *)
Lemma half_quotient (n : nat) :
  (0 < n)%nat -> Z.of_nat (2 * n) < 2 ^ 53 ->
  (of_nat n / of_nat (2 * n))%float = 0.5%float.
Proof.
  intros Hn Hlt.
  destruct (of_nat_normal n Hn) as (m & e & Hp & Hd & He & Hv); [lia|].
  destruct (of_nat_normal (2 * n)%nat) as (m2 & e2 & Hp2 & Hd2 & He2 & Hv2);
    [lia | done |].
  (* the two numbers have the same mantissa *)
  assert (Hsame : m2 = m /\ e2 = e + 1).
  { pose proof (digits2_pos_bounds m) as [Hlo Hhi].
    pose proof (digits2_pos_bounds m2) as [Hlo2 Hhi2].
    rewrite Hd in Hlo, Hhi. rewrite Hd2 in Hlo2, Hhi2.
    assert (Heq : Zpos m2 * 2 ^ (e2 - emin) = Zpos m * 2 ^ (e + 1 - emin)).
    { replace (e + 1 - emin) with (Z.succ (e - emin)) by lia.
      rewrite Z.pow_succ_r by lia. rewrite Hv2, Nat2Z.inj_mul.
      change (Z.of_nat 2) with 2. lia. }
    destruct (Z.lt_trichotomy e2 (e + 1)) as [Hlt'|[Heq'|Hgt']].
    - exfalso.
      replace (e + 1 - emin) with ((e + 1 - e2) + (e2 - emin)) in Heq by lia.
      rewrite Z.pow_add_r, Z.mul_assoc in Heq by lia.
      apply Z.mul_cancel_r in Heq;
        [|apply Z.pow_nonzero; lia].
      assert (2 <= 2 ^ (e + 1 - e2))
        by (change 2 with (2 ^ 1) at 1; apply Z.pow_le_mono_r; lia).
      change (2 ^ (53 - 1)) with 4503599627370496 in *.
      change (2 ^ 53) with 9007199254740992 in *. nia.
    - subst e2. apply Z.mul_cancel_r in Heq;
        [|apply Z.pow_nonzero; lia].
      split; [congruence | done].
    - exfalso.
      replace (e2 - emin) with ((e2 - (e + 1)) + (e + 1 - emin)) in Heq by lia.
      rewrite Z.pow_add_r, Z.mul_assoc in Heq by lia.
      apply Z.mul_cancel_r in Heq;
        [|apply Z.pow_nonzero; lia].
      assert (2 <= 2 ^ (e2 - (e + 1)))
        by (change 2 with (2 ^ 1) at 1; apply Z.pow_le_mono_r; lia).
      change (2 ^ (53 - 1)) with 4503599627370496 in *.
      change (2 ^ 53) with 9007199254740992 in *. nia. }
  destruct Hsame as [-> ->].
  apply Prim2SF_inj. rewrite div_spec, Hp, Hp2.
  unfold SF64div. cbn [SFdiv]. unfold SFdiv_core_binary.
  cbn [Zdigits2]. rewrite Hd.
  replace (53 + e - (53 + (e + 1))) with (-1) by lia.
  replace (e - (e + 1)) with (-1) by lia.
  change (Z.min (fexp prec emax (-1)) (-1)) with (-54).
  change (-1 - -54) with 53.
  rewrite Z.shiftl_mul_pow2 by done.
  assert (Hdiv : Z.div_eucl (Zpos m * 2 ^ 53) (Zpos m) = (2 ^ 53, 0)).
  { pose proof (Z.div_mul (2 ^ 53) (Zpos m) ltac:(done)) as Hq.
    pose proof (Z.mod_mul (2 ^ 53) (Zpos m) ltac:(done)) as Hr.
    rewrite (Z.mul_comm (Zpos m)).
    unfold Z.div, Z.modulo in Hq, Hr.
    destruct (Z.div_eucl (2 ^ 53 * Zpos m) (Zpos m)) as [q r].
    cbn [fst snd] in *. by subst. }
  rewrite Hdiv.
  assert (Hloc : new_location (Zpos m) 0 = loc_Exact).
  { unfold new_location, new_location_even, new_location_odd.
    by destruct (Z.even (Zpos m)). }
  rewrite Hloc. by vm_compute.
Qed.

Local Close Scope Z_scope.

(** X22: the centre of a frame maps to the origin.  For a frame of even
    width 2 * n and even height 2 * m (below 2^53), the pixel (n, m) is
    projected to (0, 0, 0) exactly. *)
Theorem convertToWorldPosition_centre (n m : nat) :
  0 < n -> 0 < m ->
  (Z.of_nat (2 * n) < 2 ^ 53)%Z -> (Z.of_nat (2 * m) < 2 ^ 53)%Z ->
  convertToWorldPosition (of_nat n) (of_nat m) (of_nat (2 * n)) (of_nat (2 * m))
  = mkVector3 0%float 0%float 0%float.
Proof.
  intros Hn Hm Hn' Hm'. unfold convertToWorldPosition.
  rewrite opp_div, !half_quotient by done. reflexivity.
Qed.

Lemma convertToWorldPosition_centre_witness :
  convertToWorldPosition (of_nat 320) (of_nat 240) (of_nat 640) (of_nat 480)
  = mkVector3 0%float 0%float 0%float.
Proof.
  apply (convertToWorldPosition_centre 320 240); [lia | lia | done | done].
Defined.

(** * Further properties of the driver *)

Lemma step_reached (n : nat) (d : detector) (e : event) :
  reached n d -> reached (n + frames [e]) (step d e).
Proof.
  intros [(Ha & Hs & Ht)|[(Ha & Hs & Ht)|(Ha & ws & Hn & Ht)]].
  - destruct e as [| |v]; cbn [step]; rewrite ?Ha, ?Hs;
      cbn [acquiring scheduled trace].
    + right. right. split; [done|]. exists []. split; [cbn; lia | by rewrite Ht].
    + right. left. by rewrite Ht.
    + left. done.
  - right. left. destruct e as [| |v]; cbn [step]; by rewrite ?Ha, ?Hs.
  - right. right.
    assert (Hsame : exists ws', length ws' <= n + frames [e]
                                /\ trace d = [GetUserMedia; Play; RequestFrame]
                                             ++ concat (map frame_effects ws'))
      by (exists ws; split; [lia | done]).
    destruct e as [| |v]; cbn [step]; rewrite ?Ha; [done | done |].
    destruct (scheduled d); [|done].
    unfold detectReflections. cbn [positions acquiring scheduled trace].
    destruct (readyState v =? HAVE_ENOUGH_DATA).
    + destruct (context v); [|done].
      destruct ((videoWidth v =? 0) || (videoHeight v =? 0)); [done|].
      destruct (findBrightPoints _ _ _); [|done].
      cbn [acquiring trace]. split; [done|]. exists (ws ++ [true]).
      rewrite length_app, Ht, map_app, concat_app, <- app_assoc.
      split; [cbn; lia | done].
    + cbn [acquiring trace]. split; [done|]. exists (ws ++ [false]).
      rewrite length_app, Ht, map_app, concat_app, <- app_assoc.
      split; [cbn; lia | done].
Qed.

Lemma run_reached (es : list event) : reached (frames es) (run construct es).
Proof.
  induction es as [|e es IH] using rev_ind.
  - left. done.
  - unfold run, frames in *. rewrite foldl_app, List.filter_app, length_app.
    cbn [foldl]. by apply step_reached.
Qed.

(** X11: what the driver does, in order, over any sequence of events: it
    requests the camera once, first; then either nothing more, or it
    reports the failure once and does nothing more, or it plays the video
    once and registers a frame callback, after which every frame callback
    that runs to its end adds a request for the next frame, preceded by a
    pass when the video had enough data.  There is at most one pass per
    frame callback, and none before the camera was granted. *)
Theorem run_trace (es : list event) :
  let d := run construct es in
  trace d = [GetUserMedia]
  \/ trace d = [GetUserMedia; ConsoleError]
  \/ exists ws, length ws <= frames es
                /\ trace d = [GetUserMedia; Play; RequestFrame]
                             ++ concat (map frame_effects ws).
Proof.
  cbn zeta.
  destruct (run_reached es) as [(_ & _ & H)|[(_ & _ & H)|(_ & H)]]; auto.
Qed.

(** X12: a frame callback that does not run to its end stops the driver
    for good.  When the video has enough data and the canvas has no 2d
    context, or the frame is empty, or [findBrightPoints] throws, no
    callback is registered any more: the particle buffer and the trace
    stay as they were before that frame, whatever events follow. *)
Theorem failing_frame_stops_driver (d : detector) (v : video) (es : list event) :
  acquiring d = false -> scheduled d = true -> fails v = true ->
  run d (Frame v :: es)
  = mkDetector (positions d) false false (trace d).
Proof.
  intros Ha Hs Hfail. cbn [run foldl step]. rewrite Hs.
  assert (Hstep : detectReflections
                    (mkDetector (positions d) (acquiring d) false (trace d)) v
                  = mkDetector (positions d) false false (trace d)).
  { unfold fails in Hfail. unfold detectReflections. rewrite Ha.
    apply andb_true_iff in Hfail as [-> Hfail].
    destruct (context v); [|done].
    destruct ((videoWidth v =? 0) || (videoHeight v =? 0)) eqn:Hzero.
    - done.
    - apply orb_false_iff in Hzero as [Hw Hh].
      rewrite Hw, Hh in Hfail. cbn [negb orb] in Hfail.
      by destruct (findBrightPoints _ _ _). }
  rewrite Hstep. by apply run_idle.
Qed.

Lemma failing_frame_stops_driver_witness :
  fails video_2x1 = true
  /\ run construct [Resolved; Frame video_2x1; Frame video_edge; Resolved]
     = mkDetector initParticleSystem false false
         [GetUserMedia; Play; RequestFrame].
Proof.
  split; [vm_compute; reflexivity|].
  apply (failing_frame_stops_driver (step construct Resolved) video_2x1
           [Frame video_edge; Resolved]);
    [reflexivity | reflexivity | vm_compute; reflexivity].
Defined.

(** X13: while the video does not have enough data, every frame callback
    registers the next one and does nothing else: after any number of
    such frames the particle buffer is unchanged, a callback is
    registered, and the trace has grown by one request per frame. *)
Theorem waiting_frames_reschedule (d : detector) (vs : list video) :
  scheduled d = true ->
  Forall (fun v => readyState v <> HAVE_ENOUGH_DATA) vs ->
  run d (map Frame vs)
  = mkDetector (positions d) (acquiring d) true
      (trace d ++ replicate (length vs) RequestFrame).
Proof.
  intros Hs Hvs. revert d Hs.
  induction Hvs as [|v vs Hv Hvs IH]; intros d Hs; cbn [map run foldl length replicate].
  - rewrite app_nil_r. by destruct d; cbn in *; subst.
  - cbn [step]. rewrite Hs. unfold detectReflections.
    apply Nat.eqb_neq in Hv. rewrite Hv.
    cbn [positions acquiring scheduled trace].
    unfold run in IH. rewrite IH by done.
    cbn [positions acquiring scheduled trace].
    by rewrite <- app_assoc.
Qed.

Lemma waiting_frames_reschedule_witness :
  run construct [Resolved; Frame (mkVideo 1 0 0 true []); Frame (mkVideo 2 4 4 true [])]
  = mkDetector initParticleSystem false true
      [GetUserMedia; Play; RequestFrame; RequestFrame; RequestFrame].
Proof.
  apply (waiting_frames_reschedule (step construct Resolved)
           [mkVideo 1 0 0 true []; mkVideo 2 4 4 true []]);
    [reflexivity|].
  repeat constructor; discriminate.
Defined.

(** ** Particles are placed and never removed *)

Lemma placed_update (m : nat) (width height : nat)
    (brightPoints : list BrightPoint) (buffer : list number) :
  length buffer = maxBrightPoints * 3 -> placed m buffer ->
  placed (Nat.max m (length (rank brightPoints)))
         (updateParticleSystem width height brightPoints buffer).
Proof.
  intros Hlen Hplaced i Hi.
  destruct (decide (i < length (rank brightPoints))) as [Hin|Hout].
  - destruct (lookup_lt_is_Some_2 (rank brightPoints) i Hin) as [p Hp].
    rewrite (updateParticleSystem_written width height brightPoints buffer i 2 p);
      [|done | lia | unfold maxBrightPoints in *; lia].
    replace (i <? Nat.max m (length (rank brightPoints))) with true
      by (symmetry; apply Nat.ltb_lt; lia).
    done.
  - rewrite updateParticleSystem_kept by lia. rewrite (Hplaced i Hi).
    destruct (Nat.ltb_spec i m);
      [replace (i <? Nat.max m _) with true by (symmetry; apply Nat.ltb_lt; lia)
      |replace (i <? Nat.max m _) with false by (symmetry; apply Nat.ltb_ge; lia)];
      done.
Qed.

Lemma placed_step (m : nat) (d : detector) (e : event) :
  length (positions d) = maxBrightPoints * 3 -> m <= maxBrightPoints ->
  placed m (positions d) ->
  exists m', m <= m' <= maxBrightPoints /\ placed m' (positions (step d e)).
Proof.
  intros Hlen Hm Hplaced.
  assert (Hsame : exists m', m <= m' <= maxBrightPoints /\ placed m' (positions d))
    by (exists m; split; [lia | done]).
  destruct e as [| |v]; cbn [step].
  - by destruct (acquiring d).
  - by destruct (acquiring d).
  - destruct (scheduled d); [|done]. unfold detectReflections.
    destruct (readyState v =? HAVE_ENOUGH_DATA); [|done].
    destruct (context v); [|done].
    destruct ((videoWidth v =? 0) || (videoHeight v =? 0)); [done|].
    destruct (findBrightPoints _ _ _) as [brightPoints|]; [|done].
    cbn [positions].
    exists (Nat.max m (length (rank brightPoints))). split.
    + pose proof (length_rank brightPoints). lia.
    + by apply placed_update.
Qed.

Lemma placed_run (es : list event) (m : nat) (d : detector) :
  length (positions d) = maxBrightPoints * 3 -> m <= maxBrightPoints ->
  placed m (positions d) ->
  exists m', m <= m' <= maxBrightPoints /\ placed m' (positions (run d es)).
Proof.
  revert m d. induction es as [|e es IH]; intros m d Hlen Hm Hplaced;
    cbn [run foldl].
  - exists m. split; [lia | done].
  - destruct (placed_step m d e Hlen Hm Hplaced) as (m1 & Hm1 & Hplaced1).
    destruct (IH m1 (step d e)) as (m' & Hm' & Hplaced');
      [by rewrite length_positions_step | lia | done |].
    exists m'. split; [lia | done].
Qed.

(** X14: particles are placed and never removed.  After any sequence of
    events the first [m] particles of the buffer, for some [m], have the z
    component 0 - projectionDistance (as a binary32 number, about -0.1) of
    a projected point, and the other ones still have the z component 0 of
    [initParticleSystem]; whatever events follow, [m] does not
    decrease. *)
Theorem particles_never_removed (es es' : list event) :
  (depth <? 0)%float = true
  /\ exists m m',
       m <= m' <= maxBrightPoints
       /\ placed m (positions (run construct es))
       /\ placed m' (positions (run construct (es ++ es'))).
Proof.
  split; [vm_compute; reflexivity|].
  destruct (placed_run es 0 construct) as (m & Hm & Hplaced);
    [done | unfold maxBrightPoints; lia | |].
  { intros i Hi. unfold maxBrightPoints in Hi. cbn [construct positions].
    do 5 (destruct i as [|i]; [reflexivity|]). lia. }
  destruct (placed_run es' m (run construct es)) as (m' & Hm' & Hplaced');
    [by rewrite length_positions_run | lia | done |].
  exists m, m'. split; [lia|]. split; [done|].
  unfold run in *. by rewrite foldl_app.
Qed.

(** * The numbers in the particle buffer *)

Local Open Scope Z_scope.

(** ** The mantissa of a rounded number *)

Lemma shr_1_ub_one (mrs : shr_record) :
  0 <= shr_m mrs -> mrs_ub mrs <= 1 ->
  0 <= shr_m (shr_1 mrs) /\ mrs_ub (shr_1 mrs) <= 1.
Proof.
  intros Hm Hub. destruct mrs as [m r s]. unfold mrs_ub in *.
  cbn [shr_m shr_r shr_s] in *.
  destruct m as [|[p|p|]|p]; cbn [shr_1 shr_m shr_r shr_s]; try lia;
    destruct r, s; cbn [orb] in *; lia.
Qed.

Lemma shr_iter_ub_one (n : nat) (mrs : shr_record) :
  0 <= shr_m mrs -> mrs_ub mrs <= 1 ->
  0 <= shr_m (Nat.iter n shr_1 mrs) /\ mrs_ub (Nat.iter n shr_1 mrs) <= 1.
Proof.
  intros Hm Hub. induction n as [|n IH]; [done|].
  rewrite Nat.iter_succ. destruct IH. by apply shr_1_ub_one.
Qed.

Lemma shr_iter_ub_any (n : nat) (mrs : shr_record) (j : Z) :
  0 <= shr_m mrs -> mrs_ub mrs <= 2 ^ j -> 0 <= j ->
  0 <= shr_m (Nat.iter n shr_1 mrs)
  /\ mrs_ub (Nat.iter n shr_1 mrs) <= 2 ^ Z.max (j - Z.of_nat n) 0.
Proof.
  intros Hm Hub Hj. destruct (Z.le_gt_cases (Z.of_nat n) j) as [Hn|Hn].
  - rewrite Z.max_l by lia. by apply shr_iter_ub.
  - rewrite Z.max_r by lia.
    replace n with ((n - Z.to_nat j) + Z.to_nat j)%nat by lia.
    rewrite Nat.iter_add.
    destruct (shr_iter_ub (Z.to_nat j) mrs j Hm Hub) as [Hm' Hub']; [lia|].
    rewrite Z2Nat.id, Z.sub_diag in Hub' by done.
    by apply shr_iter_ub_one.
Qed.

Section Mantissa.
Variables prec emax : Z.
Hypothesis Hprec : 1 <= prec.

(** After the shift to the exponent of the format the mantissa has at most
    [prec] digits. *)
Lemma shr_fexp_mantissa (m e : Z) (l : location) :
  0 <= m ->
  0 <= shr_m (fst (shr_fexp prec emax m e l))
  /\ mrs_ub (fst (shr_fexp prec emax m e l)) <= 2 ^ prec.
Proof.
  intros Hm. unfold shr_fexp. rewrite shr_spec. cbn [fst].
  destruct (mrs_ub_of_loc m l) as [Hub0 Hm0].
  set (d := Zdigits2 m).
  set (n := fexp prec emax (d + e) - e).
  assert (Hd : 0 <= d /\ m + loc_ub l <= 2 ^ d).
  { unfold d. destruct m as [|p|p]; cbn [Zdigits2]; [|
      pose proof (digits2_pos_bounds p); destruct l; cbn [loc_ub]; lia | lia].
    destruct l; cbn [loc_ub]; cbn; lia. }
  destruct Hd as [Hd Hub].
  destruct (shr_iter_ub_any (Z.to_nat n) (shr_record_of_loc m l) d)
    as [Hm1 Hub1]; [lia | lia | done |].
  split; [done|].
  eapply Z.le_trans; [exact Hub1|].
  apply Z.pow_le_mono_r; [lia|]. unfold n, fexp. lia.
Qed.

Lemma binary_round_aux_mantissa (s : bool) (m e : Z) (l : location)
    (s' : bool) (m' : positive) (e' : Z) :
  0 <= m ->
  binary_round_aux prec emax s m e l = S754_finite s' m' e' ->
  Zpos m' <= 2 ^ prec.
Proof.
  intros Hm. unfold binary_round_aux.
  destruct (shr_fexp_mantissa m e l Hm) as [Hm1 _].
  destruct (shr_fexp prec emax m e l) as [mrs1 e1]. cbn [fst] in Hm1.
  pose proof (round_nearest_even_bounds mrs1) as Hr.
  set (m2 := round_nearest_even (shr_m mrs1) (loc_of_shr_record mrs1)) in *.
  destruct (shr_fexp_mantissa m2 e1 loc_Exact) as [Hm3 Hub3]; [lia|].
  destruct (shr_fexp prec emax m2 e1 loc_Exact) as [mrs3 e3]. cbn [fst] in *.
  assert (shr_m mrs3 <= mrs_ub mrs3) by (unfold mrs_ub; destruct (_ || _); lia).
  destruct (shr_m mrs3) as [|p|p]; [done| |done].
  destruct (e3 <=? emax - prec); [|done]. intros [= _ <- _]. lia.
Qed.
End Mantissa.

(** ** A store into the Float32Array *)

(** The number that [SF2Prim] builds from a mantissa of at most 53 digits
    and an exponent. *)
Lemma SF2Prim_bounded (s : bool) (m : positive) (e k : Z) :
  Zpos m < 2 ^ 53 -> Zpos m <= 2 ^ (k - e) -> e <= 0 ->
  emin <= k -> k + 1 <= emax ->
  bounded_by s k (Prim2SF (SF2Prim (S754_finite s m e))).
Proof.
  intros Hm Hub He Hk Hk'. cbn [SF2Prim].
  assert (Hf : bounded_by false k
                 (Prim2SF (Z.ldexp (of_uint63 (Uint63.of_Z (Zpos m))) e))).
  { rewrite Z_ldexp_spec.
    destruct (of_int_spec (Zpos m)) as [[? _]|(mz & ez & -> & Hez & Hmz)];
      [lia | done |].
    cbn [SFldexp].
    assert (Hke : 0 <= k - e).
    { destruct (Z.le_gt_cases 0 (k - e)); [done|].
      rewrite Z.pow_neg_r in Hub by lia. lia. }
    apply (binary_round_ub prec emax prec_ge_1 prec_lt_emax);
      [|done | done | clear - Hez He; unfold emax, prec in *; lia].
    assert (Hp : 0 < 2 ^ (ez - emin)) by (apply Z.pow_pos_nonneg; lia).
    apply (Z.mul_le_mono_pos_r _ _ (2 ^ (ez - emin))); [done|].
    rewrite Hmz, <- Z.pow_add_r by lia.
    replace (k - (ez + e) + (ez - emin)) with (k - e + (0 - emin)) by lia.
    rewrite Z.pow_add_r by (try done; lia).
    apply Z.mul_le_mono_nonneg_r; [apply Z.pow_nonneg; lia | done]. }
  destruct s; [|done]. rewrite opp_spec.
  destruct (Prim2SF _) as [s0|s0| |s0 m0 e0]; try done;
    cbn [SFopp bounded_by] in *; [by subst|].
  destruct Hf as [-> ?]. done.
Qed.

(** A number of magnitude at most 1 is stored as a number of magnitude at
    most 1. *)
Lemma fround_bounded (v : float) :
  (exists s, bounded_by s 0 (Prim2SF v)) ->
  exists s, bounded_by s 0 (Prim2SF (fround v)).
Proof.
  intros [s Hb]. unfold fround.
  destruct (Prim2SF v) as [s0|s0| |s0 m e] eqn:Hv; try done.
  - exists s. by rewrite Hv.
  - destruct Hb as [-> Hub].
    assert (He : e <= 0).
    { destruct (Z.le_gt_cases e 0); [done|].
      rewrite Z.pow_neg_r in Hub by lia. lia. }
    pose proof (binary_round_aux_ub 24 128 ltac:(lia) ltac:(lia)
                  s (Zpos m) e loc_Exact 0) as Hr.
    pose proof (binary_round_aux_mantissa 24 128 ltac:(lia)
                  s (Zpos m) e loc_Exact) as Hmant.
    destruct (binary_round_aux 24 128 s (Zpos m) e loc_Exact)
      as [s1|s1| |s1 m1 e1].
    + exists s1. by destruct s1.
    + exfalso. apply Hr; cbn [loc_ub]; (done || lia).
    + exfalso. apply Hr; cbn [loc_ub]; (done || lia).
    + destruct Hr as [-> Hub1]; [cbn [loc_ub]; (done || lia)..|].
      specialize (Hmant s m1 e1 ltac:(lia) eq_refl).
      exists s. apply SF2Prim_bounded; try done.
      * eapply Z.le_lt_trans; [exact Hmant | done].
      * destruct (Z.le_gt_cases e1 0); [done|].
        rewrite Z.pow_neg_r in Hub1 by lia. lia.
Qed.

(** Both normalized coordinates of a pixel of a frame have a magnitude of
    at most 1. *)
Lemma normalized_bounded (x y width height : nat) :
  (x < width)%nat -> (y < height)%nat ->
  Z.of_nat width < 2 ^ 53 -> Z.of_nat height < 2 ^ 53 ->
  let v := convertToWorldPosition (of_nat x) (of_nat y) (of_nat width) (of_nat height) in
  (exists s, bounded_by s 0 (Prim2SF (vx v)))
  /\ (exists s, bounded_by s 0 (Prim2SF (vy v))).
Proof.
  intros Hx Hy Hw Hh. cbn [convertToWorldPosition vx vy]. split.
  - rewrite sub_spec, mul_spec, div_spec.
    change (Prim2SF 1%float) with (S754_finite false 4503599627370496 (-52)).
    apply (SFsub_unit_ub prec emax prec_ge_1 prec_lt_emax); try done.
    apply twice_ub. apply (quotient_ub false); done.
  - rewrite add_spec, mul_spec, div_spec, opp_spec.
    change (Prim2SF 1%float) with (S754_finite false 4503599627370496 (-52)).
    apply (SFadd_unit_ub prec emax prec_ge_1 prec_lt_emax); try done.
    apply twice_ub. apply (quotient_ub true); done.
Qed.

Local Close Scope Z_scope.

(** ** The particle buffer holds numbers between -1 and 1 *)

(** The points of a frame whose buffer has the size of the frame are
    pixels of the frame. *)
Lemma findBrightPoints_in_frame (pixels : list Byte.byte) (width height : nat)
    (l : list BrightPoint) :
  length pixels <= 4 * (width * height) ->
  findBrightPoints pixels width height = Ok l ->
  Forall (fun p => bp_x p < width /\ bp_y p < height) l.
Proof.
  intros Hlen Hl. apply Forall_forall. intros p Hp.
  destruct (applySobelFilter_rows pixels width height) as (edges & Hedges & _).
  destruct (proj1 (findBrightPoints_elem_of pixels width height edges l p
                     Hedges Hl) Hp) as (k & Hk & Hemits & ->).
  destruct (proj1 (emits_iff pixels width height edges k Hedges) Hemits)
    as (_ & Hw & _).
  cbn [candidate bp_x bp_y]. split.
  - apply Nat.mod_upper_bound. lia.
  - apply Nat.Div0.div_lt_upper_bound. lia.
Qed.

Lemma elem_of_rank (brightPoints : list BrightPoint) (p : BrightPoint) :
  p ∈ rank brightPoints -> p ∈ brightPoints.
Proof.
  rewrite rank_take. intros Hp%subseteq_take.
  by rewrite (array_sort_perm by_brightness brightPoints) in Hp.
Qed.

Local Open Scope Z_scope.

Lemma depth_bounded : bounded_by true 0 (Prim2SF depth).
Proof. split; [done | by vm_compute]. Qed.

Lemma projected_bounded (width height : nat) (p : BrightPoint) (c : nat) :
  (bp_x p < width)%nat -> (bp_y p < height)%nat ->
  Z.of_nat width < 2 ^ 53 -> Z.of_nat height < 2 ^ 53 ->
  exists s, bounded_by s 0 (Prim2SF (fround (coord (projected width height p) c))).
Proof.
  intros Hx Hy Hw Hh.
  destruct (normalized_bounded (bp_x p) (bp_y p) width height Hx Hy Hw Hh)
    as [Hvx Hvy].
  destruct c as [|[|c]]; cbn [coord projected vx vy vz].
  - by apply fround_bounded.
  - by apply fround_bounded.
  - exists true. apply depth_bounded.
Qed.

Lemma updateParticleSystem_bounded (width height : nat)
    (brightPoints : list BrightPoint) (buffer : list number) :
  Forall (fun p => (bp_x p < width)%nat /\ (bp_y p < height)%nat) brightPoints ->
  Z.of_nat width < 2 ^ 53 -> Z.of_nat height < 2 ^ 53 ->
  Forall (fun c => exists s, bounded_by s 0 (Prim2SF c)) buffer ->
  Forall (fun c => exists s, bounded_by s 0 (Prim2SF c))
         (updateParticleSystem width height brightPoints buffer).
Proof.
  intros Hin Hw Hh Hbuf. apply Forall_lookup. intros j c.
  unfold updateParticleSystem. rewrite lookup_write_points.
  case_decide as Hj.
  - destruct (rank brightPoints !! (j / 3)%nat) as [p|] eqn:Hp;
      cbn [mbind option_bind]; [|done].
    intros [= <-].
    apply list_elem_of_lookup_2, elem_of_rank in Hp.
    rewrite Forall_forall in Hin. destruct (Hin p Hp) as [Hx Hy].
    by apply projected_bounded.
  - intros Hc. rewrite Forall_lookup in Hbuf. by apply (Hbuf j).
Qed.

Lemma step_bounded (d : detector) (e : event) :
  match e with Frame v => well_formed v | _ => True end ->
  Forall (fun c => exists s, bounded_by s 0 (Prim2SF c)) (positions d) ->
  Forall (fun c => exists s, bounded_by s 0 (Prim2SF c)) (positions (step d e)).
Proof.
  intros He Hd. destruct e as [| |v]; cbn [step].
  - by destruct (acquiring d).
  - by destruct (acquiring d).
  - destruct (scheduled d); [|done]. unfold detectReflections.
    destruct (readyState v =? HAVE_ENOUGH_DATA)%nat; [|done].
    destruct (context v); [|done].
    destruct ((videoWidth v =? 0)%nat || (videoHeight v =? 0)%nat); [done|].
    destruct (findBrightPoints _ _ _) as [brightPoints|] eqn:Hfind; [|done].
    cbn [positions]. destruct He as (Hlen & Hw & Hh).
    apply updateParticleSystem_bounded; try done.
    apply (findBrightPoints_in_frame (data v)); [lia | done].
Qed.

Lemma run_bounded (es : list event) (d : detector) :
  frames_well_formed es ->
  Forall (fun c => exists s, bounded_by s 0 (Prim2SF c)) (positions d) ->
  Forall (fun c => exists s, bounded_by s 0 (Prim2SF c)) (positions (run d es)).
Proof.
  intros Hes. revert d. induction Hes as [|e es He Hes IH]; intros d Hd;
    cbn [run foldl]; [done|].
  apply IH. by apply step_bounded.
Qed.

Local Close Scope Z_scope.

(** X15: when the image data of every frame has the size of the frame
    (and the dimensions are below 2^53), every number in the particle
    buffer is between -1 and 1 after any sequence of events: no NaN and
    no infinity is ever handed to the renderer. *)
Theorem positions_in_unit (es : list event) :
  frames_well_formed es ->
  Forall in_unit (positions (run construct es)).
Proof.
  intros Hes.
  eapply Forall_impl; [apply (run_bounded es construct Hes)|].
  - cbn [construct positions]. unfold initParticleSystem.
    apply Forall_replicate. by exists false.
  - intros c Hc. by apply within_unit.
Qed.

Lemma positions_in_unit_witness :
  Forall in_unit
    (positions (run construct [Resolved; Frame video_edge; Frame video_2x1])).
Proof.
  apply (positions_in_unit [Resolved; Frame video_edge; Frame video_2x1]).
  repeat constructor.
Defined.

(** * Rounding errors

    How far the result of an addition or of a multiplication is from the
    exact sum or product, in units of [2 ^ u] for an exponent [u] below
    the exponents of all the numbers involved. *)

Local Open Scope Z_scope.

Lemma shr_1_m (mrs : shr_record) :
  0 <= shr_m mrs -> shr_m (shr_1 mrs) = shr_m mrs / 2.
Proof.
  destruct mrs as [m r s]. cbn [shr_m]. intros Hm.
  rewrite <- Z.div2_div.
  destruct m as [|[p|p|]|p]; cbn [shr_1 shr_m]; (done || lia).
Qed.

Lemma shr_iter_m (n : nat) (mrs : shr_record) :
  0 <= shr_m mrs ->
  shr_m (Nat.iter n shr_1 mrs) = shr_m mrs / 2 ^ Z.of_nat n.
Proof.
  intros Hm. induction n as [|n IH].
  - cbn [Nat.iter]. by rewrite Z.div_1_r.
  - rewrite Nat.iter_succ, shr_1_m, IH.
    + rewrite Z.div_div by (try apply Z.pow_pos_nonneg; lia).
      rewrite Nat2Z.inj_succ, Z.pow_succ_r by lia. f_equal. lia.
    + rewrite IH. apply Z.div_pos; [done | apply Z.pow_pos_nonneg; lia].
Qed.

(** A mantissa [m], truncated to [m1] at a scale [A] and then rounded to
    [m2], is at most one unit [A] away from [m]. *)
Lemma scaled_error (m m1 m2 A W : Z) :
  0 < A -> 0 < W ->
  m1 * A <= m -> m < (m1 + 1) * A -> m1 <= m2 -> m2 <= m1 + 1 ->
  Z.abs (m2 * (A * W) - m * W) <= A * W.
Proof.
  intros HA HW Hlo Hhi H1 H2.
  replace (m2 * (A * W) - m * W) with ((m2 * A - m) * W) by ring.
  rewrite Z.abs_mul, (Z.abs_eq W) by lia.
  apply Z.mul_le_mono_nonneg_r; [lia|].
  assert (m1 * A <= m2 * A) by (apply Z.mul_le_mono_nonneg_r; lia).
  assert (m2 * A <= (m1 + 1) * A) by (apply Z.mul_le_mono_nonneg_r; lia).
  lia.
Qed.

Section Error.
Variables prec emax : Z.
Hypothesis Hprec : 1 <= prec.
Hypothesis Hemax : prec < emax.

(** The shift to the exponent of the format truncates the mantissa. *)
Lemma shr_fexp_trunc (m e : Z) :
  0 <= m ->
  e <= snd (shr_fexp prec emax m e loc_Exact)
  /\ 0 <= shr_m (fst (shr_fexp prec emax m e loc_Exact))
  /\ shr_m (fst (shr_fexp prec emax m e loc_Exact))
     * 2 ^ (snd (shr_fexp prec emax m e loc_Exact) - e) <= m
  /\ m < (shr_m (fst (shr_fexp prec emax m e loc_Exact)) + 1)
         * 2 ^ (snd (shr_fexp prec emax m e loc_Exact) - e)
  /\ (snd (shr_fexp prec emax m e loc_Exact) = e ->
      fst (shr_fexp prec emax m e loc_Exact) = Build_shr_record m false false).
Proof.
  intros Hm. unfold shr_fexp. rewrite shr_spec. cbn [fst snd shr_record_of_loc].
  set (n := fexp prec emax (Zdigits2 m + e) - e).
  rewrite shr_iter_m by done. cbn [shr_m].
  replace (e + Z.max n 0 - e) with (Z.of_nat (Z.to_nat n)) by lia.
  set (N := Z.of_nat (Z.to_nat n)).
  assert (HP : 0 < 2 ^ N) by (apply Z.pow_pos_nonneg; lia).
  pose proof (Z.div_mod m (2 ^ N)) as Hdm.
  pose proof (Z.mod_pos_bound m (2 ^ N) HP) as Hmod.
  split; [lia|]. split; [by apply Z.div_pos|].
  split; [lia|]. split; [lia|].
  intros H0. replace (Z.to_nat n) with 0%nat by lia. done.
Qed.

(** Rounding a number of magnitude at most [2 ^ k]: the result is at most
    two units in the last place away. *)
Lemma binary_round_aux_err (s : bool) (m e k u : Z) :
  0 <= m -> m <= 2 ^ (k - e) -> u <= e -> u <= SpecFloat.emin prec emax ->
  SpecFloat.emin prec emax <= k -> k + 1 <= emax -> e <= emax - prec ->
  Z.abs (SFvalu u (binary_round_aux prec emax s m e loc_Exact)
         - cond_Zopp s (m * 2 ^ (e - u)))
  <= 2 ^ (Z.max (k + 1 - prec) (SpecFloat.emin prec emax) + 1 - u).
Proof.
  intros Hm Hub Hu Hu' Hk Hk' He. unfold binary_round_aux.
  set (B := Z.max (k + 1 - prec) (SpecFloat.emin prec emax)).
  destruct (shr_fexp_ub prec emax Hprec m e loc_Exact k Hm) as (_ & Hub1 & He1);
    [cbn [loc_ub]; lia | done |].
  destruct (shr_fexp_trunc m e Hm) as (Hle1 & Hm1 & Hlo1 & Hhi1 & Hex1).
  destruct (shr_fexp prec emax m e loc_Exact) as [mrs1 e1]. cbn [fst snd] in *.
  pose proof (round_nearest_even_bounds mrs1) as Hr.
  set (m2 := round_nearest_even (shr_m mrs1) (loc_of_shr_record mrs1)) in *.
  assert (Hm2 : 0 <= m2) by lia.
  assert (Hr1 : shr_m mrs1 <= m2) by lia.
  assert (Hr2 : m2 <= shr_m mrs1 + 1)
    by (unfold mrs_ub in Hr; destruct (_ || _); lia).
  assert (Hex2 : e1 = e -> m2 = m).
  { intros H. unfold m2. rewrite (Hex1 H). done. }
  destruct (shr_fexp_ub prec emax Hprec m2 e1 loc_Exact k Hm2) as (_ & Hub3 & He3);
    [cbn [loc_ub]; lia | done |].
  destruct (shr_fexp_trunc m2 e1 Hm2) as (Hle3 & Hm3 & Hlo3 & Hhi3 & Hex3).
  destruct (shr_fexp prec emax m2 e1 loc_Exact) as [mrs3 e3]. cbn [fst snd] in *.
  assert (Hex4 : e3 = e1 -> shr_m mrs3 = m2).
  { intros H. rewrite (Hex3 H). done. }
  clear Hex1 Hex3 Hub1 Hub3 Hr.
  set (m1 := shr_m mrs1) in *. set (m3 := shr_m mrs3) in *.
  (* the three scales *)
  assert (HP0 : 0 < 2 ^ (e - u)) by (apply Z.pow_pos_nonneg; lia).
  assert (HP1 : 2 ^ (e1 - u) = 2 ^ (e1 - e) * 2 ^ (e - u))
    by (rewrite <- Z.pow_add_r by lia; f_equal; lia).
  assert (HP3 : 2 ^ (e3 - u) = 2 ^ (e3 - e1) * 2 ^ (e1 - u))
    by (rewrite <- Z.pow_add_r by lia; f_equal; lia).
  assert (HB : 2 ^ (B + 1 - u) = 2 ^ (B - u) + 2 ^ (B - u)).
  { replace (B + 1 - u) with (Z.succ (B - u)) by lia.
    rewrite Z.pow_succ_r by (unfold B; lia). lia. }
  assert (HPB : 0 < 2 ^ (B - u)) by (apply Z.pow_pos_nonneg; unfold B; lia).
  (* the first stage *)
  assert (H1 : Z.abs (m2 * 2 ^ (e1 - u) - m * 2 ^ (e - u)) <= 2 ^ (B - u)).
  { destruct (decide (e1 = e)) as [Heq|Hne].
    - rewrite (Hex2 Heq), Heq, Z.sub_diag. lia.
    - assert (e1 <= B) by (unfold B; lia).
      assert (Hle : 2 ^ (e1 - u) <= 2 ^ (B - u)) by (apply Z.pow_le_mono_r; lia).
      etrans; [|exact Hle]. rewrite HP1.
      assert (HA : 0 < 2 ^ (e1 - e)) by (apply Z.pow_pos_nonneg; lia).
      exact (scaled_error m m1 m2 _ _ HA HP0 Hlo1 Hhi1 Hr1 Hr2). }
  (* the second stage *)
  assert (H3 : Z.abs (m3 * 2 ^ (e3 - u) - m2 * 2 ^ (e1 - u)) <= 2 ^ (B - u)).
  { destruct (decide (e3 = e1)) as [Heq|Hne].
    - rewrite (Hex4 Heq), Heq, Z.sub_diag. lia.
    - assert (e3 <= B) by (unfold B; lia).
      assert (Hle : 2 ^ (e3 - u) <= 2 ^ (B - u)) by (apply Z.pow_le_mono_r; lia).
      etrans; [|exact Hle]. rewrite HP3.
      assert (HA : 0 < 2 ^ (e3 - e1)) by (apply Z.pow_pos_nonneg; lia).
      assert (HW : 0 < 2 ^ (e1 - u)) by (apply Z.pow_pos_nonneg; lia).
      apply (scaled_error m2 m3 m3 _ _ HA HW Hlo3 Hhi3); clear; lia. }
  assert (Hval : Z.abs (m3 * 2 ^ (e3 - u) - m * 2 ^ (e - u)) <= 2 ^ (B + 1 - u))
    by lia.
  assert (He3' : e3 <= emax - prec)
    by (clear - He3 He1 He Hk Hk' Hprec Hemax; unfold SpecFloat.emin in *; lia).
  clearbody m3. clear - Hval Hm3 He3'.
  destruct m3 as [|p|p]; [| |lia].
  - cbn [SFvalu].
    set (X := 2 ^ (B + 1 - u)) in *. set (Y := m * 2 ^ (e - u)) in *.
    clearbody X Y. destruct s; cbn [cond_Zopp]; lia.
  - rewrite (proj2 (Z.leb_le _ _) He3'). cbn [SFvalu].
    set (X := 2 ^ (B + 1 - u)) in *. set (Y := m * 2 ^ (e - u)) in *.
    set (P := 2 ^ (e3 - u)) in *. clearbody X Y P.
    destruct s; cbn [cond_Zopp]; lia.
Qed.

Lemma binary_round_err (s : bool) (m : positive) (e k u : Z) :
  Zpos m <= 2 ^ (k - e) -> u <= SpecFloat.emin prec emax ->
  SpecFloat.emin prec emax <= e ->
  SpecFloat.emin prec emax <= k -> k + 1 <= emax -> e <= emax - prec ->
  Z.abs (SFvalu u (binary_round prec emax s m e)
         - cond_Zopp s (Zpos m * 2 ^ (e - u)))
  <= 2 ^ (Z.max (k + 1 - prec) (SpecFloat.emin prec emax) + 1 - u).
Proof.
  intros Hub Hu He Hk Hk' He'. unfold binary_round.
  destruct (shl_align_spec m e (fexp prec emax (Zpos (digits2_pos m) + e)))
    as (Hez & Hmz & _).
  destruct (shl_align m e _) as [mz ez]. cbn [fst snd] in *.
  assert (Hez' : SpecFloat.emin prec emax <= ez <= e)
    by (clear - Hez He; unfold fexp in *; lia).
  assert (Hke : 0 <= k - e).
  { destruct (Z.le_gt_cases 0 (k - e)); [done|].
    rewrite Z.pow_neg_r in Hub by lia. lia. }
  assert (Hval : Zpos mz * 2 ^ (ez - u) = Zpos m * 2 ^ (e - u)).
  { rewrite Hmz, <- Hez, <- Z.mul_assoc, <- Z.pow_add_r by lia.
    do 2 f_equal. lia. }
  rewrite <- Hval. apply binary_round_aux_err; try lia.
  rewrite Hmz, <- Hez.
  replace (k - ez) with ((k - e) + (e - ez)) by lia.
  rewrite Z.pow_add_r by lia.
  apply Z.mul_le_mono_nonneg_r; [apply Z.pow_nonneg; lia | done].
Qed.

Lemma binary_normalize_err (M e k u : Z) (sz : bool) :
  Z.abs M <= 2 ^ (k - e) -> u <= SpecFloat.emin prec emax ->
  SpecFloat.emin prec emax <= e ->
  SpecFloat.emin prec emax <= k -> k + 1 <= emax -> e <= emax - prec ->
  Z.abs (SFvalu u (binary_normalize prec emax M e sz) - M * 2 ^ (e - u))
  <= 2 ^ (Z.max (k + 1 - prec) (SpecFloat.emin prec emax) + 1 - u).
Proof.
  intros Hub Hu He Hk Hk' He'. destruct M as [|p|p]; cbn [binary_normalize].
  - cbn [SFvalu]. rewrite Z.mul_0_l. cbn. apply Z.pow_nonneg. lia.
  - apply (binary_round_err false p e k u); (done || lia).
  - replace (Zneg p * 2 ^ (e - u)) with (cond_Zopp true (Zpos p * 2 ^ (e - u)))
      by (cbn [cond_Zopp]; lia).
    apply (binary_round_err true p e k u); (done || lia).
Qed.

(** The value of an aligned mantissa. *)
Lemma SFvalu_aligned (s : bool) (m : positive) (e ez u : Z) :
  u <= ez -> ez <= e ->
  cond_Zopp s (Zpos (fst (shl_align m e ez))) * 2 ^ (ez - u)
  = SFvalu u (S754_finite s m e).
Proof.
  intros Hu Hez. destruct (shl_align_spec m e ez) as (_ & -> & _).
  replace (Z.min e ez) with ez by lia. cbn [SFvalu].
  replace (e - u) with ((e - ez) + (ez - u)) by lia.
  rewrite Z.pow_add_r by lia. destruct s; cbn [cond_Zopp]; lia.
Qed.

Lemma aligned_ub (s : bool) (m : positive) (e ez k : Z) :
  bounded_by s k (S754_finite s m e) -> ez <= e ->
  Z.abs (cond_Zopp s (Zpos (fst (shl_align m e ez)))) <= 2 ^ (k - ez).
Proof.
  intros Hb Hez. pose proof (bounded_by_exp s k m e Hb) as Hk.
  destruct Hb as [_ Hub].
  destruct (shl_align_spec m e ez) as (_ & -> & _).
  replace (Z.min e ez) with ez by lia.
  replace (k - ez) with ((k - e) + (e - ez)) by lia.
  rewrite Z.pow_add_r by lia.
  assert (0 <= 2 ^ (e - ez)) by (apply Z.pow_nonneg; lia).
  assert (Zpos m * 2 ^ (e - ez) <= 2 ^ (k - e) * 2 ^ (e - ez))
    by (by apply Z.mul_le_mono_nonneg_r).
  destruct s; cbn [cond_Zopp]; lia.
Qed.

(** A sum of two numbers of magnitude at most [2 ^ k]. *)
Lemma SFadd_err (x y : spec_float) (k u : Z) :
  SpecFloat.valid_binary prec emax x = true ->
  SpecFloat.valid_binary prec emax y = true ->
  (exists s, bounded_by s k x) -> (exists s, bounded_by s k y) ->
  u <= SpecFloat.emin prec emax ->
  SpecFloat.emin prec emax <= k -> k + 2 <= emax -> k + 1 <= emax - prec ->
  (exists s, bounded_by s (k + 1) (SFadd prec emax x y))
  /\ Z.abs (SFvalu u (SFadd prec emax x y) - (SFvalu u x + SFvalu u y))
     <= 2 ^ (Z.max (k + 2 - prec) (SpecFloat.emin prec emax) + 1 - u).
Proof.
  intros Hvx Hvy [sx' Hx] [sy' Hy] Hu Hk Hk' Hk''.
  assert (Hpos : 0 <= 2 ^ (Z.max (k + 2 - prec) (SpecFloat.emin prec emax) + 1 - u))
    by (apply Z.pow_nonneg; lia).
  destruct x as [sx|sx| |sx mx ex]; try done;
    destruct y as [sy|sy| |sy my ey]; try done; cbn [SFadd].
  - split; [|destruct sx, sy; cbn [SFvalu]; lia].
    destruct sx, sy; by eexists.
  - split; [|cbn [SFvalu]; lia].
    exists sy'. apply (bounded_by_mono sy' k); [done | lia].
  - split; [|cbn [SFvalu]; lia].
    exists sx'. apply (bounded_by_mono sx' k); [done | lia].
  - pose proof Hx as [<- _]. pose proof Hy as [<- _].
    apply valid_finite in Hvx as (_ & Hex & _).
    apply valid_finite in Hvy as (_ & Hey & _).
    set (ez := Z.min ex ey).
    pose proof (aligned_ub sx mx ex ez k Hx ltac:(unfold ez; lia)) as Hax.
    pose proof (aligned_ub sy my ey ez k Hy ltac:(unfold ez; lia)) as Hay.
    pose proof (SFvalu_aligned sx mx ex ez u ltac:(unfold ez; lia)
                  ltac:(unfold ez; lia)) as Hvx.
    pose proof (SFvalu_aligned sy my ey ez u ltac:(unfold ez; lia)
                  ltac:(unfold ez; lia)) as Hvy.
    set (a := cond_Zopp sx (Zpos (fst (shl_align mx ex ez)))) in *.
    set (b := cond_Zopp sy (Zpos (fst (shl_align my ey ez)))) in *.
    assert (Hab : Z.abs (a + b) <= 2 ^ (k + 1 - ez)).
    { replace (k + 1 - ez) with (Z.succ (k - ez)) by lia.
      rewrite Z.pow_succ_r by (unfold ez; pose proof (bounded_by_exp _ _ _ _ Hx); lia).
      lia. }
    split.
    + apply (binary_normalize_ub prec emax Hprec Hemax); try done;
        unfold ez; lia.
    + rewrite <- Hvx, <- Hvy, <- Z.mul_add_distr_r.
      replace (k + 2 - prec) with (k + 1 + 1 - prec) by lia.
      apply (binary_normalize_err (a + b) ez (k + 1) u false); try done;
        unfold ez; lia.
Qed.

(** A product with a constant [C * 2 ^ 0], given as the float of mantissa
    [mc] and exponent [ec]. *)
Lemma SFmul_const_err (x : spec_float) (sc : bool) (mc : positive)
    (ec C k kc u : Z) :
  SpecFloat.valid_binary prec emax x = true ->
  (exists s, bounded_by s k x) ->
  Zpos mc = C * 2 ^ (- ec) -> ec <= 0 -> Zpos mc <= 2 ^ (kc - ec) ->
  u <= SpecFloat.emin prec emax + ec ->
  SpecFloat.emin prec emax <= k + kc -> k + kc + 1 <= emax ->
  k + kc <= emax - prec ->
  (exists s, bounded_by s (k + kc) (SFmul prec emax x (S754_finite sc mc ec)))
  /\ Z.abs (SFvalu u (SFmul prec emax x (S754_finite sc mc ec))
            - cond_Zopp sc (C * SFvalu u x))
     <= 2 ^ (Z.max (k + kc + 1 - prec) (SpecFloat.emin prec emax) + 1 - u).
Proof.
  intros Hvx [sx' Hx] HC Hec Hmc Hu Hk Hk' Hk''.
  assert (Hy : bounded_by sc kc (S754_finite sc mc ec)) by done.
  split.
  { exists (xorb sx' sc). by apply (SFmul_ub prec emax Hprec Hemax). }
  assert (Hpos : 0 <= 2 ^ (Z.max (k + kc + 1 - prec) (SpecFloat.emin prec emax)
                           + 1 - u))
    by (apply Z.pow_nonneg; lia).
  destruct x as [sx|sx| |sx mx ex]; try done; cbn [SFmul].
  - cbn [SFvalu]. rewrite Z.mul_0_r. destruct sc; cbn [cond_Zopp]; lia.
  - pose proof Hx as [<- Hmx].
    apply valid_finite in Hvx as (_ & Hex & _).
    pose proof (bounded_by_exp sx k mx ex Hx) as Hexk.
    pose proof (bounded_by_exp sc kc mc ec Hy) as Heck.
    assert (Hval : cond_Zopp (xorb sx sc) (Zpos (mx * mc) * 2 ^ (ex + ec - u))
                   = cond_Zopp sc (C * SFvalu u (S754_finite sx mx ex))).
    { cbn [SFvalu]. rewrite Pos2Z.inj_mul, HC.
      replace (ex - u) with ((- ec) + (ex + ec - u)) by lia.
      rewrite (Z.pow_add_r 2 (- ec)) by lia.
      destruct sx, sc; cbn [xorb cond_Zopp]; lia. }
    rewrite <- Hval.
    apply binary_round_aux_err; try lia.
    rewrite Pos2Z.inj_mul.
    replace (k + kc - (ex + ec)) with ((k - ex) + (kc - ec)) by lia.
    rewrite Z.pow_add_r by lia.
    apply Z.mul_le_mono_nonneg; lia.
Qed.

(** A value that is small in units of [2 ^ u] is small. *)
Lemma bounded_of_valu (f : spec_float) (k j u : Z) :
  SpecFloat.valid_binary prec emax f = true ->
  (exists s, bounded_by s k f) -> u <= SpecFloat.emin prec emax -> u <= j ->
  Z.abs (SFvalu u f) <= 2 ^ (j - u) ->
  exists s, bounded_by s j f.
Proof.
  intros Hv [s Hb] Hu Hj Hval. exists s.
  destruct f as [s'|s'| |s' m e]; try done.
  destruct Hb as [-> _]. split; [done|].
  apply valid_finite in Hv as (_ & He & _).
  cbn [SFvalu] in Hval.
  assert (Habs : Zpos m * 2 ^ (e - u) <= 2 ^ (j - u))
    by (destruct s; cbn [cond_Zopp] in Hval; lia).
  clear Hval.
  destruct (Z.le_gt_cases e j) as [Hej|Hej].
  - replace (j - u) with ((j - e) + (e - u)) in Habs by lia.
    rewrite Z.pow_add_r in Habs by lia.
    apply Z.mul_le_mono_pos_r in Habs; [done|].
    apply Z.pow_pos_nonneg; lia.
  - exfalso.
    assert (2 ^ (j - u) < 2 ^ (e - u)) by (apply Z.pow_lt_mono_r; lia).
    assert (2 ^ (e - u) <= Zpos m * 2 ^ (e - u)).
    { rewrite <- (Z.mul_1_l (2 ^ (e - u))) at 1.
      apply Z.mul_le_mono_nonneg_r; [apply Z.pow_nonneg|]; lia. }
    lia.
Qed.

(** The square root of a number of magnitude at most [2 ^ (2 * k)]. *)
Lemma SFsqrt_ub (x : spec_float) (k : Z) :
  bounded_by false (2 * k) x ->
  SpecFloat.emin prec emax <= k -> k + 1 <= emax -> k <= emax - prec ->
  bounded_by false k (SFsqrt prec emax x).
Proof.
  intros Hx Hk Hk' Hk''. destruct x as [sx|sx| |sx m e]; try done.
  pose proof (bounded_by_exp sx (2 * k) m e) as He.
  destruct Hx as [-> Hm]. specialize (He (conj eq_refl Hm)).
  cbn [SFsqrt]. unfold SFsqrt_core_binary.
  set (e' := Z.min (fexp prec emax (Z.div2 (Zdigits2 (Zpos m) + e + 1)))
                   (Z.div2 e)).
  assert (He' : 2 * e' <= e).
  { pose proof (Z.mul_div_le e 2 ltac:(lia)) as H.
    rewrite <- Z.div2_div in H. unfold e'. lia. }
  set (m' := match e - 2 * e' with
             | 0 => Zpos m
             | Zpos _ => Z.shiftl (Zpos m) (e - 2 * e')
             | Zneg _ => 0
             end).
  assert (Hm' : m' = Zpos m * 2 ^ (e - 2 * e')).
  { unfold m'. destruct (e - 2 * e') as [|p|p] eqn:Hs; [lia| |lia].
    by rewrite Z.shiftl_mul_pow2. }
  clearbody m'.
  pose proof (Z.sqrtrem_spec m') as Hsqrt.
  destruct (Z.sqrtrem m') as [q r].
  destruct Hsqrt as [Hqr Hr].
  { rewrite Hm'. apply Z.mul_nonneg_nonneg; [lia | apply Z.pow_nonneg; lia]. }
  set (T := 2 ^ (k - e')).
  assert (HT : 0 < T) by (apply Z.pow_pos_nonneg; lia).
  assert (Hsq : m' <= T * T).
  { rewrite Hm'. unfold T. rewrite <- Z.pow_add_r by lia.
    replace (k - e' + (k - e')) with ((2 * k - e) + (e - 2 * e')) by lia.
    rewrite Z.pow_add_r by lia.
    apply Z.mul_le_mono_nonneg_r; [apply Z.pow_nonneg; lia | done]. }
  apply (binary_round_aux_ub prec emax Hprec Hemax); try lia.
  fold T. clearbody T. clear - Hqr Hr Hsq HT.
  destruct (Z.eqb_spec r 0) as [->|Hne]; cbn [loc_ub]; nia.
Qed.
End Error.

(** ** The convolutions in binary64 *)

Local Open Scope Z_scope.

Lemma approx_mono (k k' n n' v : Z) (f : float) :
  approx k n v f -> k <= k' -> n <= n' -> approx k' n' v f.
Proof.
  intros [[s Hb] Hv] Hk Hn. split.
  - exists s. by apply (bounded_by_mono s k).
  - etrans; [exact Hv|].
    apply Z.mul_le_mono_nonneg_r; [by apply Z.pow_nonneg | done].
Qed.

Lemma approx_exact (k : Z) (f : float) :
  (exists s, bounded_by s k (Prim2SF f)) ->
  approx k 0 (SFvalu unit_exp (Prim2SF f)) f.
Proof. intros Hb. split; [done|]. rewrite Z.sub_diag. done. Qed.

Lemma approx_add (k n1 n2 v1 v2 : Z) (x y : float) :
  approx k n1 v1 x -> approx k n2 v2 y -> -1000 <= k <= 20 ->
  approx (k + 1) (n1 + n2 + 1) (v1 + v2) (x + y).
Proof.
  intros [Hbx Hvx] [Hby Hvy] Hk. unfold approx. rewrite add_spec.
  destruct (SFadd_err prec emax prec_ge_1 prec_lt_emax
              (Prim2SF x) (Prim2SF y) k unit_exp
              (Prim2SF_valid x) (Prim2SF_valid y) Hbx Hby)
    as [Hb Herr]; [done | unfold emin, emax, prec; lia..|].
  split; [done|].
  assert (Hle : 2 ^ (Z.max (k + 2 - prec) emin + 1 - unit_exp)
                <= 2 ^ (err_exp - unit_exp)).
  { apply Z.pow_le_mono_r; [done|]. unfold emin, emax, prec, err_exp. lia. }
  unfold SF64add.
  set (P := 2 ^ (err_exp - unit_exp)) in *.
  set (E := 2 ^ (Z.max (k + 2 - prec) emin + 1 - unit_exp)) in *.
  clearbody P E. lia.
Qed.

Lemma approx_mul_const (c : float) (sc : bool) (mc : positive) (ec C : Z)
    (k n v : Z) (x : float) :
  Prim2SF c = S754_finite sc mc ec ->
  Zpos mc = C * 2 ^ (- ec) -> -60 <= ec <= 0 -> Zpos mc <= 2 ^ (1 - ec) ->
  0 <= C <= 2 ->
  approx k n v x -> -1000 <= k <= 18 ->
  approx (k + 1) (2 * n + 1) (cond_Zopp sc (C * v)) (x * c).
Proof.
  intros Hc HC Hec Hmc HC' [Hbx Hvx] Hk. unfold approx. rewrite mul_spec, Hc.
  destruct (SFmul_const_err prec emax prec_ge_1 prec_lt_emax
              (Prim2SF x) sc mc ec C k 1 unit_exp (Prim2SF_valid x) Hbx HC)
    as [Hb Herr]; [lia | done | unfold emin, emax, prec, unit_exp; lia..|].
  split; [done|].
  assert (Hle : 2 ^ (Z.max (k + 1 + 1 - prec) emin + 1 - unit_exp)
                <= 2 ^ (err_exp - unit_exp)).
  { apply Z.pow_le_mono_r; [done|]. unfold emin, emax, prec, err_exp. lia. }
  unfold SF64mul.
  assert (HP : 0 <= 2 ^ (err_exp - unit_exp)) by done.
  set (P := 2 ^ (err_exp - unit_exp)) in *.
  set (E := 2 ^ (Z.max (k + 1 + 1 - prec) emin + 1 - unit_exp)) in *.
  set (a := SFvalu unit_exp (Prim2SF x)) in *.
  set (r := SFvalu unit_exp _) in *.
  clearbody P E a r. clear - Herr Hvx Hle HC' HP.
  assert (Z.abs (C * a - C * v) <= 2 * (n * P)).
  { rewrite <- Z.mul_sub_distr_l, Z.abs_mul, (Z.abs_eq C) by lia.
    assert (0 <= Z.abs (a - v)) by lia. nia. }
  destruct sc; cbn [cond_Zopp] in *; lia.
Qed.

Lemma approx_mul_zero (k n v : Z) (x : float) :
  approx k n v x -> approx (k + 1) (2 * n + 1) 0 (x * 0).
Proof.
  intros [[s Hbx] Hvx]. unfold approx. rewrite mul_spec.
  change (Prim2SF 0) with (S754_zero false). unfold SF64mul.
  assert (Hn : 0 <= n).
  { assert (0 < 2 ^ (err_exp - unit_exp)) by done.
    set (P := 2 ^ (err_exp - unit_exp)) in *. clearbody P. nia. }
  destruct (Prim2SF x) as [sx|sx| |sx mx ex]; try done; cbn [SFmul].
  - split; [by eexists|]. cbn [SFvalu].
    assert (0 <= 2 ^ (err_exp - unit_exp)) by done. nia.
  - split; [by eexists|]. cbn [SFvalu].
    assert (0 <= 2 ^ (err_exp - unit_exp)) by done. nia.
Qed.

Local Close Scope Z_scope.

(** ** The gradient of a pixel of a frame *)

Local Open Scope Z_scope.

Lemma sum9_approx (t1 t2 t3 t4 t5 t6 t7 t8 t9 : float)
    (v1 v2 v3 v4 v5 v6 v7 v8 v9 : Z) :
  approx 11 1 v1 t1 -> approx 11 1 v2 t2 -> approx 11 1 v3 t3 ->
  approx 11 1 v4 t4 -> approx 11 1 v5 t5 -> approx 11 1 v6 t6 ->
  approx 11 1 v7 t7 -> approx 11 1 v8 t8 -> approx 11 1 v9 t9 ->
  approx 20 18 (v1 + v2 + v3 + v4 + v5 + v6 + v7 + v8 + v9)
         (0 + t1 + t2 + t3 + t4 + t5 + t6 + t7 + t8 + t9)%float.
Proof.
  intros H1 H2 H3 H4 H5 H6 H7 H8 H9.
  assert (A0 : approx 11 0 0 0%float) by (split; [by exists false | done]).
  pose proof (approx_add 11 0 1 _ _ _ _ A0 H1 ltac:(lia)) as A1.
  pose proof (approx_add 12 2 1 _ _ _ _ A1
                (approx_mono 11 12 1 1 _ _ H2 ltac:(lia) ltac:(lia))
                ltac:(lia)) as A2.
  pose proof (approx_add 13 4 1 _ _ _ _ A2
                (approx_mono 11 13 1 1 _ _ H3 ltac:(lia) ltac:(lia))
                ltac:(lia)) as A3.
  pose proof (approx_add 14 6 1 _ _ _ _ A3
                (approx_mono 11 14 1 1 _ _ H4 ltac:(lia) ltac:(lia))
                ltac:(lia)) as A4.
  pose proof (approx_add 15 8 1 _ _ _ _ A4
                (approx_mono 11 15 1 1 _ _ H5 ltac:(lia) ltac:(lia))
                ltac:(lia)) as A5.
  pose proof (approx_add 16 10 1 _ _ _ _ A5
                (approx_mono 11 16 1 1 _ _ H6 ltac:(lia) ltac:(lia))
                ltac:(lia)) as A6.
  pose proof (approx_add 17 12 1 _ _ _ _ A6
                (approx_mono 11 17 1 1 _ _ H7 ltac:(lia) ltac:(lia))
                ltac:(lia)) as A7.
  pose proof (approx_add 18 14 1 _ _ _ _ A7
                (approx_mono 11 18 1 1 _ _ H8 ltac:(lia) ltac:(lia))
                ltac:(lia)) as A8.
  pose proof (approx_add 19 16 1 _ _ _ _ A8
                (approx_mono 11 19 1 1 _ _ H9 ltac:(lia) ltac:(lia))
                ltac:(lia)) as A9.
  exact A9.
Qed.

Lemma approx_eq (k n v v' : Z) (f : float) :
  approx k n v f -> v = v' -> approx k n v' f.
Proof. by intros H <-. Qed.

(** The products of a luma with the entries of the kernels. *)
Lemma approx_times (c : float) (C : Z) (L : float) :
  (c = (-2)%float /\ C = -2) \/ (c = (-1)%float /\ C = -1)
  \/ (c = 0%float /\ C = 0) \/ (c = 1%float /\ C = 1)
  \/ (c = 2%float /\ C = 2) ->
  (exists s, bounded_by s 10 (Prim2SF L)) ->
  approx 11 1 (C * SFvalu unit_exp (Prim2SF L)) (L * c).
Proof.
  intros Hc HL. pose proof (approx_exact 10 L HL) as HA.
  destruct Hc as [[-> ->]|[[-> ->]|[[-> ->]|[[-> ->]|[-> ->]]]]].
  - eapply approx_eq;
      [apply (approx_mul_const (-2)%float true 4503599627370496 (-51) 2 10 0
                _ L eq_refl eq_refl ltac:(lia) ltac:(done) ltac:(lia) HA
                ltac:(lia))|].
    cbn [cond_Zopp]. lia.
  - eapply approx_eq;
      [apply (approx_mul_const (-1)%float true 4503599627370496 (-52) 1 10 0
                _ L eq_refl eq_refl ltac:(lia) ltac:(done) ltac:(lia) HA
                ltac:(lia))|].
    cbn [cond_Zopp]. lia.
  - rewrite Z.mul_0_l. apply (approx_mul_zero 10 0 _ L HA).
  - eapply approx_eq;
      [apply (approx_mul_const 1%float false 4503599627370496 (-52) 1 10 0
                _ L eq_refl eq_refl ltac:(lia) ltac:(done) ltac:(lia) HA
                ltac:(lia))|].
    cbn [cond_Zopp]. lia.
  - eapply approx_eq;
      [apply (approx_mul_const 2%float false 4503599627370496 (-51) 2 10 0
                _ L eq_refl eq_refl ltac:(lia) ltac:(done) ltac:(lia) HA
                ltac:(lia))|].
    cbn [cond_Zopp]. lia.
Qed.

Lemma luma_bounded (pixels : list Byte.byte) (i : nat) :
  (i + 2 < length pixels)%nat ->
  bounded_by false 10 (Prim2SF (luma pixels i)).
Proof.
  intros Hi.
  destruct (lookup_lt_is_Some_2 pixels i) as [b0 H0]; [lia|].
  destruct (lookup_lt_is_Some_2 pixels (i + 1)%nat) as [b1 H1]; [lia|].
  destruct (lookup_lt_is_Some_2 pixels (i + 2)%nat) as [b2 H2]; [lia|].
  unfold luma, pixel. rewrite H0, H1, H2. rewrite !add_spec.
  apply (SFadd_nonneg_ub prec emax prec_ge_1 prec_lt_emax 9); try done.
  - apply (SFadd_nonneg_ub prec emax prec_ge_1 prec_lt_emax 8); try done;
      apply weighted_byte_ub; (split; [done | by vm_compute]).
  - apply (bounded_by_mono false 8); [|done].
    apply weighted_byte_ub. split; [done | by vm_compute].
Qed.

Lemma luma_at_bounded (pixels : list Byte.byte) (width height x y : nat) :
  length pixels = (4 * (width * height))%nat ->
  (x < width)%nat -> (y < height)%nat ->
  exists s, bounded_by s 10 (Prim2SF (luma_at pixels width x y)).
Proof.
  intros Hlen Hx Hy. exists false. apply luma_bounded. rewrite Hlen.
  assert (y * width + x < width * height)%nat by nia. lia.
Qed.

Lemma interior_bounds (width height x y : nat) :
  interior width height x y = true ->
  (1 <= x)%nat /\ (x + 1 < width)%nat /\ (1 <= y)%nat /\ (y + 1 < height)%nat.
Proof.
  unfold interior.
  intros [[[H1 H2]%andb_true_iff H3]%andb_true_iff H4]%andb_true_iff.
  apply Nat.leb_le in H1, H3. apply Nat.ltb_lt in H2, H4. lia.
Qed.

Section Convolutions.
Variables (pixels : list Byte.byte) (width height x y : nat).
Hypothesis Hlen : length pixels = (4 * (width * height))%nat.
Hypothesis Hint : interior width height x y = true.

Lemma neighbour_bounded (a b : nat) :
  (x - 1 <= a <= x + 1)%nat -> (y - 1 <= b <= y + 1)%nat ->
  exists s, bounded_by s 10 (Prim2SF (luma_at pixels width a b)).
Proof.
  intros Ha Hb. pose proof (interior_bounds width height x y Hint).
  apply (luma_at_bounded pixels width height); (done || lia).
Qed.

Lemma convolve_gx_approx :
  let V a b := SFvalu unit_exp (Prim2SF (luma_at pixels width a b)) in
  let left := (x - 1)%nat in let right := (x + 1)%nat in
  let above := (y - 1)%nat in let below := (y + 1)%nat in
  approx 20 18
    (- V left above + V right above - 2 * V left y + 2 * V right y
     - V left below + V right below)
    (convolve_gx pixels width x y).
Proof.
  intros V left right above below. unfold convolve_gx. cbn zeta.
  fold left right above below.
  eapply approx_eq.
  - apply (sum9_approx _ _ _ _ _ _ _ _ _
             ((-1) * V left above) (0 * V x above) (1 * V right above)
             ((-2) * V left y) (0 * V x y) (2 * V right y)
             ((-1) * V left below) (0 * V x below) (1 * V right below));
      apply approx_times; try tauto;
      apply neighbour_bounded; unfold left, right, above, below; lia.
  - lia.
Qed.

Lemma convolve_gy_approx :
  let V a b := SFvalu unit_exp (Prim2SF (luma_at pixels width a b)) in
  let left := (x - 1)%nat in let right := (x + 1)%nat in
  let above := (y - 1)%nat in let below := (y + 1)%nat in
  approx 20 18
    (- V left above - 2 * V x above - V right above
     + V left below + 2 * V x below + V right below)
    (convolve_gy pixels width x y).
Proof.
  intros V left right above below. unfold convolve_gy. cbn zeta.
  fold left right above below.
  eapply approx_eq.
  - apply (sum9_approx _ _ _ _ _ _ _ _ _
             ((-1) * V left above) ((-2) * V x above) ((-1) * V right above)
             (0 * V left y) (0 * V x y) (0 * V right y)
             (1 * V left below) (2 * V x below) (1 * V right below));
      apply approx_times; try tauto;
      apply neighbour_bounded; unfold left, right, above, below; lia.
  - lia.
Qed.
End Convolutions.

Local Close Scope Z_scope.

(** ** The gradient magnitude *)

Local Open Scope Z_scope.

Lemma magnitude_bounded (a b : float) (k : Z) :
  (exists s, bounded_by s k (Prim2SF a)) ->
  (exists s, bounded_by s k (Prim2SF b)) ->
  -500 <= k <= 400 ->
  bounded_by false (k + 1) (Prim2SF (magnitude (a, b))).
Proof.
  intros [sa Ha] [sb Hb] Hk. unfold magnitude. cbn [fst snd].
  rewrite sqrt_spec, add_spec, !mul_spec.
  assert (Hsq : forall s f, bounded_by s k f ->
                  bounded_by false (k + k) (SF64mul f f)).
  { intros s f Hf. rewrite <- (xorb_nilpotent s).
    apply (SFmul_ub prec emax prec_ge_1 prec_lt_emax); try done;
      unfold emin, emax, prec; lia. }
  apply (SFsqrt_ub prec emax prec_ge_1 prec_lt_emax);
    [|unfold emin, emax, prec; lia..].
  replace (2 * (k + 1)) with (k + k + 1 + 1) by lia.
  apply (bounded_by_mono false (k + k + 1)); [|lia].
  apply (SFadd_nonneg_ub prec emax prec_ge_1 prec_lt_emax);
    [by apply (Hsq sa) | by apply (Hsq sb) | unfold emin, emax, prec; lia..].
Qed.

(** A rounded number has the sign it was given, if any. *)
Lemma binary_round_aux_sign (m e : Z) (l : location) :
  SFltb (binary_round_aux prec emax false m e l) (S754_zero false) = false.
Proof.
  unfold binary_round_aux.
  destruct (shr_fexp prec emax m e l) as [mrs1 e1].
  destruct (shr_fexp prec emax _ e1 loc_Exact) as [mrs2 e2].
  destruct (shr_m mrs2); [done| |done].
  by destruct (e2 <=? emax - prec).
Qed.

Lemma sqrt_not_negative (z : float) : (sqrt z <? 0)%float = false.
Proof.
  rewrite FloatAxioms.ltb_spec, sqrt_spec.
  change (Prim2SF 0) with (S754_zero false). unfold SF64sqrt.
  destruct (Prim2SF z) as [[]|[]| |[] m e]; cbn [SFsqrt]; try done.
  destruct (SFsqrt_core_binary prec emax (Zpos m) e) as [[q e'] l].
  apply binary_round_aux_sign.
Qed.

Lemma nonneg_of_bounded (k : Z) (v : float) :
  bounded_by false k (Prim2SF v) -> emin <= k ->
  is_finite v = true /\ (0 <=? v)%float = true
  /\ (SFval prec emax (Prim2SF v) <= 2 ^ (k - emin)).
Proof.
  intros Hb Hk.
  pose proof (bounded_by_val prec emax false k (Prim2SF v)
                (Prim2SF_valid v) Hb Hk) as Hval.
  split; [rewrite is_finite_spec; by destruct (Prim2SF v)|].
  split; [|lia].
  rewrite FloatAxioms.leb_spec. change (Prim2SF 0) with (S754_zero false).
  destruct (Prim2SF v) as [s|s| |s m e]; try done.
  by destruct Hb as [-> _].
Qed.

(** A gradient of at most [2 ^ -24] is not above the edge threshold. *)
Lemma small_not_edge (v : float) :
  bounded_by false (-24) (Prim2SF v) -> gt v edgeThreshold = false.
Proof.
  intros Hb.
  destruct (nonneg_of_bounded (-24) v Hb) as (Hfin & _ & Hval); [done|].
  unfold gt. rewrite ltb_val by done.
  apply Z.ltb_ge. etrans; [exact Hval|]. by vm_compute.
Qed.

Local Close Scope Z_scope.

(** X17: for a frame whose buffer holds exactly width * height pixels,
    every entry of the table [applySobelFilter] returns is a finite
    number, not below 0 and not above 2^21; and for any buffer at all no
    entry is below 0. *)
Theorem applySobelFilter_nonneg (pixels : list Byte.byte) (width height : nat)
    (edges : grid) (y x : nat) (r : row) (v : number) :
  applySobelFilter pixels width height = Ok edges ->
  edges !! y = Some r -> r !! x = Some v ->
  (v <? 0)%float = false
  /\ (length pixels = 4 * (width * height) ->
      is_finite v = true /\ (0 <=? v)%float = true
      /\ (v <=? 2097152)%float = true).
Proof.
  intros Hedges Hr Hv.
  destruct (applySobelFilter_lookup pixels width height) as (edges' & He & Hlook).
  rewrite Hedges in He. injection He as <-.
  specialize (Hlook y x). rewrite Hr in Hlook. cbn [mbind option_bind] in Hlook.
  rewrite Hv in Hlook. case_decide as Hin; [|done].
  injection Hlook as ->.
  destruct (interior width height x y) eqn:Hint.
  - split; [apply sqrt_not_negative|]. intros Hlen.
    destruct (interior_bounds width height x y Hint) as (Hx & _ & Hy & _).
    rewrite sobel_sums_spec by done.
    destruct (convolve_gx_approx pixels width height x y Hlen Hint) as [Hgx _].
    destruct (convolve_gy_approx pixels width height x y Hlen Hint) as [Hgy _].
    pose proof (magnitude_bounded _ _ 20 Hgx Hgy ltac:(lia)) as Hb.
    destruct (nonneg_of_bounded 21 _ Hb ltac:(done)) as (Hfin & Hpos & Hval).
    split; [done|]. split; [done|].
    rewrite leb_val by done.
    apply Z.leb_le. etrans; [exact Hval|]. by vm_compute.
  - split; [done|]. intros _. done.
Qed.

Lemma applySobelFilter_nonneg_witness :
  edge_map_at frame_edge 4 4 1 2 = Some 1020%float
  /\ (0 <=? 1020)%float = true.
Proof.
  split; [vm_compute; reflexivity|].
  destruct (applySobelFilter frame_edge 4 4) as [edges|] eqn:Hedges;
    [|vm_compute in Hedges; discriminate].
  destruct (edges !! 2) as [r|] eqn:Hr;
    [|vm_compute in Hedges; injection Hedges as <-; vm_compute in Hr; discriminate].
  assert (Hv : r !! 1 = Some 1020%float).
  { vm_compute in Hedges. injection Hedges as <-. vm_compute in Hr.
    injection Hr as <-. vm_compute. reflexivity. }
  apply (applySobelFilter_nonneg frame_edge 4 4 edges 2 1 r 1020%float
           Hedges Hr Hv).
  reflexivity.
Defined.

(** ** Flat surroundings *)

Local Open Scope Z_scope.

(** A sum of rounding errors around 0 is small. *)
Lemma approx_small (k n : Z) (f : float) :
  approx k n 0 f -> n <= 32 -> exists s, bounded_by s (-25) (Prim2SF f).
Proof.
  intros [Hb Hv] Hn.
  apply (bounded_of_valu prec emax (Prim2SF f) k (-25) unit_exp);
    [apply Prim2SF_valid | done | done | done |].
  rewrite Z.sub_0_r in Hv. etrans; [exact Hv|].
  etrans; [apply (Z.mul_le_mono_nonneg_r n 32); [done | exact Hn]|].
  by vm_compute.
Qed.

Local Close Scope Z_scope.

(** When the eight neighbours of an interior pixel have the same luma,
    both convolutions are a sum of rounding errors, and the gradient is
    at most [2 ^ -24]. *)
Lemma flat_magnitude (pixels : list Byte.byte) (width height x y : nat) :
  length pixels = 4 * (width * height) ->
  interior width height x y = true ->
  flat_around pixels width x y ->
  bounded_by false (-24) (Prim2SF (magnitude (sobel_sums pixels width x y))).
Proof.
  intros Hlen Hint [b Hflat].
  destruct (interior_bounds width height x y Hint) as (Hx & _ & Hy & _).
  rewrite sobel_sums_spec by done.
  pose proof (convolve_gx_approx pixels width height x y Hlen Hint) as Hgx.
  pose proof (convolve_gy_approx pixels width height x y Hlen Hint) as Hgy.
  cbv beta zeta in Hgx, Hgy.
  assert (Hb : forall i j a c, i < 3 -> j < 3 -> (i, j) <> (1, 1) ->
                 a = x + j - 1 -> c = y + i - 1 ->
                 luma_at pixels width a c = b).
  { intros i j a c Hi Hj Hij -> ->. by apply Hflat. }
  rewrite (Hb 0 0 (x - 1) (y - 1)) in Hgx, Hgy by (done || lia).
  rewrite (Hb 0 2 (x + 1) (y - 1)) in Hgx, Hgy by (done || lia).
  rewrite (Hb 2 0 (x - 1) (y + 1)) in Hgx, Hgy by (done || lia).
  rewrite (Hb 2 2 (x + 1) (y + 1)) in Hgx, Hgy by (done || lia).
  rewrite (Hb 1 0 (x - 1) y) in Hgx by (done || lia).
  rewrite (Hb 1 2 (x + 1) y) in Hgx by (done || lia).
  rewrite (Hb 0 1 x (y - 1)) in Hgy by (done || lia).
  rewrite (Hb 2 1 x (y + 1)) in Hgy by (done || lia).
  apply (magnitude_bounded _ _ (-25)%Z); [| |lia].
  - apply (approx_small 20 18); [|lia].
    eapply approx_eq; [exact Hgx | lia].
  - apply (approx_small 20 18); [|lia].
    eapply approx_eq; [exact Hgy | lia].
Qed.

Lemma flat_not_emitted (pixels : list Byte.byte) (width height : nat)
    (edges : grid) (k : nat) :
  length pixels = 4 * (width * height) ->
  applySobelFilter pixels width height = Ok edges ->
  emits pixels width edges k = true ->
  ~ flat_around pixels width (k / width) (k mod width).
Proof.
  intros Hlen Hedges Hemits Hflat.
  destruct (proj1 (emits_iff pixels width height edges k Hedges) Hemits)
    as (_ & _ & Hint & Hgt).
  pose proof (flat_magnitude pixels width height _ _ Hlen Hint Hflat) as Hsmall.
  apply small_not_edge in Hsmall. by rewrite Hsmall in Hgt.
Qed.

(** X18: a pixel whose transposed position has flat surroundings is never
    reported.  For a frame whose buffer holds exactly width * height
    pixels, no point (x, y) that [findBrightPoints] returns is such that
    the eight neighbours of the pixel at column y, row x all have the same
    luma: the gradient there is a sum of rounding errors, below the edge
    threshold. *)
Theorem flat_surroundings_not_reported (pixels : list Byte.byte)
    (width height : nat) (l : list BrightPoint) (p : BrightPoint) :
  length pixels = 4 * (width * height) ->
  findBrightPoints pixels width height = Ok l -> p ∈ l ->
  ~ flat_around pixels width (bp_y p) (bp_x p).
Proof.
  intros Hlen Hl Hp.
  destruct (applySobelFilter_rows pixels width height) as (edges & Hedges & _).
  destruct (proj1 (findBrightPoints_elem_of pixels width height edges l p
                     Hedges Hl) Hp) as (k & Hk & Hemits & ->).
  cbn [candidate bp_x bp_y].
  by apply (flat_not_emitted pixels width height edges).
Qed.

Lemma flat_surroundings_not_reported_witness :
  ~ flat_around frame_edge 4 1 1.
Proof.
  apply (flat_surroundings_not_reported frame_edge 4 4
           [ mkBrightPoint 1 1 255%float (mkColor 1%float 1%float 1%float);
             mkBrightPoint 2 1 255%float (mkColor 1%float 1%float 1%float) ]
           (mkBrightPoint 1 1 255%float (mkColor 1%float 1%float 1%float)));
    [reflexivity | vm_compute; reflexivity | apply list_elem_of_here].
Defined.

(** X19: a frame of uniform luma yields no point.  When the buffer holds
    exactly width * height pixels that all have the same luma, however
    bright, [findBrightPoints] returns no point. *)
Theorem uniform_frame_no_point (pixels : list Byte.byte) (width height : nat)
    (l : list BrightPoint) :
  length pixels = 4 * (width * height) -> uniform_luma pixels ->
  findBrightPoints pixels width height = Ok l -> l = [].
Proof.
  intros Hlen Huni Hl. destruct l as [|p l]; [done|]. exfalso.
  destruct (applySobelFilter_rows pixels width height) as (edges & Hedges & _).
  destruct (proj1 (findBrightPoints_elem_of pixels width height edges (p :: l) p
                     Hedges Hl) (list_elem_of_here _ _))
    as (k & Hk & Hemits & _).
  apply (flat_not_emitted pixels width height edges k Hlen Hedges Hemits).
  destruct (proj1 (emits_iff pixels width height edges k Hedges) Hemits)
    as (_ & _ & Hint & _).
  destruct (interior_bounds width height _ _ Hint) as (Hx1 & Hx2 & Hy1 & Hy2).
  exists (luma pixels (4 * 0)). intros i j Hi Hj _. unfold luma_at.
  rewrite (Nat.mul_comm _ 4). apply Huni; [|lia].
  rewrite Hlen.
  assert ((k mod width + i - 1) * width + (k / width + j - 1) < width * height)
    by nia.
  lia.
Qed.

Lemma uniform_frame_no_point_witness :
  gt (luma frame_white_3x3 (4 * 4)) brightnessThreshold = true
  /\ forall l, findBrightPoints frame_white_3x3 3 3 = Ok l -> l = [].
Proof.
  split; [vm_compute; reflexivity|]. intros l Hl.
  apply (uniform_frame_no_point frame_white_3x3 3 3 l); [reflexivity | | exact Hl].
  assert (H : forall k, 4 * k < length frame_white_3x3 ->
                luma frame_white_3x3 (4 * k) = 255%float).
  { intros k Hk.
    do 9 (destruct k as [|k]; [vm_compute; reflexivity|]).
    cbn in Hk. lia. }
  intros k k' Hk Hk'. by rewrite !H.
Defined.

(** X20: an isolated bright pixel is not reported.  When the buffer holds
    exactly width * height pixels, pixel (x0, y0) is the only one whose
    luma is above the brightness threshold, and the eight neighbours of
    the pixel at column y0, row x0 have the same luma, [findBrightPoints]
    returns no point.  The white pixel at (2, 2) of the mid-gray 4 by 4
    frame is an instance. *)
Theorem isolated_bright_pixel_no_point (pixels : list Byte.byte)
    (width height x0 y0 : nat) (l : list BrightPoint) :
  length pixels = 4 * (width * height) -> x0 < width ->
  (forall k, 4 * k < length pixels -> k <> y0 * width + x0 ->
             gt (luma pixels (4 * k)) brightnessThreshold = false) ->
  flat_around pixels width y0 x0 ->
  findBrightPoints pixels width height = Ok l -> l = [].
Proof.
  intros Hlen Hx0 Hdark Hflat Hl. destruct l as [|p l]; [done|]. exfalso.
  destruct (applySobelFilter_rows pixels width height) as (edges & Hedges & _).
  destruct (proj1 (findBrightPoints_elem_of pixels width height edges (p :: l) p
                     Hedges Hl) (list_elem_of_here _ _))
    as (k & Hk & Hemits & _).
  apply (flat_not_emitted pixels width height edges k Hlen Hedges Hemits).
  destruct (proj1 (emits_iff pixels width height edges k Hedges) Hemits)
    as (Hbright & _).
  destruct (decide (k = y0 * width + x0)) as [->|Hne];
    [|by rewrite (Hdark k Hk Hne) in Hbright].
  rewrite Nat.div_add_l, Nat.div_small, Nat.add_0_r by lia.
  rewrite Nat.add_comm, Nat.Div0.mod_add, Nat.mod_small by lia.
  done.
Qed.

Lemma isolated_bright_pixel_no_point_witness :
  gt (luma frame_4x4 (4 * (2 * 4 + 2))) brightnessThreshold = true
  /\ forall l, findBrightPoints frame_4x4 4 4 = Ok l -> l = [].
Proof.
  split; [vm_compute; reflexivity|]. intros l Hl.
  apply (isolated_bright_pixel_no_point frame_4x4 4 4 2 2 l);
    [reflexivity | lia | | | exact Hl].
  - intros k Hk Hne.
    do 16 (destruct k as [|k];
           [first [vm_compute; reflexivity | exfalso; apply Hne; reflexivity]|]).
    cbn in Hk. lia.
  - exists (luma frame_4x4 0). intros i j Hi Hj Hij.
    destruct i as [|[|[|i]]]; [| | |lia];
      (destruct j as [|[|[|j]]]; [| | |lia]);
      first [vm_compute; reflexivity | exfalso; apply Hij; reflexivity].
Defined.

(** * Lower bounds

    A number of magnitude at least [2 ^ j] is rounded to a number of
    magnitude at least [2 ^ j]. *)

Local Open Scope Z_scope.

Lemma pow_lb_shift (m e ez j : Z) :
  1 <= m -> 2 ^ (j - e) <= m -> ez <= e -> 2 ^ (j - ez) <= m * 2 ^ (e - ez).
Proof.
  intros Hm Hlb Hez.
  destruct (Z.le_gt_cases 0 (j - e)) as [Hpos|Hneg].
  - replace (j - ez) with ((j - e) + (e - ez)) by lia.
    rewrite Z.pow_add_r by lia.
    apply Z.mul_le_mono_nonneg_r; [apply Z.pow_nonneg; lia | done].
  - destruct (Z.le_gt_cases 0 (j - ez)) as [Hpos'|Hneg'].
    + etrans; [apply (Z.pow_le_mono_r 2 (j - ez) (e - ez)); lia|].
      rewrite <- (Z.mul_1_l (2 ^ (e - ez))) at 1.
      apply Z.mul_le_mono_nonneg_r; [apply Z.pow_nonneg; lia | lia].
    + rewrite Z.pow_neg_r by lia.
      apply Z.mul_nonneg_nonneg; [lia | apply Z.pow_nonneg; lia].
Qed.

Section Lower.
Variables prec emax : Z.
Hypothesis Hprec : 1 <= prec.
Hypothesis Hemax : prec < emax.

Lemma shr_fexp_lb (m e j : Z) (l : location) :
  0 < m -> 2 ^ (j - e) <= m -> SpecFloat.emin prec emax <= j ->
  0 < shr_m (fst (shr_fexp prec emax m e l))
  /\ 2 ^ (j - snd (shr_fexp prec emax m e l))
     <= shr_m (fst (shr_fexp prec emax m e l)).
Proof.
  intros Hm Hlb Hj. unfold shr_fexp. rewrite shr_spec. cbn [fst snd].
  destruct (mrs_ub_of_loc m l) as [_ Hm0].
  rewrite shr_iter_m by (rewrite Hm0; lia). rewrite Hm0.
  destruct (Zdigits2_lb m Hm) as [Hd Hd1].
  set (d := Zdigits2 m) in *.
  set (n := fexp prec emax (d + e) - e).
  assert (Hub : m < 2 ^ d).
  { unfold d. destruct m as [|p|p]; try lia.
    exact (proj2 (digits2_pos_bounds p)). }
  assert (Hde : j + 1 <= d + e).
  { destruct (Z.le_gt_cases e j) as [Hej|Hej]; [|lia].
    assert (Hpow : 2 ^ (j - e) < 2 ^ d) by lia.
    apply Z.pow_lt_mono_r_iff in Hpow; lia. }
  assert (Hn : Z.of_nat (Z.to_nat n) <= d - 1)
    by (unfold n, fexp, SpecFloat.emin in *; lia).
  set (N := Z.of_nat (Z.to_nat n)) in *.
  assert (HN : Z.max n 0 = N) by lia. rewrite HN.
  assert (HP : 0 < 2 ^ N) by (apply Z.pow_pos_nonneg; lia).
  split.
  - apply Z.div_str_pos. split; [done|].
    etrans; [|exact Hd]. apply Z.pow_le_mono_r; lia.
  - destruct (Z.le_gt_cases 0 (j - (e + N))) as [Hpos|Hneg].
    + apply Z.div_le_lower_bound; [done|].
      rewrite <- Z.pow_add_r by lia.
      replace (N + (j - (e + N))) with (j - e) by lia. done.
    + rewrite Z.pow_neg_r by lia. apply Z.div_pos; lia.
Qed.

Lemma binary_round_aux_lb (s : bool) (m e j : Z) (l : location) :
  0 < m -> 2 ^ (j - e) <= m -> SpecFloat.emin prec emax <= j ->
  at_least s j (binary_round_aux prec emax s m e l).
Proof.
  intros Hm Hlb Hj. unfold binary_round_aux.
  destruct (shr_fexp_lb m e j l Hm Hlb Hj) as [Hm1 Hlb1].
  destruct (shr_fexp prec emax m e l) as [mrs1 e1]. cbn [fst snd] in *.
  pose proof (round_nearest_even_bounds mrs1) as Hr.
  set (m2 := round_nearest_even (shr_m mrs1) (loc_of_shr_record mrs1)) in *.
  destruct (shr_fexp_lb m2 e1 j loc_Exact) as [Hm3 Hlb3]; [lia | lia | done |].
  destruct (shr_fexp prec emax m2 e1 loc_Exact) as [mrs3 e3]. cbn [fst snd] in *.
  destruct (shr_m mrs3) as [|p|p]; [lia| |lia].
  by destruct (e3 <=? emax - prec).
Qed.

Lemma binary_round_lb (s : bool) (m : positive) (e j : Z) :
  2 ^ (j - e) <= Zpos m -> SpecFloat.emin prec emax <= j ->
  at_least s j (binary_round prec emax s m e).
Proof.
  intros Hlb Hj. unfold binary_round.
  destruct (shl_align_spec m e (fexp prec emax (Zpos (digits2_pos m) + e)))
    as (Hez & Hmz & _).
  destruct (shl_align m e _) as [mz ez]. cbn [fst snd] in *.
  apply binary_round_aux_lb; [lia| |done].
  rewrite Hmz, <- Hez. apply pow_lb_shift; lia.
Qed.

(** Products, sums with a non-negative number, and square roots. *)
Lemma SFmul_lb (s1 s2 : bool) (j1 j2 : Z) (x y : spec_float) :
  at_least s1 j1 x -> at_least s2 j2 y ->
  SpecFloat.emin prec emax <= j1 + j2 ->
  at_least (xorb s1 s2) (j1 + j2) (SFmul prec emax x y).
Proof.
  intros Hx Hy Hj.
  destruct x as [sx|sx| |sx mx ex]; try done;
    destruct y as [sy|sy| |sy my ey]; try done; cbn [SFmul at_least] in *.
  - by subst.
  - destruct Hy as [-> _]. by subst.
  - destruct Hx as [-> _]. by subst.
  - destruct Hx as [-> Hx], Hy as [-> Hy].
    apply binary_round_aux_lb; [lia| |done].
    rewrite Pos2Z.inj_mul.
    destruct (Z.le_gt_cases 0 (j1 - ex)) as [H1|H1];
      destruct (Z.le_gt_cases 0 (j2 - ey)) as [H2|H2].
    + replace (j1 + j2 - (ex + ey)) with ((j1 - ex) + (j2 - ey)) by lia.
      rewrite Z.pow_add_r by lia.
      apply Z.mul_le_mono_nonneg; (done || apply Z.pow_nonneg; lia).
    + destruct (Z.le_gt_cases 0 (j1 + j2 - (ex + ey)));
        [|rewrite Z.pow_neg_r by lia; lia].
      etrans; [apply (Z.pow_le_mono_r 2 _ (j1 - ex)); lia|].
      etrans; [exact Hx|]. clear. nia.
    + destruct (Z.le_gt_cases 0 (j1 + j2 - (ex + ey)));
        [|rewrite Z.pow_neg_r by lia; lia].
      etrans; [apply (Z.pow_le_mono_r 2 _ (j2 - ey)); lia|].
      etrans; [exact Hy|]. clear. nia.
    + rewrite Z.pow_neg_r by lia. lia.
Qed.

Lemma SFadd_lb_l (j k : Z) (x y : spec_float) :
  at_least false j x -> bounded_by false k y ->
  SpecFloat.emin prec emax <= j ->
  at_least false j (SFadd prec emax x y).
Proof.
  intros Hx Hy Hj.
  destruct x as [sx|sx| |sx mx ex]; try done;
    destruct y as [sy|sy| |sy my ey]; try done; cbn [SFadd at_least] in *;
    try done.
  destruct Hx as [-> Hx], Hy as [-> Hy]. cbn [cond_Zopp].
  - destruct (shl_align_spec mx ex (Z.min ex ey)) as (_ & Hax & _).
    replace (Z.min ex (Z.min ex ey)) with (Z.min ex ey) in Hax by lia.
    cbn [Z.add binary_normalize].
    apply binary_round_lb; [|done].
    rewrite Pos2Z.inj_add, Hax.
    pose proof (pow_lb_shift (Zpos mx) ex (Z.min ex ey) j ltac:(lia) Hx
                  ltac:(lia)).
    lia.
Qed.

Lemma SFadd_lb_r (j k : Z) (x y : spec_float) :
  bounded_by false k x -> at_least false j y ->
  SpecFloat.emin prec emax <= j ->
  at_least false j (SFadd prec emax x y).
Proof.
  intros Hx Hy Hj.
  destruct x as [sx|sx| |sx mx ex]; try done;
    destruct y as [sy|sy| |sy my ey]; try done; cbn [SFadd at_least] in *;
    try done.
  destruct Hx as [-> Hx], Hy as [-> Hy]. cbn [cond_Zopp].
  - destruct (shl_align_spec my ey (Z.min ex ey)) as (_ & Hay & _).
    replace (Z.min ey (Z.min ex ey)) with (Z.min ex ey) in Hay by lia.
    cbn [Z.add binary_normalize].
    apply binary_round_lb; [|done].
    rewrite Pos2Z.inj_add, Hay.
    pose proof (pow_lb_shift (Zpos my) ey (Z.min ex ey) j ltac:(lia) Hy
                  ltac:(lia)).
    lia.
Qed.

Lemma SFsqrt_lb (x : spec_float) (j : Z) :
  at_least false (2 * j) x -> SpecFloat.emin prec emax <= j ->
  at_least false j (SFsqrt prec emax x).
Proof.
  intros Hx Hj. destruct x as [sx|sx| |sx m e]; try done.
  { cbn [at_least] in Hx. subst. done. }
  destruct Hx as [-> Hm].
  cbn [SFsqrt]. unfold SFsqrt_core_binary.
  set (e' := Z.min (fexp prec emax (Z.div2 (Zdigits2 (Zpos m) + e + 1)))
                   (Z.div2 e)).
  assert (He' : 2 * e' <= e).
  { pose proof (Z.mul_div_le e 2 ltac:(lia)) as H.
    rewrite <- Z.div2_div in H. unfold e'. lia. }
  set (m' := match e - 2 * e' with
             | 0 => Zpos m
             | Zpos _ => Z.shiftl (Zpos m) (e - 2 * e')
             | Zneg _ => 0
             end).
  assert (Hm' : m' = Zpos m * 2 ^ (e - 2 * e')).
  { unfold m'. destruct (e - 2 * e') as [|p|p] eqn:Hs; [lia| |lia].
    by rewrite Z.shiftl_mul_pow2. }
  clearbody m'.
  assert (Hm1 : 1 <= m').
  { rewrite Hm'.
    assert (0 < 2 ^ (e - 2 * e')) by (apply Z.pow_pos_nonneg; lia). nia. }
  pose proof (pow_lb_shift (Zpos m) e (2 * e') (2 * j) ltac:(lia) Hm He') as Hsq.
  rewrite <- Hm' in Hsq.
  pose proof (Z.sqrtrem_spec m' ltac:(lia)) as Hsqrt.
  destruct (Z.sqrtrem m') as [q r]. destruct Hsqrt as [Hqr Hr].
  apply binary_round_aux_lb; [nia| |done].
  destruct (Z.le_gt_cases 0 (j - e')) as [Hpos|Hneg];
    [|rewrite Z.pow_neg_r by lia; lia].
  replace (2 * j - 2 * e') with ((j - e') + (j - e')) in Hsq by lia.
  rewrite Z.pow_add_r in Hsq by lia.
  assert (0 < 2 ^ (j - e')) by (apply Z.pow_pos_nonneg; lia).
  set (T := 2 ^ (j - e')) in *. clearbody T. clear - Hsq Hqr Hr H. nia.
Qed.

(** A value that is large in units of [2 ^ u] is large. *)
Lemma at_least_of_valu (f : spec_float) (k j u : Z) :
  (exists s, bounded_by s k f) -> u <= j ->
  2 ^ (j - u) <= Z.abs (SFvalu u f) ->
  exists s, at_least s j f.
Proof.
  intros [s Hb] Hj Hval.
  assert (HP : 0 < 2 ^ (j - u)) by (apply Z.pow_pos_nonneg; lia).
  destruct f as [s'|s'| |s' m e]; try done; cbn [SFvalu] in Hval; [lia|].
  exists s'. split; [done|].
  assert (Habs : 2 ^ (j - u) <= Zpos m * 2 ^ (e - u))
    by (destruct s'; cbn [cond_Zopp] in Hval; lia).
  clear Hval.
  destruct (Z.le_gt_cases 0 (j - e)) as [Hpos|Hneg];
    [|rewrite Z.pow_neg_r by lia; lia].
  destruct (Z.le_gt_cases u e) as [Hue|Hue].
  - replace (j - u) with ((j - e) + (e - u)) in Habs by lia.
    rewrite Z.pow_add_r in Habs by lia.
    apply Z.mul_le_mono_pos_r in Habs; [done|].
    apply Z.pow_pos_nonneg; lia.
  - rewrite (Z.pow_neg_r 2 (e - u)) in Habs by lia. lia.
Qed.
End Lower.

Local Close Scope Z_scope.

(** ** Strong edges *)

Local Open Scope Z_scope.

(** A sum of rounding errors around a value of magnitude at least 1 has a
    magnitude of at least 1/2. *)
Lemma approx_large (k n v : Z) (f : float) :
  approx k n v f -> n <= 32 -> one_unit <= Z.abs v ->
  exists s, at_least s (-1) (Prim2SF f).
Proof.
  intros [Hb Hv] Hn Hlarge.
  apply (at_least_of_valu (Prim2SF f) k (-1) unit_exp); [done | done |].
  assert (Herr : n * 2 ^ (err_exp - unit_exp) <= 32 * 2 ^ (err_exp - unit_exp))
    by (apply Z.mul_le_mono_nonneg_r; [done | exact Hn]).
  assert (Hgap : 2 ^ (-1 - unit_exp) + 32 * 2 ^ (err_exp - unit_exp) <= one_unit)
    by (by vm_compute).
  set (P := 2 ^ (err_exp - unit_exp)) in *.
  set (Q := 2 ^ (-1 - unit_exp)) in *.
  set (a := SFvalu unit_exp (Prim2SF f)) in *.
  clearbody P Q a. clear - Hv Herr Hgap Hlarge. lia.
Qed.

(** A gradient of at least 1/2 is above the edge threshold. *)
Lemma at_least_edge (v : float) :
  at_least false (-1) (Prim2SF v) -> gt v edgeThreshold = true.
Proof.
  intros Hv. unfold gt.
  destruct (Prim2SF v) as [s|s| |s m e] eqn:Hp; try done.
  - cbn [at_least] in Hv. subst s.
    rewrite FloatAxioms.ltb_spec, Hp. reflexivity.
  - destruct Hv as [-> Hm].
    assert (Hfin : is_finite v = true) by (by rewrite is_finite_spec, Hp).
    rewrite ltb_val by done. rewrite Hp. cbn [SFval cond_Zopp].
    pose proof (Prim2SF_valid v) as Hvalid. rewrite Hp in Hvalid.
    apply valid_finite in Hvalid as (_ & He & _).
    pose proof (pow_lb_shift (Zpos m) e emin (-1) ltac:(lia) Hm ltac:(lia))
      as Hlb.
    apply Z.ltb_lt. eapply Z.lt_le_trans; [|exact Hlb]. by vm_compute.
Qed.

Lemma square_ub (k : Z) (f : float) :
  (exists s, bounded_by s k (Prim2SF f)) -> -500 <= k <= 400 ->
  bounded_by false (k + k) (Prim2SF (f * f)).
Proof.
  intros [s Hf] Hk. rewrite mul_spec. rewrite <- (xorb_nilpotent s).
  apply (SFmul_ub prec emax prec_ge_1 prec_lt_emax); try done;
    unfold emin, emax, prec; lia.
Qed.

Lemma square_lb (f : float) :
  (exists s, at_least s (-1) (Prim2SF f)) ->
  at_least false (-2) (Prim2SF (f * f)).
Proof.
  intros [s Hf]. rewrite mul_spec. rewrite <- (xorb_nilpotent s).
  by apply (SFmul_lb prec emax prec_ge_1 s s (-1) (-1)).
Qed.

Local Close Scope Z_scope.

(** When one of the two Sobel sums, computed without rounding, has a
    magnitude of at least 1, the gradient is above the edge threshold. *)
Lemma strong_magnitude (pixels : list Byte.byte) (width height x y : nat) :
  length pixels = 4 * (width * height) ->
  interior width height x y = true ->
  (one_unit <= Z.abs (exact_gx pixels width x y))%Z
  \/ (one_unit <= Z.abs (exact_gy pixels width x y))%Z ->
  gt (magnitude (sobel_sums pixels width x y)) edgeThreshold = true.
Proof.
  intros Hlen Hint Hstrong.
  destruct (interior_bounds width height x y Hint) as (Hx & _ & Hy & _).
  rewrite sobel_sums_spec by done.
  pose proof (convolve_gx_approx pixels width height x y Hlen Hint) as Hgx.
  pose proof (convolve_gy_approx pixels width height x y Hlen Hint) as Hgy.
  apply at_least_edge. unfold magnitude. cbn [fst snd].
  rewrite sqrt_spec, add_spec.
  apply (SFsqrt_lb prec emax prec_ge_1 prec_lt_emax); [|done].
  destruct Hstrong as [Hs|Hs].
  - apply (SFadd_lb_l prec emax prec_ge_1 (-2) 40); [| |done].
    + apply square_lb.
      apply (approx_large 20 18 (exact_gx pixels width x y));
        [exact Hgx | lia | exact Hs].
    + apply (square_ub 20); [by destruct Hgy | lia].
  - apply (SFadd_lb_r prec emax prec_ge_1 (-2) 40); [| |done].
    + apply (square_ub 20); [by destruct Hgx | lia].
    + apply square_lb.
      apply (approx_large 20 18 (exact_gy pixels width x y));
        [exact Hgy | lia | exact Hs].
Qed.

(** X21: a strong edge is reported.  For a frame whose buffer holds
    exactly width * height pixels, when [findBrightPoints] returns a list,
    it holds the point of every pixel (x, y) whose luma is above the
    brightness threshold, whose transposed position (column y, row x) is
    interior, and for which one of the two Sobel sums of the lumas around
    that position, taken without rounding, has a magnitude of at least
    1. *)
Theorem strong_edge_reported (pixels : list Byte.byte) (width height : nat)
    (l : list BrightPoint) (k : nat) :
  length pixels = 4 * (width * height) ->
  findBrightPoints pixels width height = Ok l ->
  4 * k < length pixels ->
  gt (luma pixels (4 * k)) brightnessThreshold = true ->
  interior width height (k / width) (k mod width) = true ->
  (one_unit <= Z.abs (exact_gx pixels width (k / width) (k mod width)))%Z
  \/ (one_unit <= Z.abs (exact_gy pixels width (k / width) (k mod width)))%Z ->
  candidate pixels width k ∈ l.
Proof.
  intros Hlen Hl Hk Hbright Hint Hstrong.
  destruct (applySobelFilter_rows pixels width height) as (edges & Hedges & _).
  apply (findBrightPoints_elem_of pixels width height edges l _ Hedges Hl).
  exists k. split; [done|]. split; [|done].
  apply (emits_iff pixels width height edges k Hedges).
  split; [done|]. split.
  { destruct (interior_bounds width height _ _ Hint). lia. }
  split; [done|].
  by apply (strong_magnitude pixels width height).
Qed.

Lemma strong_edge_reported_witness :
  exact_gx frame_edge 4 1 1 = (1020 * one_unit)%Z
  /\ candidate frame_edge 4 5
     ∈ [ mkBrightPoint 1 1 255%float (mkColor 1%float 1%float 1%float);
         mkBrightPoint 2 1 255%float (mkColor 1%float 1%float 1%float) ].
Proof.
  split; [vm_compute; reflexivity|].
  apply (strong_edge_reported frame_edge 4 4 _ 5);
    [reflexivity | vm_compute; reflexivity | cbn; lia
    | vm_compute; reflexivity | reflexivity |].
  left. vm_compute. discriminate.
Defined.
